(** * kure-sh/generate: the module assembly engine and the type compiler

    A shallow embedding of [syntax.ts] (module assembly: [Names], [Imports],
    [Module], [Context]) and of [mod.ts] (the type compiler [gen] and
    [emitVersion]), followed by the properties of the generator.

    Conventions of the embedding.
    - A JavaScript string is a [string]: a sequence of code units, each
      below 256.
    - A thrown [Error] is [Err msg], with the message the source builds.
    - A [Map] is an insertion-ordered association list ([JsMap]).
    - Mutable objects that are shared by reference ([Name], [Import]) live in
      the module state; a closure that holds such an object holds its key
      and reads the state when it is called.
    - Built-ins of the host that the repository does not define
      ([String.prototype.localeCompare], the posix [dirname], [basename]
      and [relative] of the standard path library) are the fields of the
      class [Host]. *)

From Stdlib Require Import String Ascii List ZArith Lia Bool Arith.
From Stdlib Require Import Permutation Sorted DecimalString DecimalNat.
Import ListNotations.
Local Open Scope list_scope.
Local Open Scope string_scope.

Set Implicit Arguments.
Local Set Warnings "-register-all".

(** ** Results of code that may throw *)

Inductive result (A : Type) : Type :=
| Ok (a : A)
| Err (msg : string).
Arguments Ok {A} a.
Arguments Err {A} msg.

Definition bind {A B : Type} (c : result A) (k : A -> result B) : result B :=
  match c with
  | Ok a => k a
  | Err msg => Err msg
  end.

Notation "x <- c ;; k" := (bind c (fun x => k))
  (at level 61, c at next level, right associativity).
Notation "' p <- c ;; k" := (bind c (fun x => let 'p := x in k))
  (at level 61, p pattern, c at next level, right associativity).

(** [array.map(f)] where [f] may throw: the first failure aborts the map. *)
Fixpoint mapM {A B : Type} (f : A -> result B) (l : list A) : result (list B) :=
  match l with
  | [] => Ok []
  | x :: l' => y <- f x ;; ys <- mapM f l' ;; Ok (y :: ys)
  end.

Definition is_ok {A : Type} (r : result A) : bool :=
  match r with Ok _ => true | Err _ => false end.

(** ** Strings *)

Module Js.

Definition dquote : ascii := "034"%char.
Definition nl : string := String "010"%char "".

(** [array.join(sep)] *)
Definition join (sep : string) (l : list string) : string := String.concat sep l.

(** Truthiness of a string: the empty string is falsy. *)
Definition truthy (s : string) : bool :=
  match s with "" => false | _ => true end.

(** Truthiness of an optional string ([undefined] is falsy). *)
Definition otruthy (o : option string) : bool :=
  match o with Some s => truthy s | None => false end.

(** [s.startsWith(".")] *)
Definition startsWithDot (s : string) : bool :=
  match s with String "."%char _ => true | _ => false end.

(** [s.split(sep)] for a one-character separator. *)
Fixpoint split (sep : ascii) (s : string) : list string :=
  match s with
  | "" => [""]
  | String c s' =>
      if Ascii.eqb c sep then "" :: split sep s'
      else match split sep s' with
           | [] => [String c ""]
           | h :: t => String c h :: t
           end
  end.

(** [s.replaceAll(pat, rep)] for a non-empty pattern: matches are found
    left to right and do not overlap; [skip] counts the characters of a
    match still to be dropped. *)
Fixpoint replaceAll_from (pat rep : string) (skip : nat) (s : string) : string :=
  match s with
  | "" => ""
  | String c s' =>
      match skip with
      | S k => replaceAll_from pat rep k s'
      | O =>
          if String.prefix pat s
          then rep ++ replaceAll_from pat rep (String.length pat - 1) s'
          else String c (replaceAll_from pat rep 0 s')
      end
  end.

Definition replaceAll (pat rep s : string) : string := replaceAll_from pat rep 0 s.

(** White space of ECMAScript among the code units below 256: TAB, LF, VT,
    FF, CR, SP and NBSP. *)
Definition is_space (c : ascii) : bool :=
  let n := nat_of_ascii c in
  ((9 <=? n)%nat && (n <=? 13)%nat) || (n =? 32)%nat || (n =? 160)%nat.

(** [s.trimEnd()] *)
Fixpoint trimEnd (s : string) : string :=
  match s with
  | "" => ""
  | String c s' =>
      match trimEnd s' with
      | "" => if is_space c then "" else String c ""
      | t => String c t
      end
  end.

(** [s.repeat(n)] *)
Fixpoint repeat (s : string) (n : nat) : string :=
  match n with
  | O => ""
  | S k => s ++ repeat s k
  end.

Definition is_alpha (c : ascii) : bool :=
  let n := nat_of_ascii c in
  ((65 <=? n)%nat && (n <=? 90)%nat) || ((97 <=? n)%nat && (n <=? 122)%nat).

(** The class [\w]: letters, digits and the underscore. *)
Definition is_word (c : ascii) : bool :=
  let n := nat_of_ascii c in
  is_alpha c || ((48 <=? n)%nat && (n <=? 57)%nat) || (n =? 95)%nat.

Fixpoint all_word (s : string) : bool :=
  match s with
  | "" => true
  | String c s' => is_word c && all_word s'
  end.

(** [/^[A-Za-z]\w*$/.test(s)] *)
Definition is_identifier (s : string) : bool :=
  match s with
  | "" => false
  | String c s' => is_alpha c && all_word s'
  end.

Definition hex_digit (n : nat) : ascii :=
  nth n (list_ascii_of_string "0123456789abcdef") "0"%char.

(** One code unit inside [JSON.stringify] of a string. *)
Definition json_escape (c : ascii) : string :=
  let n := nat_of_ascii c in
  if (n =? 34)%nat then String "\"%char (String dquote "")
  else if (n =? 92)%nat then "\\"
  else if (n =? 8)%nat then "\b"
  else if (n =? 12)%nat then "\f"
  else if (n =? 10)%nat then "\n"
  else if (n =? 13)%nat then "\r"
  else if (n =? 9)%nat then "\t"
  else if (n <? 32)%nat then "\u00" ++ String (hex_digit (n / 16)) (String (hex_digit (n mod 16)) "")
  else String c "".

Fixpoint json_body (s : string) : string :=
  match s with
  | "" => ""
  | String c s' => json_escape c ++ json_body s'
  end.

(** [JSON.stringify(s)] for a string [s]. *)
Definition JSON_stringify (s : string) : string :=
  String dquote (json_body s ++ String dquote "").

(** The text of a non-negative integer inside a template literal. *)
Definition of_nat (n : nat) : string := NilZero.string_of_uint (Nat.to_uint n).

End Js.

(** ** [Map]: insertion-ordered association lists *)

Section JsMap.
Variables (K V : Type) (eqb : K -> K -> bool).

Definition JsMap : Type := list (K * V).

(** [map.get(k)] *)
Fixpoint map_get (k : K) (m : JsMap) : option V :=
  match m with
  | [] => None
  | (k', v) :: m' => if eqb k k' then Some v else map_get k m'
  end.

(** [map.set(k, v)]: an existing key keeps its place, a new key goes last. *)
Fixpoint map_set (k : K) (v : V) (m : JsMap) : JsMap :=
  match m with
  | [] => [(k, v)]
  | (k', v') :: m' => if eqb k k' then (k, v) :: m' else (k', v') :: map_set k v m'
  end.

(** [[...map.values()]] *)
Definition map_values (m : JsMap) : list V := map snd m.

(** [[...map.keys()]] *)
Definition map_keys (m : JsMap) : list K := map fst m.
End JsMap.

(** ** [Array.prototype.sort]

    The sort of the language is stable; with a comparison function [cmp]
    the element [x] stays before [y] when [cmp x y <= 0]. Insertion from the
    right end is such a sort. *)

Section Sort.
Variables (A : Type) (cmp : A -> A -> Z).

Fixpoint sort_insert (x : A) (l : list A) : list A :=
  match l with
  | [] => [x]
  | y :: l' => if (cmp x y <=? 0)%Z then x :: y :: l' else y :: sort_insert x l'
  end.

Definition sort (l : list A) : list A := fold_right sort_insert [] l.
End Sort.

(** [array.entries()]: the elements with their indices. *)
Fixpoint entries_from {A : Type} (i : nat) (l : list A) : list (nat * A) :=
  match l with
  | [] => []
  | x :: l' => (i, x) :: entries_from (S i) l'
  end.

Definition entries {A : Type} (l : list A) : list (nat * A) := entries_from 0 l.

(** ** The host *)

Class Host : Type := {
  (** [a.localeCompare(b)]: negative, zero or positive. *)
  localeCompare : string -> string -> Z;
  (** [dirname], [basename] and [relative] of the posix path library. *)
  posix_dirname : string -> string;
  posix_basename : string -> string;
  posix_relative : string -> string -> string
}.

(** ** [Name] and [Names]: the identifier table *)

Inductive NameUsage : Type := declaration | import.

Definition NameUsage_eqb (a b : NameUsage) : bool :=
  match a, b with
  | declaration, declaration => true
  | import, import => true
  | _, _ => false
  end.

(** The usage inside a template literal. *)
Definition usage_text (u : NameUsage) : string :=
  match u with declaration => "declaration" | import => "import" end.

(** A [Name] object. [nid] is the object's identity: the number of [Name]
    objects created before it in its table. *)
Record Name : Type := {
  nid : nat;
  declared : string;
  usage : NameUsage;
  resolved : option string
}.

(** [Name.usages] *)
Definition Name_usages (u : NameUsage) : Z :=
  match u with declaration => 0%Z | import => 1%Z end.

Definition Name_weight (n : Name) : Z := Name_usages (usage n).

Definition Name_isConflict (n : Name) (u : NameUsage) : bool :=
  NameUsage_eqb (usage n) declaration && NameUsage_eqb u declaration.

(** [name.resolve(as)]: [as ?? this.declared] *)
Definition Name_resolve (as_ : option string) (n : Name) : Name :=
  {| nid := nid n; declared := declared n; usage := usage n;
     resolved := Some (match as_ with Some s => s | None => declared n end) |}.

Definition Name_token (n : Name) : result string :=
  match resolved n with
  | None => Err ("Name " ++ declared n ++ " not yet resolved")
  | Some s => Ok s
  end.

Record Names : Type := { bound : JsMap string (list Name) }.

Definition Names_new : Names := {| bound := [] |}.

(** The number of [Name] objects of the table: the identity of the next. *)
Definition Names_count (ns : Names) : nat :=
  fold_right (fun g acc => length (snd g) + acc) 0 (bound ns).

(** [names.token(name)]: the group of a raw name, created empty when new. *)
Definition Names_token (name : string) (ns : Names) : Names * list Name :=
  match map_get String.eqb name (bound ns) with
  | Some names => (ns, names)
  | None => ({| bound := map_set String.eqb name [] (bound ns) |}, [])
  end.

Definition Names_add (token : string) (u : NameUsage) (ns : Names) : result (Names * Name) :=
  let '(ns1, names) := Names_token token ns in
  if existsb (fun name => Name_isConflict name u) names
  then Err ("Duplicate " ++ usage_text u ++ " of " ++ token)
  else
    let name := {| nid := Names_count ns; declared := token; usage := u; resolved := None |} in
    Ok ({| bound := map_set String.eqb token (names ++ [name])%list (bound ns1) |}, name).

(** [names.getDeclared(token)]; the message interpolates the missing
    [name], which is [undefined]. *)
Definition Names_getDeclared (token : string) (ns : Names) : result Name :=
  let names := map_get String.eqb token (bound ns) in
  let name :=
    match names with
    | Some l => find (fun name => NameUsage_eqb (usage name) declaration) l
    | None => None
    end in
  match name with
  | None => Err "name undefined not declared in module"
  | Some n => Ok n
  end.

(** The spelling that [resolve] gives to the [i]-th name of a group. *)
Definition spelling (identifier : string) (i : nat) : option string :=
  match i with
  | 0 => None
  | 1 => Some (identifier ++ "_")
  | _ => Some (identifier ++ "_" ++ Js.of_nat i)
  end.

Definition resolve_group (identifier : string) (names : list Name) : list Name :=
  map (fun '(i, name) => Name_resolve (spelling identifier i) name)
      (entries (sort (fun a b => (Name_weight a - Name_weight b)%Z) names)).

Definition Names_resolve (ns : Names) : Names :=
  {| bound := map (fun '(identifier, names) => (identifier, resolve_group identifier names))
                  (bound ns) |}.

(** The [Name] object with identity [i]. *)
Definition Names_deref (i : nat) (ns : Names) : option Name :=
  find (fun name => (nid name =? i)%nat) (concat (map_values (bound ns))).

(** ** The schema model *)

Record APIGroupIdentifier : Type := {
  group_name : option string;
  group_module : option string
}.

Record APIDependency : Type := {
  dep_package : string;
  dep_version : string
}.

Record ReferenceScope : Type := {
  scope_group : APIGroupIdentifier;
  scope_version : string;
  scope_package : option string
}.

(** A [TypeReference], by its [target]. *)
Record TypeReference : Type := {
  target_scope : option ReferenceScope;
  target_name : string
}.

(** [DefinitionMeta] *)
Record DefinitionMeta : Type := {
  description : option string;
  deprecated : bool
}.

Record Property_ (T : Type) : Type := {
  prop_name : string;
  required : bool;
  prop_value : T;
  prop_meta : DefinitionMeta
}.

(** The closed union [Type], by its tag. *)
Inductive Type_ : Type :=
| TString (enum : option (list string))
| TInteger
| TFloat
| TBoolean
| TArray (values : Type_)
| TMap (values : Type_)
| TObject (properties : list (Property_ Type_)) (inherit : option (list TypeReference))
| TUnion (values : list Type_)
| TOptional (value : Type_)
| TReference (ref : TypeReference)
| TUnknown
| TResource (properties : list (Property_ Type_)) (scope : string).

Definition Property : Type := Property_ Type_.

Record Definition_ : Type := {
  def_name : string;
  def_value : Type_;
  def_meta : DefinitionMeta
}.

Record APIGroupVersion : Type := {
  schema_group : APIGroupIdentifier;
  schema_version : string;
  schema_dependencies : list APIDependency;
  definitions : list Definition_
}.

Inductive Engine : Type := deno | node.

(** ** [Import] and [Imports]: the import table *)

Inductive ImportSource : Type :=
| SrcApi (name : string) (path : option string)
| SrcLib (name : string) (path : option string)
| SrcLocal (path : string).

Definition ModuleURN : Type := string.

(** [ImportOptions]: both fields may be absent. *)
Record ImportOptions : Type := {
  opt_as : option string;
  opt_type : option bool
}.

(** An [Import] object; [name_] is the identity of its [Name]. *)
Record Import : Type := {
  member : string;
  as_ : option string;
  type_ : bool;
  name_ : option nat
}.

Definition option_list {A : Type} (o : option A) : list A :=
  match o with Some a => [a] | None => [] end.

(** [Import.urn(source)] *)
Definition Import_urn (source : ImportSource) : ModuleURN :=
  match source with
  | SrcApi name path => Js.join ":" ("kure" :: "api" :: name :: option_list path)
  | SrcLib name path => Js.join ":" ("kure" :: "lib" :: name :: option_list path)
  | SrcLocal path => "/" ++ path
  end.

(** [new Import(member, options)]: [options?.as || undefined] and
    [options?.type ?? false]. *)
Definition Import_new (member : string) (options : option ImportOptions) : Import :=
  {| member := member;
     as_ := match options with
            | Some o => if Js.otruthy (opt_as o) then opt_as o else None
            | None => None
            end;
     type_ := match options with
              | Some o => match opt_type o with Some b => b | None => false end
              | None => false
              end;
     name_ := None |}.

(** The two assignments of [Imports.use] on a member that exists, for
    options that are not [null]. *)
Definition Import_merge (m : Import) (o : ImportOptions) : Import :=
  let falsy_type := match opt_type o with Some b => negb b | None => true end in
  let m1 :=
    if type_ m && falsy_type
    then {| member := member m; as_ := as_ m; type_ := false; name_ := name_ m |}
    else m in
  if negb (Js.otruthy (as_ m1)) && Js.otruthy (opt_as o)
  then {| member := member m1; as_ := opt_as o; type_ := type_ m1; name_ := name_ m1 |}
  else m1.

Record ImportedModule : Type := {
  src : ImportSource;
  members : JsMap string Import
}.

Record Imports : Type := { modules : JsMap ModuleURN ImportedModule }.

Definition Imports_new : Imports := {| modules := [] |}.

(** [imports.module(src)] *)
Definition Imports_module (source : ImportSource) (imps : Imports) : Imports * ImportedModule :=
  let urn := Import_urn source in
  match map_get String.eqb urn (modules imps) with
  | Some mod_ => (imps, mod_)
  | None =>
      let mod_ := {| src := source; members := [] |} in
      ({| modules := map_set String.eqb urn mod_ (modules imps) |}, mod_)
  end.

(** A reference to an [Import] object: the key of its module and its
    member name. *)
Definition ImportRef : Type := (ModuleURN * string)%type.

Definition Imports_use (source : ImportSource) (name : string)
    (options : option ImportOptions) (imps : Imports) : Imports * ImportRef :=
  let urn := Import_urn source in
  let '(imps1, mod_) := Imports_module source imps in
  let member' :=
    match map_get String.eqb name (members mod_) with
    | None => Import_new name options
    | Some m =>
        match options with
        | Some o => Import_merge m o
        | None => m
        end
    end in
  let mod' := {| src := src mod_; members := map_set String.eqb name member' (members mod_) |} in
  ({| modules := map_set String.eqb urn mod' (modules imps1) |}, (urn, name)).

(** The [Import] object behind a reference. *)
Definition Imports_deref (r : ImportRef) (imps : Imports) : option Import :=
  match map_get String.eqb (fst r) (modules imps) with
  | Some mod_ => map_get String.eqb (snd r) (members mod_)
  | None => None
  end.

(** [imp.apply(module)]: [this.as ?? this.member] is registered as an
    import. *)
Definition Import_apply (imp : Import) (ns : Names) : result (Names * Import) :=
  '(ns', n) <- Names_add (match as_ imp with Some a => a | None => member imp end) import ns ;;
  Ok (ns', {| member := member imp; as_ := as_ imp; type_ := type_ imp; name_ := Some (nid n) |}).

Fixpoint apply_members (ms : JsMap string Import) (ns : Names)
    : result (Names * JsMap string Import) :=
  match ms with
  | [] => Ok (ns, [])
  | (k, imp) :: ms' =>
      '(ns1, imp') <- Import_apply imp ns ;;
      '(ns2, ms'') <- apply_members ms' ns1 ;;
      Ok (ns2, (k, imp') :: ms'')
  end.

Fixpoint apply_modules (mods : JsMap ModuleURN ImportedModule) (ns : Names)
    : result (Names * JsMap ModuleURN ImportedModule) :=
  match mods with
  | [] => Ok (ns, [])
  | (urn, imported) :: mods' =>
      '(ns1, ms) <- apply_members (members imported) ns ;;
      '(ns2, mods'') <- apply_modules mods' ns1 ;;
      Ok (ns2, (urn, {| src := src imported; members := ms |}) :: mods'')
  end.

(** [imports.apply(module)], on the two tables of the module. *)
Definition Imports_apply (imps : Imports) (ns : Names) : result (Names * Imports) :=
  '(ns', mods) <- apply_modules (modules imps) ns ;;
  Ok (ns', {| modules := mods |}).

(** [imp.token()] *)
Definition Import_token (imp : Import) (ns : Names) : result string :=
  match name_ imp with
  | None => Err ("import of " ++ member imp ++ " not yet named")
  | Some i =>
      match Names_deref i ns with
      | Some n => Name_token n
      | None => Err "unreachable"
      end
  end.

(** [imp.render(inTypeImport)] *)
Definition Import_render (inTypeImport : bool) (imp : Import) (ns : Names) : result string :=
  if inTypeImport && negb (type_ imp)
  then Err ("cannot import value " ++ member imp ++ " via `import type`")
  else
    name <- Import_token imp ns ;;
    let aliased := negb (String.eqb name (member imp)) in
    let type := type_ imp && negb inTypeImport in
    Ok ((if type then "type " else "")
        ++ (if aliased then member imp ++ " as " ++ name else name)).

(** ** [Module] and [Context] *)

(** The state of a [Module]; its member list is kept beside it
    ([ModuleObj]). *)
Record Module : Type := {
  path : string;
  names : Names;
  imports : Imports
}.

Record Context : Type := {
  group : APIGroupIdentifier;
  version : string;
  dependencies : JsMap string APIDependency;
  module : Module;
  engine : Engine
}.

(** [ctx.module], for the places where a parameter is called [module]. *)
Definition module_of (ctx : Context) : Module := module ctx.

(** [new Context(schema, module, engine)] *)
Definition Context_new (schema : APIGroupVersion) (m : Module) (e : Engine) : Context :=
  {| group := schema_group schema;
     version := schema_version schema;
     dependencies :=
       fold_left (fun acc dep => map_set String.eqb (dep_package dep) dep acc)
                 (schema_dependencies schema) [];
     module := m;
     engine := e |}.

(** [ctx.apiVersion] *)
Definition Context_apiVersion (ctx : Context) : string :=
  match group_name (group ctx) with
  | Some n => if Js.truthy n then n ++ "/" ++ version ctx else version ctx
  | None => version ctx
  end.

(** A [Binding] reads the module when it is called. *)
Definition Binding : Type := Module -> result string.

(** The second stage of a generator, [(ctx) => string]. *)
Definition Renderer : Type := Context -> result string.

(** A generator, [(module) => (ctx) => string]: the first stage updates the
    module. *)
Definition Generator : Type := Module -> result (Module * Renderer).

Record ModuleObj : Type := {
  state : Module;
  generators : list Generator
}.

Definition Module_new (path : string) : ModuleObj :=
  {| state := {| path := path; names := Names_new; imports := Imports_new |};
     generators := [] |}.

Definition Module_add (member : Generator) (mo : ModuleObj) : ModuleObj :=
  {| state := state mo; generators := (generators mo ++ [member])%list |}.

(** [name.binding] *)
Definition Name_binding (i : nat) : Binding :=
  fun m =>
    match Names_deref i (names m) with
    | Some n => Name_token n
    | None => Err "unreachable"
    end.

(** [imp.binding] *)
Definition Import_binding (r : ImportRef) : Binding :=
  fun m =>
    match Imports_deref r (imports m) with
    | Some imp => Import_token imp (names m)
    | None => Err "unreachable"
    end.

(** [module.name(name, usage)] *)
Definition Module_name (name : string) (u : NameUsage) (m : Module) : result (Module * Binding) :=
  '(ns, n) <- Names_add name u (names m) ;;
  Ok ({| path := path m; names := ns; imports := imports m |}, Name_binding (nid n)).

(** [module.get(name)] *)
Definition Module_get (name : string) : Binding :=
  fun m => n <- Names_getDeclared name (names m) ;; Name_token n.

(** [module.import(src, name, options)] *)
Definition Module_import (source : ImportSource) (name : string)
    (options : option ImportOptions) (m : Module) : Module * Binding :=
  let '(imps, r) := Imports_use source name options (imports m) in
  ({| path := path m; names := names m; imports := imps |}, Import_binding r).

(** The first stage of each generator of a list, in order. *)
Fixpoint apply_each (gs : list Generator) (m : Module) : result (Module * list Renderer) :=
  match gs with
  | [] => Ok (m, [])
  | g :: gs' =>
      '(m1, r) <- g m ;;
      '(m2, rs) <- apply_each gs' m1 ;;
      Ok (m2, r :: rs)
  end.

(** The second stage of each, in order. *)
Definition render_each (rs : list Renderer) (ctx : Context) : result (list string) :=
  mapM (fun r => r ctx) rs.

(** ** Paths and the import block *)

Section Rendering.
Context {host : Host}.

(** [imports.path(src, ctx)] *)
Definition Imports_path (source : ImportSource) (ctx : Context) : string :=
  let local := "/src/" ++ posix_dirname (path (module ctx)) in
  match source with
  | SrcLocal p =>
      let dest := "/src/" ++ p in
      let dir :=
        let d := posix_relative local (posix_dirname dest) in
        if Js.truthy d then d else "." in
      let dir := if Js.startsWithDot dir then dir else "./" ++ dir in
      dir ++ "/" ++ posix_basename dest
  | SrcApi pkg p | SrcLib pkg p =>
      let type := match source with SrcApi _ _ => "api" | _ => "lib" end in
      match engine ctx with
      | deno =>
          let version :=
            match source with
            | SrcApi _ _ =>
                match map_get String.eqb pkg (dependencies ctx) with
                | Some dep => Some (dep_version dep)
                | None => None
                end
            | _ => Some "0.1"
            end in
          let pkg := if String.eqb pkg "kubernetes" && Js.otruthy version then "" else pkg in
          let target :=
            pkg ++ (match version with
                    | Some v => if Js.truthy v then "@" ++ v else ""
                    | None => ""
                    end) in
          "https://kure.sh/" ++ type ++ "/" ++ target ++ "/"
            ++ (if Js.otruthy p then match p with Some p' => p' | None => "" end else "mod.ts")
      | node =>
          "@kure-" ++ type ++ "/" ++ Js.replaceAll "/" "-" pkg
            ++ (if Js.otruthy p then "/" ++ match p with Some p' => p' | None => "" end else "")
      end
  end.

(** [paths.get(urn)!]: every key asked for was set by the loop before. *)
Definition paths_get (paths : JsMap ModuleURN string) (urn : ModuleURN) : string :=
  match map_get String.eqb urn paths with Some p => p | None => "" end.

Definition is_local (source : ImportSource) : bool :=
  match source with SrcLocal _ => true | _ => false end.

(** The import statement of one source. *)
Definition renderImport (ctx : Context) (imps : Imports) (paths : JsMap ModuleURN string)
    (urn : ModuleURN) : result string :=
  let path := paths_get paths urn in
  let imports :=
    sort (fun a b => localeCompare (member a) (member b))
         (match map_get String.eqb urn (modules imps) with
          | Some mod_ => map_values (members mod_)
          | None => []
          end) in
  statement <-
    (if forallb type_ imports
     then
       ms <- mapM (fun i => Import_render true i (names (module ctx))) imports ;;
       Ok ("import type { " ++ Js.join ", " ms ++ " }")
     else
       ms <- mapM (fun i => Import_render false i (names (module ctx))) imports ;;
       Ok ("import { " ++ Js.join ", " ms ++ " }")) ;;
  Ok (statement ++ " from " ++ Js.JSON_stringify path ++ ";").

Definition renderGroup (ctx : Context) (imps : Imports) (paths : JsMap ModuleURN string)
    (urns : list ModuleURN) : result string :=
  ss <- mapM (renderImport ctx imps paths) urns ;;
  Ok (Js.join Js.nl ss).

Definition nonempty {A : Type} (l : list A) : bool :=
  match l with [] => false | _ => true end.

(** [imports.render(ctx)] *)
Definition Imports_render (ctx : Context) (imps : Imports) : result string :=
  let paths :=
    fold_left (fun acc '(urn, mod_) => map_set String.eqb urn (Imports_path (src mod_) ctx) acc)
              (modules imps) [] in
  let remote := map fst (filter (fun '(_, mod_) => negb (is_local (src mod_))) (modules imps)) in
  let local := map fst (filter (fun '(_, mod_) => is_local (src mod_)) (modules imps)) in
  let groups :=
    map (sort (fun a b => localeCompare (paths_get paths a) (paths_get paths b)))
        (filter nonempty [remote; local]) in
  gs <- mapM (renderGroup ctx imps paths) groups ;;
  Ok (Js.join (Js.nl ++ Js.nl) gs).

(** ** [module.render(ctx)] *)

(** [ctx] holds the module itself; [ctx_of] builds it from the state the
    module has when the render pass starts. *)
Definition Module_render (ctx_of : Module -> Context) (mo : ModuleObj) : result string :=
  '(m1, renderers) <- apply_each (generators mo) (state mo) ;;
  '(ns, imps) <- Imports_apply (imports m1) (names m1) ;;
  let m := {| path := path m1; names := Names_resolve ns; imports := imps |} in
  let ctx := ctx_of m in
  first <- Imports_render ctx (imports m) ;;
  rest <- render_each renderers ctx ;;
  Ok (Js.join (Js.nl ++ Js.nl) (filter Js.truthy (first :: rest))).

End Rendering.

(** ** The type compiler ([mod.ts]) *)

(** [lit(value)] *)
Definition lit (value : string) : string := Js.JSON_stringify value.

(** [doc(meta, indent)] *)
Definition doc (meta : DefinitionMeta) (indent : nat) : string :=
  let lines :=
    match description meta with
    | Some d => if Js.truthy d then Js.split "010"%char (Js.trimEnd d) else []
    | None => []
    end in
  let lines := if deprecated meta then (lines ++ ["@deprecated"])%list else lines in
  if negb (nonempty lines) then ""
  else
    let prefix := Js.repeat "  " indent in
    prefix ++ "/**" ++ Js.nl
      ++ Js.join "" (map (fun line => prefix ++ " * " ++ Js.replaceAll "*/" "*\/" line ++ Js.nl) lines)
      ++ prefix ++ " */" ++ Js.nl.

Definition type_true : option ImportOptions :=
  Some {| opt_as := None; opt_type := Some true |}.

Definition gen_reference (ref : TypeReference) : Generator :=
  let name := target_name ref in
  match target_scope ref with
  | None =>
      fun module => Ok (module, fun ctx => Module_get name (module_of ctx))
  | Some scope =>
      let path :=
        (match group_module (scope_group scope) with
         | Some g => if Js.truthy g then g ++ "/" else ""
         | None => ""
         end) ++ scope_version scope ++ ".ts" in
      let source :=
        match scope_package scope with
        | Some p => if Js.truthy p then SrcApi p (Some path) else SrcLocal path
        | None => SrcLocal path
        end in
      fun module =>
        let '(module', b) := Module_import source name type_true module in
        Ok (module', fun ctx => b (module_of ctx))
  end.

Definition gen_string (enum : option (list string)) : Generator :=
  fun module =>
    Ok (module, fun _ =>
      Ok (match enum with
          | Some values => Js.join " | " (map Js.JSON_stringify values)
          | None => "string"
          end)).

Definition gen_number : Generator := fun module => Ok (module, fun _ => Ok "number").
Definition gen_boolean : Generator := fun module => Ok (module, fun _ => Ok "boolean").
Definition gen_unknown : Generator := fun module => Ok (module, fun _ => Ok "unknown").

(** The generators that compile a component type, with the recursive call
    [gen_type] abstracted. *)
Module GenRec.
Section Rec.
Variable gen_type : Type_ -> bool -> result Generator.

Definition gen_array (values : Type_) : result Generator :=
  valueType <- gen_type values false ;;
  Ok (fun module =>
    '(module', value) <- valueType module ;;
    Ok (module', fun ctx => v <- value ctx ;; Ok ("Array<" ++ v ++ ">"))).

Definition gen_map (values : Type_) : result Generator :=
  valueType <- gen_type values false ;;
  Ok (fun module =>
    '(module', value) <- valueType module ;;
    Ok (module', fun ctx => v <- value ctx ;; Ok ("Record<string, " ++ v ++ ">"))).

Definition gen_union (values : list Type_) : result Generator :=
  valueTypes <- mapM (fun value => gen_type value false) values ;;
  Ok (fun module =>
    '(module', values') <- apply_each valueTypes module ;;
    Ok (module', fun ctx => vs <- render_each values' ctx ;; Ok (Js.join " | " vs))).

Definition gen_optional (value : Type_) : result Generator :=
  valueType <- gen_type value false ;;
  Ok (fun module =>
    '(module', value') <- valueType module ;;
    Ok (module', fun ctx => v <- value' ctx ;; Ok (v ++ " | null"))).

Definition gen_property (property : Property) : result Generator :=
  let name :=
    if Js.is_identifier (prop_name property)
    then prop_name property
    else Js.JSON_stringify (prop_name property) in
  let optional := if required property then "" else "?" in
  valueType <- gen_type (prop_value property) false ;;
  Ok (fun module =>
    '(module', value) <- valueType module ;;
    Ok (module', fun ctx =>
      let d := doc (prop_meta property) 1 in
      v <- value ctx ;;
      Ok (d ++ "  " ++ name ++ optional ++ ": " ++ v ++ ";"))).

Definition gen_object (properties : list Property) (inherit : option (list TypeReference))
    (declaration : bool) : result Generator :=
  let parentDefs :=
    match inherit with
    | Some refs => if nonempty refs && negb declaration then map gen_reference refs else []
    | None => []
    end in
  propertyDefs <- mapM gen_property properties ;;
  Ok (fun module =>
    '(module1, parents) <- apply_each parentDefs module ;;
    '(module2, properties') <- apply_each propertyDefs module1 ;;
    Ok (module2, fun ctx =>
      ps <- render_each parents ctx ;;
      qs <- render_each properties' ctx ;;
      Ok (Js.join " & " ps ++ "{" ++ Js.nl ++ Js.join Js.nl qs ++ Js.nl ++ "}"))).
End Rec.
End GenRec.

(** [gen.type(type, declaration)] *)
Fixpoint gen_type (type : Type_) (declaration : bool) {struct type} : result Generator :=
  match type with
  | TString enum => Ok (gen_string enum)
  | TInteger | TFloat => Ok gen_number
  | TBoolean => Ok gen_boolean
  | TArray values => GenRec.gen_array gen_type values
  | TMap values => GenRec.gen_map gen_type values
  | TObject properties inherit => GenRec.gen_object gen_type properties inherit declaration
  | TUnion values => GenRec.gen_union gen_type values
  | TOptional value => GenRec.gen_optional gen_type value
  | TReference ref => Ok (gen_reference ref)
  | TUnknown => Ok gen_unknown
  | TResource _ _ =>
      Err (String Js.dquote ("resource" ++ String Js.dquote " type not allowed in gen.type()"))
  end.

Definition gen_array := GenRec.gen_array gen_type.
Definition gen_map := GenRec.gen_map gen_type.
Definition gen_union := GenRec.gen_union gen_type.
Definition gen_optional := GenRec.gen_optional gen_type.
Definition gen_property := GenRec.gen_property gen_type.
Definition gen_object := GenRec.gen_object gen_type.

Definition is_reference (t : Type_) : bool :=
  match t with TReference _ => true | _ => false end.

Definition is_resource (t : Type_) : bool :=
  match t with TResource _ _ => true | _ => false end.

(** [array.filter(p => p !== x)] for the element [x] that [find] returned:
    the first element that satisfies the test of the [find] is dropped. *)
Fixpoint drop_found {A : Type} (f : A -> bool) (l : list A) : list A :=
  match l with
  | [] => []
  | x :: l' => if f x then l' else x :: drop_found f l'
  end.

Definition named_metadata (p : Property) : bool := String.eqb (prop_name p) "metadata".

Definition lib_schema : ImportSource := SrcLib "schema" None.

(** [gen.resource(definition)], for a definition whose value is the
    resource type with these properties and this [metadata.scope]. *)
Definition gen_resource (definition : Definition_) (properties : list Property)
    (scope : string) : result Generator :=
  let name := def_name definition in
  match find named_metadata properties with
  | Some (Build_Property_ _ _ (TReference _) _) =>
      objectType <- gen_object (drop_found named_metadata properties) None false ;;
      Ok (fun module =>
        let '(module1, factoryBase) := Module_import lib_schema "factory" None module in
        let '(module2, listBase) := Module_import lib_schema "ResourceList" type_true module1 in
        let apiVersion := Module_get "apiVersion" in
        let apiResource := Module_get "Resource" in
        '(module3, name) <- Module_name (def_name definition) declaration module2 ;;
        '(module4, listName) <- Module_name (def_name definition ++ "List") declaration module3 ;;
        '(module5, object) <- objectType module4 ;;
        Ok (module5, fun ctx =>
          let m := module_of ctx in
          let kind : result string :=
            n1 <- name m ;;
            let typeParams :=
              Js.join ", " (lit n1 :: (if String.eqb scope "namespace" then [] else [lit scope])) in
            let d := doc (def_meta definition) 0 in
            n2 <- name m ;;
            r <- apiResource m ;;
            o <- object ctx ;;
            Ok (d ++ "export interface " ++ n2 ++ " extends " ++ r ++ "<" ++ typeParams ++ "> " ++ o) in
          let factory : result string :=
            a <- apiVersion m ;;
            n1 <- name m ;;
            let args := Js.join ", " [a; lit n1; lit scope] in
            n2 <- name m ;;
            f <- factoryBase m ;;
            n3 <- name m ;;
            Ok ("export const " ++ n2 ++ " = " ++ f ++ "<" ++ n3 ++ ">(" ++ args ++ ");") in
          let list : result string :=
            l <- listName m ;;
            b <- listBase m ;;
            n <- name m ;;
            Ok ("export type " ++ l ++ " = " ++ b ++ "<" ++ n ++ ">;") in
          k <- kind ;;
          f <- factory ;;
          l <- list ;;
          Ok (Js.join (Js.nl ++ Js.nl) [k; f; l])))
  | _ => Err (name ++ ": expected metadata reference property")
  end.

(** [gen.interface(definition)], for a definition whose value is the object
    type with these properties and parents. *)
Definition gen_interface (definition : Definition_) (properties : list Property)
    (inherit : option (list TypeReference)) : result Generator :=
  objectType <- gen_type (TObject properties inherit) true ;;
  let parentDefs :=
    match inherit with
    | Some refs => if nonempty refs then map gen_reference refs else []
    | None => []
    end in
  Ok (fun module =>
    '(module1, name) <- Module_name (def_name definition) declaration module ;;
    '(module2, object) <- objectType module1 ;;
    '(module3, parents) <- apply_each parentDefs module2 ;;
    Ok (module3, fun ctx =>
      extend <-
        (if nonempty parents
         then ps <- render_each parents ctx ;; Ok (" extends " ++ Js.join ", " ps)
         else Ok "") ;;
      let d := doc (def_meta definition) 0 in
      n <- name (module_of ctx) ;;
      o <- object ctx ;;
      Ok (d ++ "export interface " ++ n ++ extend ++ " " ++ o))).

(** [gen.definition(definition)] *)
Definition gen_definition (definition : Definition_) : result Generator :=
  match def_value definition with
  | TResource properties scope => gen_resource definition properties scope
  | TObject properties inherit => gen_interface definition properties inherit
  | TReference ref =>
      let refType := gen_reference ref in
      Ok (fun module =>
        '(module1, name) <-
          (if negb (String.eqb (def_name definition) (target_name ref))
           then '(m, b) <- Module_name (def_name definition) declaration module ;; Ok (m, Some b)
           else Ok (module, None)) ;;
        '(module2, ref') <- refType module1 ;;
        Ok (module2, fun ctx =>
          as_text <-
            (match name with
             | Some b => n <- b (module_of ctx) ;; Ok (" as " ++ n)
             | None => Ok ""
             end) ;;
          let d := doc (def_meta definition) 0 in
          r <- ref' ctx ;;
          Ok (d ++ "export type { " ++ r ++ as_text ++ " };")))
  | value =>
      valueType <- gen_type value true ;;
      Ok (fun module =>
        '(module1, name) <- Module_name (def_name definition) declaration module ;;
        '(module2, value') <- valueType module1 ;;
        Ok (module2, fun ctx =>
          let d := doc (def_meta definition) 0 in
          n <- name (module_of ctx) ;;
          v <- value' ctx ;;
          Ok (d ++ "export type " ++ n ++ " = " ++ v ++ ";")))
  end.

(** The generator [apiVersion] *)
Definition apiVersion : Generator :=
  fun module =>
    '(module1, type) <- Module_name "APIVersion" declaration module ;;
    '(module2, value) <- Module_name "apiVersion" declaration module1 ;;
    Ok (module2, fun ctx =>
      let m := module_of ctx in
      t1 <- type m ;;
      v <- value m ;;
      t2 <- type m ;;
      Ok ("export type " ++ t1 ++ " = " ++ lit (Context_apiVersion ctx) ++ ";" ++ Js.nl
          ++ "export const " ++ v ++ ": " ++ t2 ++ " = " ++ lit (Context_apiVersion ctx) ++ ";")).

Definition metadata_reference (p : Property) : bool :=
  String.eqb (prop_name p) "metadata" && is_reference (prop_value p).

(** [resourceBase(definitions)] *)
Definition resourceBase (definitions : list Definition_) : result (option Generator) :=
  match find (fun d => is_resource (def_value d)) definitions with
  | None => Ok None
  | Some resourceDef =>
      let properties :=
        match def_value resourceDef with
        | TResource properties _ => properties
        | _ => []
        end in
      match find metadata_reference properties with
      | Some (Build_Property_ _ _ (TReference ref) _) =>
          let refType := gen_reference ref in
          Ok (Some (fun module =>
            let apiVersion := Module_get "APIVersion" in
            '(module1, resource) <- Module_name "Resource" declaration module ;;
            let '(module2, base) := Module_import lib_schema "Resource" type_true module1 in
            let '(module3, scope) := Module_import lib_schema "NameScope" type_true module2 in
            '(module4, metadata) <- refType module3 ;;
            Ok (module4, fun ctx =>
              let m := module_of ctx in
              let api := "`" ++ Context_apiVersion ctx ++ "`" in
              let ns := lit "namespace" in
              b1 <- base m ;;
              r <- resource m ;;
              s <- scope m ;;
              b2 <- base m ;;
              a <- apiVersion m ;;
              md <- metadata ctx ;;
              Ok ("/** A {@link " ++ b1 ++ " resource} in the " ++ api ++ " API. */" ++ Js.nl
                  ++ "export type " ++ r ++ "<K extends string, S extends " ++ s ++ " = " ++ ns ++ ">"
                  ++ " = " ++ b2 ++ "<" ++ a ++ ", K, S, " ++ md ++ ">;"))))
      | _ => Err ("Resource " ++ def_name resourceDef ++ " has no metadata field")
      end
  end.

Section Emit.
Context {host : Host}.

(** [emitVersion(schema, engine)] *)
Definition emitVersion (schema : APIGroupVersion) (engine : Engine) : result string :=
  let module :=
    Module_new
      ((match group_module (schema_group schema) with
        | Some g => if Js.truthy g then g ++ "/" else ""
        | None => ""
        end) ++ schema_version schema ++ ".ts") in
  let module := Module_add apiVersion module in
  resource <- resourceBase (definitions schema) ;;
  let module :=
    match resource with
    | Some r => Module_add r module
    | None => module
    end in
  gens <- mapM gen_definition (definitions schema) ;;
  let module := fold_left (fun mo g => Module_add g mo) gens module in
  Module_render (fun m => Context_new schema m engine) module.
End Emit.

(** * The vocabulary of the properties *)

Unset Implicit Arguments.

(** The order the comparison function stands for. *)
Definition cmp_le {A : Type} (cmp : A -> A -> Z) (x y : A) : Prop := (cmp x y <= 0)%Z.

(** A registration: a raw name and its usage. *)
Definition Registration : Type := (string * NameUsage)%type.

(** The registrations of a log, in order, on a table. *)
Fixpoint Names_register (log : list Registration) (ns : Names) : result Names :=
  match log with
  | [] => Ok ns
  | (token, u) :: log' => '(ns', _) <- Names_add token u ns ;; Names_register log' ns'
  end.

(** The [Name] object that the [i]-th registration creates. *)
Definition fresh_name (e : nat * Registration) : Name :=
  {| nid := fst e; declared := fst (snd e); usage := snd (snd e); resolved := None |}.

Definition registered (log : list Registration) : list Name := map fresh_name (entries log).

Definition in_group (token : string) (n : Name) : bool := String.eqb (declared n) token.

Definition group_of (token : string) (log : list Registration) : list Name :=
  filter (in_group token) (registered log).

Definition Names_group (token : string) (ns : Names) : list Name :=
  match map_get String.eqb token (bound ns) with Some g => g | None => [] end.

Definition is_declaration (n : Name) : bool := NameUsage_eqb (usage n) declaration.

Definition is_import (n : Name) : bool := NameUsage_eqb (usage n) import.

(** What a table holds after the registrations of [log]. *)
Record Names_inv (log : list Registration) (ns : Names) : Prop := {
  inv_keys : NoDup (map_keys (bound ns));
  inv_group : forall token, Names_group token ns = group_of token log;
  inv_count : Names_count ns = length log;
  inv_declared : forall token, length (filter is_declaration (group_of token log)) <= 1
}.

Definition by_weight (a b : Name) : Z := (Name_weight a - Name_weight b)%Z.

(** The text of the [i]-th name of the group of [identifier]. *)
Definition spelled (identifier : string) (i : nat) : string :=
  match i with
  | 0 => identifier
  | 1 => identifier ++ "_"
  | _ => identifier ++ "_" ++ Js.of_nat i
  end.

(** The number of registrations of a raw name with a usage. *)
Definition count_reg (token : string) (u : NameUsage) (log : list Registration) : nat :=
  length (filter (fun r => String.eqb (fst r) token && NameUsage_eqb (snd r) u) log).

(** The index that the [k]-th registration, of [token] with usage [u], has
    in its group after the sort: a declaration is first; an import follows
    the declaration, if any, and the imports of [token] registered before
    it. *)
Definition rank (log : list Registration) (k : nat) (token : string) (u : NameUsage) : nat :=
  match u with
  | declaration => 0
  | import => count_reg token declaration log + count_reg token import (firstn k log)
  end.

(** The state of a module that holds this identifier table. *)
Definition module_with_names (ns : Names) : Module :=
  {| path := ""; names := ns; imports := Imports_new |}.

(** [this.as ?? this.member]: the raw name an import registers. *)
Definition raw_name (imp : Import) : string :=
  match as_ imp with Some a => a | None => member imp end.

Definition with_name (i : nat) (imp : Import) : Import :=
  {| member := member imp; as_ := as_ imp; type_ := type_ imp; name_ := Some i |}.

(** The imports of a table in the order [apply] visits them, each with the
    key of its module. *)
Definition all_imports (mods : JsMap ModuleURN ImportedModule) : list (ModuleURN * Import) :=
  flat_map (fun e => map (fun m => (fst e, snd m)) (members (snd e))) mods.

(** The table after [apply], when the first import gets the identity
    [base]. *)
Fixpoint name_members (base : nat) (ms : JsMap string Import) : JsMap string Import :=
  match ms with
  | [] => []
  | (k, imp) :: ms' => (k, with_name base imp) :: name_members (S base) ms'
  end.

Fixpoint name_modules (base : nat) (mods : JsMap ModuleURN ImportedModule)
    : JsMap ModuleURN ImportedModule :=
  match mods with
  | [] => []
  | (urn, imported) :: mods' =>
      (urn, {| src := src imported; members := name_members base (members imported) |})
        :: name_modules (base + length (members imported)) mods'
  end.

Definition import_log (l : list (ModuleURN * Import)) : list Registration :=
  map (fun e => (raw_name (snd e), import)) l.

(** A well-formed table: no key twice, and every member under its name. *)
Definition members_wf (ms : JsMap string Import) : Prop :=
  NoDup (map_keys ms) /\ Forall (fun e => fst e = member (snd e)) ms.

Definition Imports_wf (imps : Imports) : Prop :=
  NoDup (map_keys (modules imps))
  /\ Forall (fun e => members_wf (members (snd e))) (modules imps).

(** The second part of the apply pass and [resolve]: what [render] does to
    the module between the members' first stage and their second. *)
Definition finish_apply (m : Module) : result Module :=
  '(ns, imps) <- Imports_apply (imports m) (names m) ;;
  Ok {| path := path m; names := Names_resolve ns; imports := imps |}.

(** The module state after these calls of [module.import] on a new module,
    [imports.apply] and [resolve]. *)
Definition import_all (uses : list (ImportSource * string * option ImportOptions))
    : result Module :=
  finish_apply
    (fold_left (fun m '(source, name, options) => fst (Module_import source name options m))
               uses {| path := ""; names := Names_new; imports := Imports_new |}).

Definition sample_log : list Registration :=
  [("APIVersion", declaration); ("apiVersion", declaration)].

(** A module that declared [APIVersion] and [apiVersion] and imports
    [Thing] from two packages and [Other] from the first. *)
Definition sample_module : Module :=
  {| path := "v1.ts";
     names :=
       match Names_register sample_log Names_new with Ok ns => ns | Err _ => Names_new end;
     imports :=
       fst (Imports_use (SrcApi "b" None) "Thing" type_true
              (fst (Imports_use (SrcApi "a" None) "Thing" type_true
                      (fst (Imports_use (SrcApi "a" None) "Other" None Imports_new))))) |}.

(** Registrations in which the raw name [Foo] occurs four times. *)
Definition sample_registrations : list Registration :=
  [("Foo", import); ("Bar", declaration); ("Foo", declaration); ("Foo", import); ("Foo", import)].

Definition sample_names : Names :=
  Eval vm_compute in
    match Names_register sample_registrations Names_new with
    | Ok ns => ns
    | Err _ => Names_new
    end.

Definition context_with (deps : list APIDependency) (m : Module) (e : Engine) : Context :=
  Context_new {| schema_group := {| group_name := None; group_module := None |};
                 schema_version := "v1";
                 schema_dependencies := deps;
                 definitions := [] |} m e.

(** The three stages of a generator in a row: it is built, its first stage
    runs on the module [m], its second in the context [ctx]. *)
Definition run (g : result Generator) (m : Module) (ctx : Context) : result (Module * string) :=
  gen <- g ;;
  '(m', r) <- gen m ;;
  s <- r ctx ;;
  Ok (m', s).

(** The name of a member as [gen.property] writes it. *)
Definition member_name (name : string) : string :=
  if Js.is_identifier name then name else Js.JSON_stringify name.

Definition no_meta : DefinitionMeta := {| description := None; deprecated := false |}.

Definition empty_module : Module := state (Module_new "v1.ts").

(** The message of [gen.type] for a nested resource type. *)
Definition resource_not_allowed : string :=
  String Js.dquote ("resource" ++ String Js.dquote " type not allowed in gen.type()").

(** The first stage of a generator of a component type never throws and
    leaves the identifier table as it is. *)
Definition type_generator (g : Generator) : Prop :=
  forall m, exists m' r, g m = Ok (m', r) /\ names m' = names m.

(** What [gen.type] returns: a generator of a component type, or the error
    for a nested resource type. *)
Definition gen_type_result (t : Type_) : Prop :=
  forall declaration,
    match gen_type t declaration with
    | Ok g => type_generator g
    | Err msg => msg = resource_not_allowed
    end.

(** The errors of the first stage of all: building the generators. *)
Definition construction_error (msg : string) : Prop :=
  (exists name, msg = "Resource " ++ name ++ " has no metadata field")
  \/ (exists name, msg = name ++ ": expected metadata reference property")
  \/ msg = resource_not_allowed.

(** The table holds a declaration of the raw name [token]. *)
Definition declaredb (token : string) (ns : Names) : bool :=
  nonempty (filter is_declaration (Names_group token ns)).

Definition duplicate_declaration (token : string) : string :=
  "Duplicate declaration of " ++ token.

(** The declarations of [m] are declarations of [m']. *)
Definition keeps (m m' : Module) : Prop :=
  forall t, declaredb t (names m) = true -> declaredb t (names m') = true.

(** What the first stage of a member of the module does to the
    declarations: it keeps them, or it throws a duplicate declaration. *)
Definition first_stage (A : Type) (c : result (Module * A)) (m : Module) : Prop :=
  match c with
  | Ok (m', _) => keeps m m'
  | Err msg => exists token, msg = duplicate_declaration token
  end.

Definition def_generator (g : Generator) : Prop := forall m, first_stage _ (g m) m.

(** A member that throws once [token] is declared. *)
Definition blocked_by (token : string) (g : Generator) : Prop :=
  forall m, declaredb token (names m) = true ->
    exists t, g m = Err (duplicate_declaration t).

(** A definition registers its name, but for a reference definition with
    the name of its target. *)
Definition registers_name (d : Definition_) : bool :=
  match def_value d with
  | TReference ref => negb (String.eqb (def_name d) (target_name ref))
  | _ => true
  end.

(** A schema with an alias definition named [apiVersion]. *)
Definition colliding_schema : APIGroupVersion :=
  {| schema_group := {| group_name := Some "apps"; group_module := None |};
     schema_version := "v1";
     schema_dependencies := [];
     definitions :=
       [ {| def_name := "Color"; def_value := TString None; def_meta := no_meta |};
         {| def_name := "apiVersion"; def_value := TString None; def_meta := no_meta |} ] |}.

(** A schema that re-exports [APIVersion]: from the module itself, and
    from a module of another package. *)
Definition reexport_schema (scope : option ReferenceScope) : APIGroupVersion :=
  {| schema_group := {| group_name := None; group_module := None |};
     schema_version := "v1";
     schema_dependencies := [];
     definitions :=
       [ {| def_name := "APIVersion";
            def_value := TReference {| target_scope := scope; target_name := "APIVersion" |};
            def_meta := no_meta |} ] |}.

Definition other_package : ReferenceScope :=
  {| scope_group := {| group_name := Some "core"; group_module := Some "core" |};
     scope_version := "v1";
     scope_package := Some "kubernetes" |}.

(** The order of strings by code units. *)
Fixpoint code_unit_compare (a b : string) : Z :=
  match a, b with
  | "", "" => 0
  | "", String _ _ => -1
  | String _ _, "" => 1
  | String x a', String y b' =>
      match Nat.compare (nat_of_ascii x) (nat_of_ascii y) with
      | Lt => -1
      | Gt => 1
      | Eq => code_unit_compare a' b'
      end
  end%Z.

(** A path at its last slash. *)
Fixpoint split_last_slash (s : string) : option (string * string) :=
  match s with
  | "" => None
  | String c s' =>
      match split_last_slash s' with
      | Some (d, b) => Some (String c d, b)
      | None => if Ascii.eqb c "/" then Some ("", s') else None
      end
  end.

(** The comparison is the order by code units; the path functions are
    right for paths with no empty, [.] or [..] segment, and [relative] for
    two equal directories only. *)
Definition sample_host : Host :=
  {| localeCompare := code_unit_compare;
     posix_dirname := fun s =>
       match split_last_slash s with
       | Some ("", _) => "/"
       | Some (d, _) => d
       | None => "."
       end;
     posix_basename := fun s =>
       match split_last_slash s with Some (_, b) => b | None => s end;
     posix_relative := fun from to => if String.eqb from to then "" else to |}.

(** Two hosts give every pair of strings the same order. *)
Definition same_order (h1 h2 : Host) : Prop :=
  forall a b : string,
    (@localeCompare h1 a b <=? 0)%Z = (@localeCompare h2 a b <=? 0)%Z.

(** The path functions of two hosts agree. *)
Definition same_paths (h1 h2 : Host) : Prop :=
  (forall s, @posix_dirname h1 s = @posix_dirname h2 s)
  /\ (forall s, @posix_basename h1 s = @posix_basename h2 s)
  /\ (forall s t, @posix_relative h1 s t = @posix_relative h2 s t).

(** The collation keys of a locale in which the digraph [ch] is a letter
    of its own, after [h], as in Czech; every other character has the place
    of its code unit. *)
Fixpoint digraph_keys (s : string) : list nat :=
  match s with
  | "" => []
  | String c s' =>
      match s' with
      | String c' s'' =>
          if (Ascii.eqb c "C" || Ascii.eqb c "c") && (Ascii.eqb c' "h" || Ascii.eqb c' "H")
          then (2 * nat_of_ascii (if Ascii.eqb c "C" then "H" else "h")%char + 1)
               :: digraph_keys s''
          else 2 * nat_of_ascii c :: digraph_keys s'
      | "" => [2 * nat_of_ascii c]
      end
  end.

Fixpoint keys_compare (a b : list nat) : Z :=
  match a, b with
  | [], [] => 0
  | [], _ :: _ => -1
  | _ :: _, [] => 1
  | x :: a', y :: b' =>
      match Nat.compare x y with
      | Lt => -1
      | Gt => 1
      | Eq => keys_compare a' b'
      end
  end%Z.

(** A host under such a locale, with the path functions of the sample
    host. *)
Definition digraph_host : Host :=
  {| localeCompare := fun a b => keys_compare (digraph_keys a) (digraph_keys b);
     posix_dirname := @posix_dirname sample_host;
     posix_basename := @posix_basename sample_host;
     posix_relative := @posix_relative sample_host |}.

(** A host that answers twice what the sample host answers. *)
Definition doubling_host : Host :=
  {| localeCompare := fun a b => (2 * code_unit_compare a b)%Z;
     posix_dirname := @posix_dirname sample_host;
     posix_basename := @posix_basename sample_host;
     posix_relative := @posix_relative sample_host |}.

(** An interface whose properties refer to [Chart] and [Dog] of another
    package. *)
Definition kennel_schema : APIGroupVersion :=
  {| schema_group := {| group_name := Some "pets"; group_module := None |};
     schema_version := "v1";
     schema_dependencies := [];
     definitions :=
       [ {| def_name := "Kennel";
            def_value :=
              TObject
                [ {| prop_name := "chart"; required := true;
                     prop_value := TReference {| target_scope := Some other_package;
                                                 target_name := "Chart" |};
                     prop_meta := no_meta |};
                  {| prop_name := "dog"; required := true;
                     prop_value := TReference {| target_scope := Some other_package;
                                                 target_name := "Dog" |};
                     prop_meta := no_meta |} ]
                None;
            def_meta := no_meta |} ] |}.

(** A schema whose resource has a [metadata] property that is no
    reference. *)
Definition malformed_schema : APIGroupVersion :=
  {| schema_group := {| group_name := Some "apps"; group_module := None |};
     schema_version := "v1";
     schema_dependencies := [];
     definitions :=
       [ {| def_name := "Color"; def_value := TString None; def_meta := no_meta |};
         {| def_name := "Widget";
            def_value :=
              TResource [ {| prop_name := "metadata"; required := true;
                             prop_value := TString None; prop_meta := no_meta |};
                          {| prop_name := "spec"; required := false;
                             prop_value := TUnknown; prop_meta := no_meta |} ]
                        "namespace";
            def_meta := no_meta |} ] |}.

(** A module that uses the schema library for a value and for types, a
    package and two local modules, after [apply] and [resolve]. *)
Definition rendered_module : Module :=
  Eval vm_compute in
    let m0 := {| path := "apps/v1.ts"; names := Names_new; imports := Imports_new |} in
    let m1 := fst (Module_import (SrcLocal "apps/v1beta1.ts") "Scale" type_true m0) in
    let m2 := fst (Module_import lib_schema "factory" None m1) in
    let m3 := fst (Module_import lib_schema "ResourceList" type_true m2) in
    let m4 := fst (Module_import (SrcApi "kubernetes" (Some "meta/v1.ts")) "ObjectMeta"
                     type_true m3) in
    let m5 := fst (Module_import (SrcLocal "apps/v1alpha1.ts") "Scale" type_true m4) in
    match finish_apply m5 with Ok m => m | Err _ => m5 end.

Definition rendered_context : Context :=
  context_with [ {| dep_package := "kubernetes"; dep_version := "1.30" |} ] rendered_module deno.

(** An import of the table with the identity that [apply] gives it. *)
Definition named_import (e : nat * (ModuleURN * Import)) : ModuleURN * Import :=
  (fst (snd e), with_name (fst e) (snd (snd e))).

(** The definitions [Foo] and [Foo_], and a list of the [Foo] of another
    package. *)
Definition clashing_schema : APIGroupVersion :=
  {| schema_group := {| group_name := None; group_module := None |};
     schema_version := "v1";
     schema_dependencies := [];
     definitions :=
       [ {| def_name := "Foo"; def_value := TString None; def_meta := no_meta |};
         {| def_name := "Foo_"; def_value := TInteger; def_meta := no_meta |};
         {| def_name := "Bar";
            def_value :=
              TArray (TReference {| target_scope := Some other_package; target_name := "Foo" |});
            def_meta := no_meta |} ] |}.

(** One member inside the braces of a statement. *)
Definition member_text (inTypeImport : bool) (i : Import) (token : string) : string :=
  (if type_ i && negb inTypeImport then "type " else "")
  ++ (if negb (String.eqb token (member i)) then member i ++ " as " ++ token else token).

Section ImportBlockSpec.
Context {host : Host}.
Variable ctx : Context.


(** The order of two imports by their member names. *)
Definition by_member (a b : Import) : Z := localeCompare (member a) (member b).

(** The statement [s] imports the members of the source [e]: the members
    in the order of their names, each under its resolved spelling, in an
    [import type] statement when all are type-only and only then, from
    the path of the source. *)
Definition statement (e : ModuleURN * ImportedModule) (s : string) : Prop :=
  exists (ms : list Import) (ts : list string),
    Permutation ms (map_values (members (snd e)))
    /\ Sorted (cmp_le by_member) ms
    /\ Forall2 (fun i t => Import_token i (names (module ctx)) = Ok t) ms ts
    /\ s = (if forallb type_ ms
            then "import type { "
                 ++ Js.join ", " (map (fun p => member_text true (fst p) (snd p)) (combine ms ts))
                 ++ " }"
            else "import { "
                 ++ Js.join ", " (map (fun p => member_text false (fst p) (snd p)) (combine ms ts))
                 ++ " }")
           ++ " from " ++ Js.JSON_stringify (Imports_path (src (snd e)) ctx) ++ ";".


End ImportBlockSpec.

(** ** More vocabulary: declarations, imports, types, comments *)
(** The raw names that a log declares, in order. *)
Definition declarations_of (log : list Registration) : list string :=
  map fst (filter (fun r => NameUsage_eqb (snd r) declaration) log).

(** The first name of [l] that is in [seen] or earlier in [l]. *)
Fixpoint first_duplicate (seen l : list string) : option string :=
  match l with
  | [] => None
  | x :: l' => if existsb (String.eqb x) seen then Some x else first_duplicate (x :: seen) l'
  end.

(** A call of [imports.use]: its arguments. *)
Definition Use : Type := (ImportSource * string * option ImportOptions)%type.

(** The table after these calls of [imports.use], in order. *)
Definition Imports_use_all (uses : list Use) (imps : Imports) : Imports :=
  fold_left (fun acc (c : Use) => fst (Imports_use (fst (fst c)) (snd (fst c)) (snd c) acc))
            uses imps.

(** [source[0]]: the kind of a source. *)
Definition source_type (source : ImportSource) : string :=
  match source with
  | SrcApi _ _ => "api"
  | SrcLib _ _ => "lib"
  | SrcLocal _ => "local"
  end.

(** A resource type occurs in [t]. *)
Fixpoint has_resource (t : Type_) : bool :=
  match t with
  | TArray values | TMap values => has_resource values
  | TOptional value => has_resource value
  | TObject properties _ => existsb (fun p => has_resource (prop_value p)) properties
  | TUnion values => existsb has_resource values
  | TResource _ _ => true
  | _ => false
  end.

(** The source of a scoped reference, as [gen.reference] builds it. *)
Definition scope_source (scope : ReferenceScope) : ImportSource :=
  let path :=
    (match group_module (scope_group scope) with
     | Some g => if Js.truthy g then g ++ "/" else ""
     | None => ""
     end) ++ scope_version scope ++ ".ts" in
  match scope_package scope with
  | Some p => if Js.truthy p then SrcApi p (Some path) else SrcLocal path
  | None => SrcLocal path
  end.

(** The import that a reference asks for: none for a local reference. *)
Definition reference_import (ref : TypeReference) : list (ImportSource * string) :=
  match target_scope ref with
  | None => []
  | Some scope => [(scope_source scope, target_name ref)]
  end.

(** The text of a reference in a context: a local reference is looked up
    among the declarations of the module, a scoped one reads its import. *)
Definition reference_text (ref : TypeReference) (ctx : Context) : result string :=
  match target_scope ref with
  | None => Module_get (target_name ref) (module ctx)
  | Some scope =>
      Import_binding (Import_urn (scope_source scope), target_name ref) (module ctx)
  end.

(** The parents that an object type renders itself. *)
Definition object_parents (inherit : option (list TypeReference)) (declaration : bool)
    : list TypeReference :=
  match inherit with
  | Some refs => if nonempty refs && negb declaration then refs else []
  | None => []
  end.

(** The text of a type in a context, by recursion on the type. *)
Fixpoint type_text (ctx : Context) (t : Type_) (declaration : bool) : result string :=
  match t with
  | TString enum =>
      Ok (match enum with
          | Some values => Js.join " | " (map Js.JSON_stringify values)
          | None => "string"
          end)
  | TInteger | TFloat => Ok "number"
  | TBoolean => Ok "boolean"
  | TArray values => v <- type_text ctx values false ;; Ok ("Array<" ++ v ++ ">")
  | TMap values => v <- type_text ctx values false ;; Ok ("Record<string, " ++ v ++ ">")
  | TObject properties inherit =>
      ps <- mapM (fun ref => reference_text ref ctx) (object_parents inherit declaration) ;;
      qs <- mapM (fun p =>
                    v <- type_text ctx (prop_value p) false ;;
                    Ok (doc (prop_meta p) 1 ++ "  " ++ member_name (prop_name p)
                          ++ (if required p then "" else "?") ++ ": " ++ v ++ ";"))
                 properties ;;
      Ok (Js.join " & " ps ++ "{" ++ Js.nl ++ Js.join Js.nl qs ++ Js.nl ++ "}")
  | TUnion values =>
      vs <- mapM (fun value => type_text ctx value false) values ;;
      Ok (Js.join " | " vs)
  | TOptional value => v <- type_text ctx value false ;; Ok (v ++ " | null")
  | TReference ref => reference_text ref ctx
  | TUnknown => Ok "unknown"
  | TResource _ _ => Err resource_not_allowed
  end.

(** The imports that a type asks for, in the order of its first stage. *)
Fixpoint type_imports (t : Type_) (declaration : bool) : list (ImportSource * string) :=
  match t with
  | TArray values | TMap values => type_imports values false
  | TOptional value => type_imports value false
  | TObject properties inherit =>
      (flat_map reference_import (object_parents inherit declaration)
       ++ flat_map (fun p => type_imports (prop_value p) false) properties)%list
  | TUnion values => flat_map (fun value => type_imports value false) values
  | TReference ref => reference_import ref
  | _ => []
  end.

(** The module after these type-only imports. *)
Definition import_types (l : list (ImportSource * string)) (m : Module) : Module :=
  fold_left (fun m c => fst (Module_import (fst c) (snd c) type_true m)) l m.

(** The two stages of the generator [g]: the first turns a module [m] into
    [update m] and never throws, the second returns [text ctx]. *)
Definition compiles_to (g : Generator) (update : Module -> Module)
    (text : Context -> result string) : Prop :=
  forall m, exists r, g m = Ok (update m, r) /\ forall ctx, r ctx = text ctx.

(** [s.startsWith("/")] *)
Definition starts_with_slash (s : string) : bool :=
  match s with String "/"%char _ => true | _ => false end.

(** The text holds the end of a block comment, [*/]. *)
Fixpoint has_terminator (s : string) : bool :=
  match s with
  | "" => false
  | String c s' => (Ascii.eqb c "*" && starts_with_slash s') || has_terminator s'
  end.

(** The registrations of these raw names as declarations, in order. *)
Definition declare_all (l : list string) (ns : Names) : result Names :=
  Names_register (map (fun t => (t, declaration)) l) ns.

(** The names that the member of a definition declares, in order: a
    resource its name and the name of its list, a reference under the name
    of its target nothing, any other definition its name. *)
Definition declared_names (d : Definition_) : list string :=
  match def_value d with
  | TResource _ _ => [def_name d; def_name d ++ "List"]
  | TReference ref => if String.eqb (def_name d) (target_name ref) then [] else [def_name d]
  | _ => [def_name d]
  end.

(** The names that the members of the module of a schema declare, in the
    order of the members. *)
Definition schema_declarations (schema : APIGroupVersion) : list string :=
  ("APIVersion" :: "apiVersion"
   :: (if existsb (fun d => is_resource (def_value d)) (definitions schema)
       then ["Resource"] else [])
   ++ flat_map declared_names (definitions schema))%list.

(** The first stage [c] on the module [m] declares the names [l] and
    throws what their registration throws. *)
Definition stage_declares (A : Type) (c : result (Module * A)) (l : list string) (m : Module)
    : Prop :=
  match declare_all l (names m) with
  | Ok ns => exists m' a, c = Ok (m', a) /\ names m' = ns
  | Err msg => c = Err msg
  end.

Definition declares (g : Generator) (l : list string) : Prop :=
  forall m, stage_declares _ (g m) l m.

(** Two definitions of one name. *)
Definition duplicate_schema : APIGroupVersion :=
  {| schema_group := {| group_name := Some "apps"; group_module := None |};
     schema_version := "v1";
     schema_dependencies := [];
     definitions :=
       [ {| def_name := "Color"; def_value := TString None; def_meta := no_meta |};
         {| def_name := "Size"; def_value := TInteger; def_meta := no_meta |};
         {| def_name := "Color"; def_value := TBoolean; def_meta := no_meta |};
         {| def_name := "Size"; def_value := TFloat; def_meta := no_meta |} ] |}.

(** A union of an optional string and an array of references into another
    package. *)
Definition sample_type : Type_ :=
  TUnion [ TOptional (TString None);
           TArray (TReference {| target_scope := Some other_package; target_name := "Foo" |}) ].

(** ** More vocabulary: the render pass *)
(** The message of [getDeclared] for a name that is not declared. *)
Definition undeclared : string := "name undefined not declared in module".

(** The name that a reference looks up in the module: none for a scoped
    reference. *)
Definition reference_local (ref : TypeReference) : list string :=
  match target_scope ref with
  | None => [target_name ref]
  | Some _ => []
  end.

(** The names that the text of a type looks up in the module. *)
Fixpoint type_locals (t : Type_) (declaration : bool) : list string :=
  match t with
  | TArray values | TMap values => type_locals values false
  | TOptional value => type_locals value false
  | TObject properties inherit =>
      (flat_map reference_local (object_parents inherit declaration)
       ++ flat_map (fun p => type_locals (prop_value p) false) properties)%list
  | TUnion values => flat_map (fun value => type_locals value false) values
  | TReference ref => reference_local ref
  | _ => []
  end.

(** The name [t] is among the declarations [D]. *)
Definition declared_in (D : list string) (t : string) : bool := existsb (String.eqb t) D.

(** A step of the render pass that succeeds when [b] holds and otherwise
    throws the message of an undeclared name. *)
Definition outcome {A : Type} (c : result A) (b : bool) : Prop :=
  if b then exists a, c = Ok a else c = Err undeclared.

(** In the module [mf], [module.get] finds the names of [D] and no
    other. *)
Definition gets (mf : Module) (D : list string) : Prop :=
  forall t, Module_get t mf = if declared_in D t then Ok t else Err undeclared.

(** The first stage that led from [m] to [m'] only added names and
    imports. *)
Definition grows (m m' : Module) : Prop :=
  Names_count (names m) <= Names_count (names m')
  /\ (Imports_wf (imports m) -> Imports_wf (imports m'))
  /\ (forall r, Imports_deref r (imports m) <> None -> Imports_deref r (imports m') <> None).

(** In the module [mf] the bindings of the names and imports of [m] can be
    read. *)
Definition covers (mf m : Module) : Prop :=
  (forall k, k < Names_count (names m) -> exists s, Name_binding k mf = Ok s)
  /\ (forall r, Imports_deref r (imports m) <> None -> exists s, Import_binding r mf = Ok s).

(** The second stage of [g] throws only for an undeclared name among
    [locals], and its first stage only adds names and imports. *)
Definition renderer_ok (g : Generator) (locals : list string) : Prop :=
  forall m m' r,
    g m = Ok (m', r) ->
    grows m m'
    /\ forall ctx D,
         covers (module ctx) m' -> gets (module ctx) D ->
         outcome (r ctx) (forallb (declared_in D) locals).

(** The names that the text of a definition looks up in the module: the
    local references of its type; for an interface also its parents; for a
    resource also [Resource] and [apiVersion], and not its metadata. *)
Definition definition_lookups (d : Definition_) : list string :=
  match def_value d with
  | TResource properties _ =>
      "Resource" :: "apiVersion"
      :: type_locals (TObject (drop_found named_metadata properties) None) false
  | TObject properties inherit =>
      (flat_map reference_local (match inherit with Some refs => refs | None => [] end)
       ++ type_locals (TObject properties inherit) true)%list
  | TReference ref => reference_local ref
  | value => type_locals value true
  end.

(** The names that the text of the resource helper looks up: [APIVersion]
    and the metadata type of the first resource. *)
Definition resource_lookups (defs : list Definition_) : list string :=
  match find (fun d => is_resource (def_value d)) defs with
  | None => []
  | Some resourceDef =>
      match def_value resourceDef with
      | TResource properties _ =>
          match find metadata_reference properties with
          | Some p =>
              match prop_value p with
              | TReference ref => "APIVersion" :: reference_local ref
              | _ => []
              end
          | None => []
          end
      | _ => []
      end
  end.

(** The names that the texts of the members of the module of a schema
    look up. *)
Definition schema_lookups (schema : APIGroupVersion) : list string :=
  (resource_lookups (definitions schema)
   ++ flat_map definition_lookups (definitions schema))%list.

(** The local names that the types of a definition refer to: the local
    references of its type and, for an interface, of its parents; a
    resource without its metadata. *)
Definition definition_references (d : Definition_) : list string :=
  match def_value d with
  | TResource properties _ =>
      type_locals (TObject (drop_found named_metadata properties) None) false
  | _ => definition_lookups d
  end.

(** The local names that the types of a schema refer to: those of its
    definitions and the metadata type of its first resource. *)
Definition schema_references (schema : APIGroupVersion) : list string :=
  (tl (resource_lookups (definitions schema))
   ++ flat_map definition_references (definitions schema))%list.

(** A schema whose definition refers to a name that it does not define. *)
Definition dangling_schema : APIGroupVersion :=
  {| schema_group := {| group_name := Some "apps"; group_module := None |};
     schema_version := "v1";
     schema_dependencies := [];
     definitions :=
       [ {| def_name := "Pair";
            def_value :=
              TObject [ {| prop_name := "left"; required := true;
                           prop_value := TReference {| target_scope := None;
                                                       target_name := "Item" |};
                           prop_meta := no_meta |} ] None;
            def_meta := no_meta |} ] |}.

(** The definitions for which [gen.definition] builds a generator: a
    resource whose first property named [metadata] is a reference and whose
    other properties hold no resource type; a reference; any other type
    that holds no resource type. *)
Definition buildable (d : Definition_) : bool :=
  match def_value d with
  | TResource properties _ =>
      match find named_metadata properties with
      | Some p =>
          is_reference (prop_value p)
          && negb (existsb (fun p => has_resource (prop_value p))
                           (drop_found named_metadata properties))
      | None => false
      end
  | value => negb (has_resource value)
  end.

(** ** More vocabulary: paths and the module written out *)
(** A relative module specifier: one that starts with [./] or [../]. *)
Definition is_relative_specifier (s : string) : bool :=
  match s with
  | String "."%char (String "/"%char _) => true
  | String "."%char (String "."%char (String "/"%char _)) => true
  | _ => false
  end.

(** The calls of [imports.use] behind a list of type-only imports. *)
Definition type_uses (l : list (ImportSource * string)) : list Use :=
  map (fun c => (fst c, snd c, type_true)) l.

(** The parents of an interface. *)
Definition parents_of (inherit : option (list TypeReference)) : list TypeReference :=
  match inherit with Some refs => refs | None => [] end.

(** The calls of [imports.use] that the member of a definition makes, in
    order. *)
Definition definition_uses (d : Definition_) : list Use :=
  match def_value d with
  | TResource properties _ =>
      ((lib_schema, "factory", None) :: (lib_schema, "ResourceList", type_true)
       :: type_uses (type_imports (TObject (drop_found named_metadata properties) None) false))
  | TObject properties inherit =>
      (type_uses (type_imports (TObject properties inherit) true)
       ++ type_uses (flat_map reference_import (parents_of inherit)))%list
  | TReference ref => type_uses (reference_import ref)
  | value => type_uses (type_imports value true)
  end.

(** The metadata type of the first resource of a schema. *)
Definition resource_metadata (defs : list Definition_) : option TypeReference :=
  match find (fun d => is_resource (def_value d)) defs with
  | None => None
  | Some resourceDef =>
      match def_value resourceDef with
      | TResource properties _ =>
          match find metadata_reference properties with
          | Some p =>
              match prop_value p with
              | TReference ref => Some ref
              | _ => None
              end
          | None => None
          end
      | _ => None
      end
  end.

(** The calls of [imports.use] that the resource helper makes. *)
Definition resource_uses (ref : TypeReference) : list Use :=
  ((lib_schema, "Resource", type_true) :: (lib_schema, "NameScope", type_true)
   :: type_uses (reference_import ref)).

(** The calls of [imports.use] that the members of the module of a schema
    make, in the order of the members. *)
Definition schema_uses (schema : APIGroupVersion) : list Use :=
  (match resource_metadata (definitions schema) with
   | Some ref => resource_uses ref
   | None => []
   end
   ++ flat_map definition_uses (definitions schema))%list.

(** The binding of an import of the schema library. *)
Definition lib_binding (name : string) (ctx : Context) : result string :=
  Import_binding (Import_urn lib_schema, name) (module ctx).

(** The text of the resource helper, with the metadata type [ref]. *)
Definition resource_text (ref : TypeReference) (ctx : Context) : result string :=
  b1 <- lib_binding "Resource" ctx ;;
  s <- lib_binding "NameScope" ctx ;;
  b2 <- lib_binding "Resource" ctx ;;
  a <- Module_get "APIVersion" (module ctx) ;;
  md <- reference_text ref ctx ;;
  Ok ("/** A {@link " ++ b1 ++ " resource} in the " ++ ("`" ++ Context_apiVersion ctx ++ "`")
      ++ " API. */" ++ Js.nl
      ++ "export type Resource<K extends string, S extends " ++ s ++ " = "
      ++ lit "namespace" ++ ">"
      ++ " = " ++ b2 ++ "<" ++ a ++ ", K, S, " ++ md ++ ">;").

(** The text of a definition, by cases on its type; its own names are
    written as they are declared. *)
Definition definition_text (ctx : Context) (d : Definition_) : result string :=
  let name := def_name d in
  let head := doc (def_meta d) 0 in
  match def_value d with
  | TResource properties scope =>
      resource <- Module_get "Resource" (module ctx) ;;
      object <- type_text ctx (TObject (drop_found named_metadata properties) None) false ;;
      version <- Module_get "apiVersion" (module ctx) ;;
      factory <- lib_binding "factory" ctx ;;
      list <- lib_binding "ResourceList" ctx ;;
      Ok (Js.join (Js.nl ++ Js.nl)
            [ head ++ "export interface " ++ name ++ " extends " ++ resource ++ "<"
                ++ Js.join ", " (lit name :: (if String.eqb scope "namespace" then []
                                              else [lit scope]))
                ++ "> " ++ object;
              "export const " ++ name ++ " = " ++ factory ++ "<" ++ name ++ ">("
                ++ Js.join ", " [version; lit name; lit scope] ++ ");";
              "export type " ++ (name ++ "List") ++ " = " ++ list ++ "<" ++ name ++ ">;" ])
  | TObject properties inherit =>
      extend <-
        (if nonempty (parents_of inherit)
         then ps <- mapM (fun ref => reference_text ref ctx) (parents_of inherit) ;;
              Ok (" extends " ++ Js.join ", " ps)
         else Ok "") ;;
      object <- type_text ctx (TObject properties inherit) true ;;
      Ok (head ++ "export interface " ++ name ++ extend ++ " " ++ object)
  | TReference ref =>
      target <- reference_text ref ctx ;;
      Ok (head ++ "export type { " ++ target
          ++ (if String.eqb name (target_name ref) then "" else " as " ++ name) ++ " };")
  | value =>
      text <- type_text ctx value true ;;
      Ok (head ++ "export type " ++ name ++ " = " ++ text ++ ";")
  end.

(** The path of the module of a schema. *)
Definition module_path (schema : APIGroupVersion) : string :=
  (match group_module (schema_group schema) with
   | Some g => if Js.truthy g then g ++ "/" else ""
   | None => ""
   end) ++ schema_version schema ++ ".ts".

(** In the module [mf] the declarations of the log [logf] are spelled as
    they were declared. *)
Definition resolves (mf : Module) (logf : list Registration) : Prop :=
  forall k token,
    nth_error logf k = Some (token, declaration) -> Name_binding k mf = Ok token.

(** The generator [g] declares [decls], makes the calls [uses] of
    [imports.use], and its second stage returns [text] once the names are
    resolved. *)
Definition renders_as (g : Generator) (decls : list string) (uses : list Use)
    (text : Context -> result string) : Prop :=
  forall log m m' r,
    Names_inv log (names m) ->
    g m = Ok (m', r) ->
    path m' = path m
    /\ imports m' = Imports_use_all uses (imports m)
    /\ forall ctx rest,
         resolves (module ctx) ((log ++ map (fun t => (t, declaration)) decls) ++ rest) ->
         r ctx = text ctx.

(** The two lines of the API version in a context. *)
Definition api_version_text (ctx : Context) : result string :=
  Ok ("export type APIVersion = " ++ lit (Context_apiVersion ctx) ++ ";" ++ Js.nl
      ++ "export const apiVersion: APIVersion = " ++ lit (Context_apiVersion ctx) ++ ";").

(** What a member of the module does: the names it declares, its calls of
    [imports.use], and its text. *)
Definition MemberSpec : Type :=
  (list string * list Use * (Context -> result string))%type.

Definition spec_names (s : MemberSpec) : list string := fst (fst s).
Definition spec_uses (s : MemberSpec) : list Use := snd (fst s).
Definition spec_text (s : MemberSpec) : Context -> result string := snd s.

(** The members of the module of a schema, in order: the API version, the
    resource helper when the schema has a resource, and the definitions. *)
Definition member_specs (schema : APIGroupVersion) : list MemberSpec :=
  ((["APIVersion"; "apiVersion"], [], api_version_text)
   :: match resource_metadata (definitions schema) with
      | Some ref => [(["Resource"], resource_uses ref, resource_text ref)]
      | None => []
      end
   ++ map (fun d => (declared_names d, definition_uses d, fun ctx => definition_text ctx d))
          (definitions schema))%list.

(** The module of a schema, written out: the names of the members are
    declared and their imports entered in a new module, the imports are
    named and all names resolved; the text is the import block and the
    texts of the members, the empty ones left out, with blank lines
    between them. *)
Definition module_text {host : Host} (schema : APIGroupVersion) (engine : Engine)
    : result string :=
  ns <- declare_all (flat_map spec_names (member_specs schema)) Names_new ;;
  mf <- finish_apply {| path := module_path schema;
                        names := ns;
                        imports := Imports_use_all (flat_map spec_uses (member_specs schema))
                                                   Imports_new |} ;;
  let ctx := Context_new schema mf engine in
  block <- Imports_render ctx (imports mf) ;;
  texts <- mapM (fun s => spec_text s ctx) (member_specs schema) ;;
  Ok (Js.join (Js.nl ++ Js.nl) (filter Js.truthy (block :: texts))).

(** * Properties *)

(** ** Results *)

Lemma bind_Ok (A B : Type) (c : result A) (k : A -> result B) (b : B) :
  bind c k = Ok b -> exists a, c = Ok a /\ k a = Ok b.
Proof. destruct c as [a|msg]; simpl; intros H; [eauto | discriminate]. Qed.

Lemma bind_Err (A B : Type) (c : result A) (k : A -> result B) (msg : string) :
  bind c k = Err msg -> c = Err msg \/ exists a, c = Ok a /\ k a = Err msg.
Proof. destruct c as [a|msg']; simpl; intros H; [right; eauto | left; congruence]. Qed.

(** Splits a hypothesis [bind c k = Ok b] into its two steps. *)
Ltac bind_inv H :=
  let a := fresh "a" in
  let Ha := fresh "Hstep" in
  apply bind_Ok in H; destruct H as (a & Ha & H).

Lemma mapM_Err_In (A B : Type) (f : A -> result B) (l : list A) (x : A) (msg : string) :
  In x l -> f x = Err msg -> exists msg', mapM f l = Err msg'.
Proof.
  induction l as [|y l IH]; simpl; [tauto|].
  intros [->|Hin] Hx.
  - rewrite Hx. simpl. eauto.
  - destruct (f y) as [b|m]; simpl; [|eauto].
    destruct (IH Hin Hx) as [m' ->]. simpl. eauto.
Qed.

Lemma mapM_Ok_Forall2 (A B : Type) (f : A -> result B) (l : list A) (bs : list B) :
  mapM f l = Ok bs -> Forall2 (fun x y => f x = Ok y) l bs.
Proof.
  revert bs. induction l as [|x l IH]; simpl; intros bs H.
  - injection H as <-. constructor.
  - bind_inv H. bind_inv H. injection H as <-. constructor; auto.
Qed.

Lemma mapM_all_Ok (A B : Type) (f : A -> result B) (l : list A) :
  Forall (fun x => exists y, f x = Ok y) l -> exists bs, mapM f l = Ok bs.
Proof.
  induction 1 as [|x l [y Hy] _ [bs IH]]; simpl; [eauto|].
  rewrite Hy, IH. simpl. eauto.
Qed.

(** ** Maps *)

Section JsMapFacts.
Variable V : Type.
Implicit Types (m : JsMap string V) (k : string) (v : V).

Lemma map_get_set_same k v m : map_get String.eqb k (map_set String.eqb k v m) = Some v.
Proof.
  induction m as [|[k' v'] m IH]; simpl.
  - now rewrite String.eqb_refl.
  - destruct (String.eqb k k') eqn:E; simpl; [now rewrite String.eqb_refl | now rewrite E].
Qed.

Lemma map_get_set_other k k' v m :
  k' <> k -> map_get String.eqb k' (map_set String.eqb k v m) = map_get String.eqb k' m.
Proof.
  intros Hne. induction m as [|[k0 v0] m IH]; simpl.
  - destruct (String.eqb k' k) eqn:E; [apply String.eqb_eq in E; contradiction | reflexivity].
  - destruct (String.eqb k k0) eqn:E; simpl.
    + apply String.eqb_eq in E. subst k0.
      destruct (String.eqb k' k) eqn:E'; [apply String.eqb_eq in E'; contradiction | reflexivity].
    + now rewrite IH.
Qed.

Lemma map_get_In k v m : map_get String.eqb k m = Some v -> In (k, v) m.
Proof.
  induction m as [|[k' v'] m IH]; simpl; [discriminate|].
  destruct (String.eqb k k') eqn:E.
  - apply String.eqb_eq in E. intros [= ->]. subst. now left.
  - intros H. right. auto.
Qed.

Lemma map_get_None k m : map_get String.eqb k m = None -> ~ In k (map_keys m).
Proof.
  induction m as [|[k' v'] m IH]; simpl; [tauto|].
  destruct (String.eqb k k') eqn:E; [discriminate|].
  apply String.eqb_neq in E. intros H [Heq|Hin]; [congruence | now apply IH].
Qed.

Lemma In_map_get k v m : NoDup (map_keys m) -> In (k, v) m -> map_get String.eqb k m = Some v.
Proof.
  induction m as [|[k' v'] m IH]; simpl; [tauto|].
  intros Hnd [Heq|Hin].
  - injection Heq as -> ->. now rewrite String.eqb_refl.
  - inversion Hnd as [|? ? Hnotin Hnd']; subst.
    destruct (String.eqb k k') eqn:E; [|auto].
    apply String.eqb_eq in E. subst k'. exfalso. apply Hnotin.
    change (In (fst (k, v)) (map fst m)). now apply in_map.
Qed.

Lemma map_keys_set k v m :
  map_keys (map_set String.eqb k v m)
  = match map_get String.eqb k m with
    | Some _ => map_keys m
    | None => (map_keys m ++ [k])%list
    end.
Proof.
  unfold map_keys. induction m as [|[k' v'] m IH]; simpl; [reflexivity|].
  destruct (String.eqb k k') eqn:E; simpl.
  - apply String.eqb_eq in E. now subst.
  - rewrite IH. now destruct (map_get String.eqb k m).
Qed.

Lemma map_set_NoDup k v m : NoDup (map_keys m) -> NoDup (map_keys (map_set String.eqb k v m)).
Proof.
  intros Hnd. rewrite map_keys_set.
  destruct (map_get String.eqb k m) eqn:E; [assumption|].
  apply map_get_None in E.
  apply NoDup_rev in Hnd. rewrite <- (rev_involutive (_ ++ _)).
  apply NoDup_rev. rewrite rev_app_distr. simpl. constructor; [|assumption].
  now rewrite <- in_rev.
Qed.
End JsMapFacts.

(** ** Sorting *)

Section SortFacts.
Variables (A : Type) (cmp : A -> A -> Z).

Lemma sort_insert_Permutation (x : A) (l : list A) : Permutation (sort_insert cmp x l) (x :: l).
Proof.
  induction l as [|y l IH]; simpl; [reflexivity|].
  destruct (cmp x y <=? 0)%Z; [reflexivity|].
  rewrite IH. apply perm_swap.
Qed.

Lemma sort_Permutation (l : list A) : Permutation (sort cmp l) l.
Proof.
  induction l as [|x l IH]; simpl; [reflexivity|].
  rewrite sort_insert_Permutation. now constructor.
Qed.

Hypothesis cmp_total : forall x y, cmp_le cmp x y \/ cmp_le cmp y x.


End SortFacts.

Lemma entries_from_app (A : Type) (i : nat) (l l' : list A) :
  entries_from i (l ++ l') = (entries_from i l ++ entries_from (i + length l) l')%list.
Proof.
  revert i. induction l as [|x l IH]; simpl; intros i.
  - now rewrite Nat.add_0_r.
  - rewrite IH. do 3 f_equal. lia.
Qed.

Lemma nth_error_entries_from (A : Type) (i k : nat) (l : list A) :
  nth_error (entries_from i l) k = option_map (fun x => (i + k, x)) (nth_error l k).
Proof.
  revert i k. induction l as [|x l IH]; intros i [|k]; simpl; try reflexivity.
  - now rewrite Nat.add_0_r.
  - rewrite IH. destruct (nth_error l k); simpl; [|reflexivity]. do 2 f_equal. lia.
Qed.

Lemma map_snd_entries_from (A : Type) (i : nat) (l : list A) : map snd (entries_from i l) = l.
Proof. revert i. induction l as [|x l IH]; simpl; intros i; [reflexivity | now rewrite IH]. Qed.

(** ** The identifier table *)

Lemma Names_inv_new : Names_inv [] Names_new.
Proof. split; simpl; intros; auto; constructor. Qed.

Lemma map_set_set (V : Type) (k : string) (v v' : V) (m : JsMap string V) :
  map_set String.eqb k v' (map_set String.eqb k v m) = map_set String.eqb k v' m.
Proof.
  induction m as [|[k0 v0] m IH]; simpl.
  - now rewrite String.eqb_refl.
  - destruct (String.eqb k k0) eqn:E; simpl.
    + now rewrite String.eqb_refl.
    + now rewrite E, IH.
Qed.

(** [Names_add] without the intermediate empty group. *)
Lemma Names_add_eq (token : string) (u : NameUsage) (ns : Names) :
  Names_add token u ns
  = if existsb (fun name => Name_isConflict name u) (Names_group token ns)
    then Err ("Duplicate " ++ usage_text u ++ " of " ++ token)
    else
      let name := {| nid := Names_count ns; declared := token; usage := u; resolved := None |} in
      Ok ({| bound := map_set String.eqb token (Names_group token ns ++ [name])%list (bound ns) |},
          name).
Proof.
  unfold Names_add, Names_token, Names_group.
  destruct (map_get String.eqb token (bound ns)) as [g|] eqn:E; simpl; [reflexivity|].
  now rewrite map_set_set.
Qed.

Lemma Names_count_set (token : string) (n : Name) (b : JsMap string (list Name)) :
  Names_count {| bound := map_set String.eqb token
                   (Names_group token {| bound := b |} ++ [n])%list b |}
  = S (Names_count {| bound := b |}).
Proof.
  unfold Names_count, Names_group. simpl.
  induction b as [|[k g] b IH]; simpl; [reflexivity|].
  destruct (String.eqb token k) eqn:E; simpl.
  - rewrite length_app. simpl. lia.
  - rewrite IH. lia.
Qed.

Lemma registered_snoc (log : list Registration) (r : Registration) :
  registered (log ++ [r]) = (registered log ++ [fresh_name (length log, r)])%list.
Proof.
  unfold registered, entries. rewrite entries_from_app, map_app. reflexivity.
Qed.

Lemma group_of_snoc (token : string) (log : list Registration) (r : Registration) :
  group_of token (log ++ [r])
  = (group_of token log
     ++ (if String.eqb (fst r) token then [fresh_name (length log, r)] else []))%list.
Proof.
  unfold group_of. rewrite registered_snoc, filter_app. simpl.
  unfold in_group at 2. simpl. now destruct (String.eqb (fst r) token).
Qed.

Lemma existsb_conflict (u : NameUsage) (g : list Name) :
  existsb (fun name => Name_isConflict name u) g
  = NameUsage_eqb u declaration && nonempty (filter is_declaration g).
Proof.
  induction g as [|n g IH]; simpl.
  - now rewrite andb_false_r.
  - rewrite IH. unfold Name_isConflict, is_declaration.
    destruct (NameUsage_eqb (usage n) declaration), (NameUsage_eqb u declaration); simpl; auto.
Qed.

Lemma Names_add_inv (log : list Registration) (ns ns' : Names) (token : string)
    (u : NameUsage) (n : Name) :
  Names_inv log ns -> Names_add token u ns = Ok (ns', n) ->
  Names_inv (log ++ [(token, u)]) ns' /\ n = fresh_name (length log, (token, u)).
Proof.
  intros [Hk Hg Hc Hd]. rewrite Names_add_eq, existsb_conflict, Hg.
  destruct (NameUsage_eqb u declaration && _) eqn:E; [discriminate|].
  simpl. intros [= <- <-]. rewrite Hc. split; [|reflexivity]. split.
  - simpl. now apply map_set_NoDup.
  - intros t. rewrite group_of_snoc. unfold Names_group. simpl.
    destruct (String.eqb token t) eqn:Et.
    + apply String.eqb_eq in Et. subst t. now rewrite map_get_set_same.
    + apply String.eqb_neq in Et. rewrite map_get_set_other by congruence.
      rewrite app_nil_r. apply Hg.
  - destruct ns as [b]. rewrite <- (Hg token). simpl.
    rewrite Names_count_set, length_app. simpl. rewrite Hc. lia.
  - intros t. rewrite group_of_snoc, filter_app, length_app. simpl.
    destruct (String.eqb token t) eqn:Et; simpl; [|specialize (Hd t); lia].
    apply String.eqb_eq in Et. subst t. unfold is_declaration at 2. simpl.
    destruct u; simpl in *; [|specialize (Hd token); lia].
    destruct (filter is_declaration (group_of token log)); simpl in *; [lia | discriminate].
Qed.

Lemma Names_register_inv (rest log : list Registration) (ns ns' : Names) :
  Names_inv log ns -> Names_register rest ns = Ok ns' -> Names_inv (log ++ rest) ns'.
Proof.
  revert log ns. induction rest as [|[token u] rest IH]; simpl; intros log ns Hinv H.
  - injection H as <-. now rewrite app_nil_r.
  - bind_inv H. destruct a as [ns1 n].
    destruct (Names_add_inv _ _ _ _ _ _ Hinv Hstep) as [Hinv1 _].
    specialize (IH _ _ Hinv1 H). now rewrite <- app_assoc in IH.
Qed.

Lemma Names_register_new_inv (log : list Registration) (ns : Names) :
  Names_register log Names_new = Ok ns -> Names_inv log ns.
Proof. intros H. exact (Names_register_inv _ _ _ _ Names_inv_new H). Qed.

(** *** Sorting a group by weight *)

Lemma usage_cases (n : Name) :
  (is_declaration n = true /\ is_import n = false /\ Name_weight n = 0%Z)
  \/ (is_declaration n = false /\ is_import n = true /\ Name_weight n = 1%Z).
Proof. unfold is_declaration, is_import, Name_weight. destruct (usage n); simpl; auto. Qed.

Lemma sort_insert_declaration (x : Name) (l : list Name) :
  is_declaration x = true -> sort_insert by_weight x l = x :: l.
Proof.
  intros Hx. destruct l as [|y l]; simpl; [reflexivity|].
  unfold by_weight.
  destruct (usage_cases x) as [(_ & _ & ->)|(E & _)]; [|congruence].
  destruct (usage_cases y) as [(_ & _ & ->)|(_ & _ & ->)]; reflexivity.
Qed.

Lemma sort_insert_import (x : Name) (ds is_ : list Name) :
  is_import x = true ->
  Forall (fun n => is_declaration n = true) ds ->
  Forall (fun n => is_import n = true) is_ ->
  sort_insert by_weight x (ds ++ is_) = (ds ++ x :: is_)%list.
Proof.
  intros Hx Hds His. induction Hds as [|d ds Hd _ IH]; simpl.
  - destruct His as [|y is_ Hy _]; simpl; [reflexivity|].
    unfold by_weight.
    destruct (usage_cases x) as [(_ & E & _)|(_ & _ & ->)]; [congruence|].
    destruct (usage_cases y) as [(_ & E & _)|(_ & _ & ->)]; [congruence|reflexivity].
  - unfold by_weight at 1.
    destruct (usage_cases x) as [(_ & E & _)|(_ & _ & ->)]; [congruence|].
    destruct (usage_cases d) as [(_ & _ & ->)|(E & _)]; [|congruence].
    simpl. now rewrite IH.
Qed.

Lemma Forall_filter_true (A : Type) (f : A -> bool) (l : list A) :
  Forall (fun x => f x = true) (filter f l).
Proof. apply Forall_forall. intros x Hx. now apply filter_In in Hx. Qed.

(** The sort of [resolve] puts the declarations first and keeps the order
    of registration among the imports. *)
Lemma sort_by_weight (l : list Name) :
  sort by_weight l = (filter is_declaration l ++ filter is_import l)%list.
Proof.
  induction l as [|x l IH]; simpl; [reflexivity|].
  rewrite IH.
  destruct (usage_cases x) as [(Hd & Hi & _)|(Hd & Hi & _)]; rewrite Hd, Hi.
  - now apply sort_insert_declaration.
  - apply sort_insert_import; auto using Forall_filter_true.
Qed.

Lemma resolved_spelling (identifier : string) (i : nat) (n : Name) :
  declared n = identifier ->
  resolved (Name_resolve (spelling identifier i) n) = Some (spelled identifier i).
Proof. intros <-. destruct i as [|[|i]]; reflexivity. Qed.

Lemma resolve_group_eq (identifier : string) (g : list Name) :
  resolve_group identifier g
  = map (fun e => Name_resolve (spelling identifier (fst e)) (snd e))
        (entries (filter is_declaration g ++ filter is_import g)).
Proof.
  unfold resolve_group. fold by_weight. rewrite sort_by_weight.
  apply map_ext. now intros [i n].
Qed.

Lemma nth_error_resolve_group (identifier : string) (g : list Name) (i : nat) :
  nth_error (resolve_group identifier g) i
  = option_map (Name_resolve (spelling identifier i))
      (nth_error (filter is_declaration g ++ filter is_import g) i).
Proof.
  rewrite resolve_group_eq, nth_error_map. unfold entries.
  rewrite nth_error_entries_from.
  now destruct (nth_error _ i).
Qed.

Lemma bound_resolve_In (ns : Names) (identifier : string) (names : list Name) :
  In (identifier, names) (bound (Names_resolve ns)) ->
  exists g, In (identifier, g) (bound ns) /\ names = resolve_group identifier g.
Proof.
  unfold Names_resolve. simpl. intros H. apply in_map_iff in H.
  destruct H as ([id g] & Heq & Hin). injection Heq as <- <-. eauto.
Qed.

Lemma Names_inv_In (log : list Registration) (ns : Names) (identifier : string) (g : list Name) :
  Names_inv log ns -> In (identifier, g) (bound ns) -> g = group_of identifier log.
Proof.
  intros Hinv Hin. rewrite <- (inv_group _ _ Hinv). unfold Names_group.
  now rewrite (In_map_get _ _ _ _ (inv_keys _ _ Hinv) Hin).
Qed.

Lemma group_of_declared (token : string) (log : list Registration) (n : Name) :
  In n (group_of token log) -> declared n = token.
Proof.
  unfold group_of. intros H. apply filter_In in H. destruct H as [_ H].
  now apply String.eqb_eq in H.
Qed.

Lemma map_key_registered (log : list Registration) :
  map (fun n => (declared n, usage n)) (registered log) = log.
Proof.
  unfold registered, entries. rewrite map_map.
  rewrite <- (map_snd_entries_from _ 0 log) at 2.
  apply map_ext. now intros [i [t u]].
Qed.

Lemma filter_map_comm (A B : Type) (f : A -> B) (p : B -> bool) (l : list A) :
  filter p (map f l) = map f (filter (fun x => p (f x)) l).
Proof.
  induction l as [|x l IH]; simpl; [reflexivity|].
  rewrite IH. now destruct (p (f x)).
Qed.

Lemma map_key_group_of (token : string) (log : list Registration) :
  map (fun n => (declared n, usage n)) (group_of token log)
  = filter (fun r => String.eqb (fst r) token) log.
Proof.
  unfold group_of. rewrite <- (map_key_registered log) at 2.
  rewrite filter_map_comm. reflexivity.
Qed.

Lemma map_key_resolve_group (identifier : string) (g : list Name) :
  Permutation (map (fun n => (declared n, usage n)) (resolve_group identifier g))
              (map (fun n => (declared n, usage n)) g).
Proof.
  unfold resolve_group. rewrite map_map.
  rewrite (map_ext _ (fun e => (declared (snd e), usage (snd e))))
    by (now intros [i n]).
  rewrite <- (map_map snd (fun n => (declared n, usage n))).
  unfold entries. rewrite map_snd_entries_from.
  apply Permutation_map, sort_Permutation.
Qed.

Lemma filter_partition_length (A : Type) (f g : A -> bool) (l : list A) :
  (forall x, g x = negb (f x)) -> length (filter f l) + length (filter g l) = length l.
Proof.
  intros Hfg. induction l as [|x l IH]; simpl; [reflexivity|].
  rewrite Hfg. destruct (f x); simpl; lia.
Qed.

(** C2, declarations first: the resolved group is its declarations
    followed by its imports. *)
Lemma resolve_group_split (identifier : string) (g : list Name) :
  exists ds is_,
    resolve_group identifier g = (ds ++ is_)%list
    /\ Forall (fun n => usage n = declaration) ds
    /\ Forall (fun n => usage n = import) is_
    /\ length ds = length (filter is_declaration g).
Proof.
  rewrite resolve_group_eq. unfold entries. rewrite entries_from_app, map_app.
  eexists _, _. split; [reflexivity|]. repeat split.
  - apply Forall_forall. intros n Hn. apply in_map_iff in Hn.
    destruct Hn as ([i n0] & <- & Hin). simpl.
    apply (in_map snd) in Hin. rewrite map_snd_entries_from in Hin. simpl in Hin.
    apply filter_In in Hin. destruct Hin as [_ H]. unfold is_declaration in H.
    now destruct (usage n0).
  - apply Forall_forall. intros n Hn. apply in_map_iff in Hn.
    destruct Hn as ([i n0] & <- & Hin). simpl.
    apply (in_map snd) in Hin. rewrite map_snd_entries_from in Hin. simpl in Hin.
    apply filter_In in Hin. destruct Hin as [_ H]. unfold is_import in H.
    now destruct (usage n0).
  - rewrite length_map.
    rewrite <- (map_snd_entries_from _ 0 (filter is_declaration g)) at 2.
    now rewrite length_map.
Qed.

(** C2. After the registrations of [log] and [resolve]: every registered raw
    name has a group; the group of [identifier] holds the registrations of
    that raw name, its declarations before its imports; its [i]-th name is
    spelled [identifier], [identifier_], [identifier_2], [identifier_3], ...
    by its index [i] = 0, 1, 2, 3, ...; and a declaration keeps the raw
    spelling. *)
Theorem resolve_groups_by_raw_name (log : list Registration) (ns : Names) :
  Names_register log Names_new = Ok ns ->
  (forall token u, In (token, u) log ->
     exists names, In (token, names) (bound (Names_resolve ns)))
  /\ forall identifier names,
       In (identifier, names) (bound (Names_resolve ns)) ->
       Permutation (map (fun n => (declared n, usage n)) names)
                   (filter (fun r => String.eqb (fst r) identifier) log)
       /\ (exists ds is_,
             names = (ds ++ is_)%list
             /\ Forall (fun n => usage n = declaration) ds
             /\ Forall (fun n => usage n = import) is_)
       /\ (forall i n, nth_error names i = Some n ->
             resolved n = Some (match i with
                                | 0 => identifier
                                | 1 => identifier ++ "_"
                                | _ => identifier ++ "_" ++ Js.of_nat i
                                end))
       /\ (forall n, In n names -> usage n = declaration -> resolved n = Some identifier).
Proof.
  intros Hreg. pose proof (Names_register_new_inv _ _ Hreg) as Hinv. split.
  - intros token u Hin.
    assert (Hg : Names_group token ns <> []).
    { rewrite (inv_group _ _ Hinv). intros Hnil.
      assert (Hk : In (token, u) (filter (fun r => String.eqb (fst r) token) log)).
      { apply filter_In. split; [assumption|]. simpl. apply String.eqb_refl. }
      rewrite <- map_key_group_of, Hnil in Hk. exact Hk. }
    unfold Names_group in Hg.
    destruct (map_get String.eqb token (bound ns)) as [g|] eqn:E; [|congruence].
    exists (resolve_group token g). unfold Names_resolve. simpl.
    apply map_get_In in E.
    change (token, resolve_group token g)
      with ((fun '(identifier, names) => (identifier, resolve_group identifier names)) (token, g)).
    now apply in_map.
  - intros identifier names Hin.
    destruct (bound_resolve_In _ _ _ Hin) as (g & Hg & ->).
    pose proof (Names_inv_In _ _ _ _ Hinv Hg) as Hgroup.
    assert (Hdecl : forall n, In n g -> declared n = identifier).
    { intros n Hn. subst g. now apply group_of_declared in Hn. }
    assert (Hnth : forall i n, nth_error (resolve_group identifier g) i = Some n ->
              exists n0, In n0 g /\ n = Name_resolve (spelling identifier i) n0
                         /\ nth_error (filter is_declaration g ++ filter is_import g) i = Some n0).
    { intros i n Hi. rewrite nth_error_resolve_group in Hi.
      destruct (nth_error _ i) as [n0|] eqn:E; [|discriminate].
      injection Hi as <-. exists n0. repeat split; auto.
      apply nth_error_In in E. apply in_app_or in E.
      destruct E as [E|E]; apply filter_In in E; tauto. }
    repeat split.
    + rewrite map_key_resolve_group, Hgroup. now rewrite map_key_group_of.
    + destruct (resolve_group_split identifier g) as (ds & is_ & H1 & H2 & H3 & _). eauto.
    + intros i n Hi. destruct (Hnth i n Hi) as (n0 & Hn0 & -> & _).
      rewrite (resolved_spelling identifier i n0 (Hdecl _ Hn0)).
      now destruct i as [|[|i]].
    + intros n Hn Hu. apply In_nth_error in Hn. destruct Hn as [i Hi].
      destruct (Hnth i n Hi) as (n0 & Hn0 & -> & Hpos).
      assert (Hi0 : i = 0).
      { destruct (Nat.lt_ge_cases i (length (filter is_declaration g))) as [Hlt|Hge].
        - pose proof (inv_declared _ _ Hinv identifier) as H1. rewrite <- Hgroup in H1. lia.
        - rewrite nth_error_app2 in Hpos by assumption.
          apply nth_error_In, filter_In in Hpos. destruct Hpos as [_ Himp].
          unfold is_import in Himp. simpl in Hu. rewrite Hu in Himp. discriminate. }
      subst i. simpl. now rewrite (Hdecl _ Hn0).
Qed.

(** *** The spelling of one registration *)

Lemma nth_error_registered (log : list Registration) (k : nat) :
  nth_error (registered log) k = option_map (fun r => fresh_name (k, r)) (nth_error log k).
Proof.
  unfold registered, entries. rewrite nth_error_map, nth_error_entries_from.
  now destruct (nth_error log k).
Qed.

Lemma In_registered (log : list Registration) (n : Name) :
  In n (registered log) ->
  exists r, nth_error log (nid n) = Some r /\ n = fresh_name (nid n, r).
Proof.
  intros H. apply In_nth_error in H. destruct H as [k Hk].
  rewrite nth_error_registered in Hk.
  destruct (nth_error log k) as [r|] eqn:E; [|discriminate].
  injection Hk as <-. simpl. eauto.
Qed.

Lemma registered_nid_inj (log : list Registration) (n n' : Name) :
  In n (registered log) -> In n' (registered log) -> nid n = nid n' -> n = n'.
Proof.
  intros H H' Heq.
  destruct (In_registered _ _ H) as (r & Hr & ->).
  destruct (In_registered _ _ H') as (r' & Hr' & ->).
  simpl in *. rewrite Heq in Hr. congruence.
Qed.

Lemma NoDup_registered (log : list Registration) : NoDup (registered log).
Proof.
  apply NoDup_nth_error. intros i j Hi Hij.
  rewrite !nth_error_registered in Hij.
  destruct (nth_error log i) as [r|] eqn:Ei.
  - destruct (nth_error log j) as [r'|] eqn:Ej; [|discriminate].
    simpl in Hij. now injection Hij.
  - apply nth_error_None in Ei. unfold registered, entries in Hi.
    rewrite length_map in Hi.
    rewrite <- (map_snd_entries_from _ 0 log) in Ei at 1. rewrite length_map in Ei. lia.
Qed.

Lemma filter_filter (A : Type) (f g : A -> bool) (l : list A) :
  filter f (filter g l) = filter (fun x => g x && f x) l.
Proof.
  induction l as [|x l IH]; simpl; [reflexivity|].
  destruct (g x); simpl; [destruct (f x)|]; now rewrite IH.
Qed.

Lemma length_filter_group (token : string) (u : NameUsage) (log : list Registration) :
  length (filter (fun n => NameUsage_eqb (usage n) u) (group_of token log))
  = count_reg token u log.
Proof.
  unfold count_reg. rewrite <- filter_filter, <- map_key_group_of.
  rewrite (filter_map_comm _ _ (fun n : Name => (declared n, usage n))).
  now rewrite length_map.
Qed.

Lemma registered_app (l1 l2 : list Registration) :
  registered (l1 ++ l2) = (registered l1 ++ map fresh_name (entries_from (length l1) l2))%list.
Proof. unfold registered, entries. now rewrite entries_from_app, map_app. Qed.

Lemma nth_error_split_at (A : Type) (l : list A) (k : nat) (x : A) :
  nth_error l k = Some x -> l = (firstn k l ++ x :: skipn (S k) l)%list /\ length (firstn k l) = k.
Proof.
  revert k. induction l as [|y l IH]; intros [|k] H; try discriminate.
  - injection H as ->. auto.
  - destruct (IH _ H) as [H1 H2].
    change (skipn (S (S k)) (y :: l)) with (skipn (S k) l).
    cbn [firstn app length]. split; [now f_equal | now f_equal].
Qed.

(** Where a registration stands in its sorted group. *)
Lemma group_position (log : list Registration) (k : nat) (token : string) (u : NameUsage) :
  (forall t, length (filter is_declaration (group_of t log)) <= 1) ->
  nth_error log k = Some (token, u) ->
  nth_error (filter is_declaration (group_of token log) ++ filter is_import (group_of token log))
            (rank log k token u)
  = Some (fresh_name (k, (token, u))).
Proof.
  intros Hone Hk.
  assert (Hin : In (fresh_name (k, (token, u))) (group_of token log)).
  { apply filter_In. split.
    - apply (nth_error_In _ k). rewrite nth_error_registered, Hk. reflexivity.
    - unfold in_group. simpl. apply String.eqb_refl. }
  destruct u; unfold rank.
  - assert (Hd : In (fresh_name (k, (token, declaration)))
                    (filter is_declaration (group_of token log))).
    { apply filter_In. split; [assumption | reflexivity]. }
    specialize (Hone token).
    destruct (filter is_declaration (group_of token log)) as [|d [|d' ds]]; simpl in *.
    + contradiction.
    + destruct Hd as [->|[]]. reflexivity.
    + lia.
  - change is_declaration with (fun n => NameUsage_eqb (usage n) declaration).
    change is_import with (fun n => NameUsage_eqb (usage n) import).
    rewrite <- (length_filter_group token declaration log).
    rewrite nth_error_app2 by lia.
    replace (_ + _ - _) with (count_reg token import (firstn k log)) by lia.
    destruct (nth_error_split_at _ _ _ _ Hk) as [Hsplit Hlen].
    rewrite Hsplit at 1. unfold group_of at 1.
    rewrite registered_app, !filter_app. rewrite Hlen. simpl.
    unfold in_group at 2. simpl. rewrite String.eqb_refl. simpl.
    rewrite <- (length_filter_group token import (firstn k log)). unfold group_of.
    rewrite nth_error_app2 by lia. now rewrite Nat.sub_diag.
Qed.

Lemma NoDup_sorted_group (token : string) (log : list Registration) :
  NoDup (filter is_declaration (group_of token log) ++ filter is_import (group_of token log)).
Proof.
  rewrite <- sort_by_weight.
  apply (Permutation_NoDup (l := group_of token log)).
  - symmetry. apply sort_Permutation.
  - apply NoDup_filter, NoDup_registered.
Qed.

Lemma find_unique (A : Type) (f : A -> bool) (l : list A) (x : A) :
  In x l -> f x = true -> (forall y, In y l -> f y = true -> y = x) -> find f l = Some x.
Proof.
  intros Hin Hfx Huniq. destruct (find f l) as [y|] eqn:E.
  - apply find_some in E. destruct E as [Hy Hfy]. f_equal. now apply Huniq.
  - now rewrite (find_none _ _ E _ Hin) in Hfx.
Qed.

Lemma In_concat_values (V : Type) (m : JsMap string (list V)) (x : V) :
  In x (concat (map_values m)) <-> exists k g, In (k, g) m /\ In x g.
Proof.
  unfold map_values. rewrite in_concat. split.
  - intros (g & Hg & Hx). apply in_map_iff in Hg. destruct Hg as ([k g'] & <- & Hin). eauto.
  - intros (k & g & Hin & Hx). exists g. split; [|assumption].
    change g with (snd (k, g)). now apply in_map.
Qed.

(** The [Name] object of the [k]-th registration after [resolve]. *)
Theorem Names_deref_resolved (log : list Registration) (ns : Names) (k : nat)
    (token : string) (u : NameUsage) :
  Names_inv log ns ->
  nth_error log k = Some (token, u) ->
  Names_deref k (Names_resolve ns)
  = Some {| nid := k; declared := token; usage := u;
            resolved := Some (spelled token (rank log k token u)) |}.
Proof.
  intros Hinv Hk. unfold Names_deref.
  pose proof (group_position log k token u (inv_declared _ _ Hinv) Hk) as Hpos.
  set (n0 := fresh_name (k, (token, u))) in *.
  assert (Hg : In n0 (group_of token log)).
  { apply nth_error_In in Hpos. apply in_app_or in Hpos.
    destruct Hpos as [H|H]; apply filter_In in H; tauto. }
  assert (Hkey : exists g, In (token, g) (bound ns) /\ g = group_of token log).
  { pose proof (inv_group _ _ Hinv token) as E. unfold Names_group in E.
    destruct (map_get String.eqb token (bound ns)) as [g|] eqn:Eg.
    - exists g. split; [now apply map_get_In | assumption].
    - rewrite <- E in Hg. destruct Hg. }
  destruct Hkey as (g & Hgin & Hgeq).
  replace {| nid := k; declared := token; usage := u;
             resolved := Some (spelled token (rank log k token u)) |}
    with (Name_resolve (spelling token (rank log k token u)) n0)
    by (unfold Name_resolve; simpl; f_equal;
        pose proof (resolved_spelling token (rank log k token u) n0 eq_refl) as E;
        simpl in E; congruence).
  apply find_unique.
  - apply In_concat_values. exists token, (resolve_group token g). split.
    + unfold Names_resolve. simpl.
      change (token, resolve_group token g)
        with ((fun '(identifier, names) => (identifier, resolve_group identifier names)) (token, g)).
      now apply in_map.
    + apply (nth_error_In _ (rank log k token u)).
      rewrite nth_error_resolve_group, Hgeq, Hpos. reflexivity.
  - simpl. apply Nat.eqb_refl.
  - intros y Hy Hnid. apply In_concat_values in Hy.
    destruct Hy as (id & names & Hin & Hyin).
    destruct (bound_resolve_In _ _ _ Hin) as (g' & Hg' & ->).
    pose proof (Names_inv_In _ _ _ _ Hinv Hg') as Hg'eq. subst g'.
    apply In_nth_error in Hyin. destruct Hyin as [i Hi].
    rewrite nth_error_resolve_group in Hi.
    destruct (nth_error _ i) as [y0|] eqn:Ei; [|discriminate].
    injection Hi as <-. simpl in Hnid. apply Nat.eqb_eq in Hnid.
    assert (Hy0 : In y0 (group_of id log)).
    { apply nth_error_In in Ei. apply in_app_or in Ei.
      destruct Ei as [H|H]; apply filter_In in H; tauto. }
    assert (y0 = n0).
    { apply (registered_nid_inj log).
      - unfold group_of in Hy0. apply filter_In in Hy0. tauto.
      - unfold group_of in Hg. apply filter_In in Hg. tauto.
      - exact Hnid. }
    subst y0.
    assert (id = token) by (symmetry; now apply group_of_declared in Hy0).
    subst id.
    assert (i = rank log k token u).
    { pose proof (NoDup_sorted_group token log) as Hnd.
      rewrite NoDup_nth_error in Hnd. apply Hnd.
      - apply nth_error_Some. congruence.
      - congruence. }
    now subst i.
Qed.

(** *** The spellings of one group are distinct *)

Lemma append_cancel_l (s a b : string) : s ++ a = s ++ b -> a = b.
Proof. induction s as [|c s IH]; simpl; intros H; [assumption | injection H as H; auto]. Qed.

Lemma append_empty_r (s : string) : s ++ "" = s.
Proof. induction s as [|c s IH]; simpl; [reflexivity | now rewrite IH]. Qed.

Lemma to_uint_nonnil (n : nat) : Nat.to_uint n <> Decimal.Nil.
Proof.
  intros H. pose proof (Unsigned.of_to n) as E. rewrite H in E. simpl in E. subst n.
  discriminate H.
Qed.

Lemma of_nat_inj (i j : nat) : Js.of_nat i = Js.of_nat j -> i = j.
Proof.
  unfold Js.of_nat. intros H. apply Unsigned.to_uint_inj.
  pose proof (NilZero.usu _ (to_uint_nonnil i)) as Hi.
  pose proof (NilZero.usu _ (to_uint_nonnil j)) as Hj.
  rewrite H in Hi. congruence.
Qed.

Lemma of_nat_nonempty (i : nat) : Js.of_nat i <> "".
Proof.
  unfold Js.of_nat. pose proof (to_uint_nonnil i) as H.
  destruct (Nat.to_uint i); simpl; congruence.
Qed.

Lemma spelled_inj (identifier : string) (i j : nat) :
  spelled identifier i = spelled identifier j -> i = j.
Proof.
  assert (H0 : forall s, identifier = identifier ++ s -> s = "").
  { intros s H. rewrite <- (append_empty_r identifier) in H at 1.
    now apply append_cancel_l in H. }
  destruct i as [|[|i]], j as [|[|j]]; simpl; intros H; try reflexivity.
  - apply H0 in H. discriminate.
  - apply H0 in H. discriminate.
  - symmetry in H. apply H0 in H. discriminate.
  - apply append_cancel_l in H. simpl in H. injection H as H.
    symmetry in H. now apply of_nat_nonempty in H.
  - symmetry in H. apply H0 in H. discriminate.
  - apply append_cancel_l in H. simpl in H. injection H as H.
    now apply of_nat_nonempty in H.
  - apply append_cancel_l in H. simpl in H. injection H as H.
    apply of_nat_inj in H. congruence.
Qed.

(** Inside one group no two names get the same spelling. *)
Lemma resolve_group_distinct (identifier : string) (g : list Name) (i j : nat) (a b : Name) :
  Forall (fun n => declared n = identifier) g ->
  nth_error (resolve_group identifier g) i = Some a ->
  nth_error (resolve_group identifier g) j = Some b ->
  resolved a = resolved b -> i = j.
Proof.
  intros Hg Hi Hj Heq. rewrite nth_error_resolve_group in Hi, Hj.
  destruct (nth_error _ i) as [a0|] eqn:Ei; [|discriminate].
  destruct (nth_error _ j) as [b0|] eqn:Ej; [|discriminate].
  injection Hi as <-. injection Hj as <-.
  assert (Hin : forall k n, nth_error (filter is_declaration g ++ filter is_import g) k = Some n ->
                  declared n = identifier).
  { intros k n Hk. apply nth_error_In in Hk. rewrite Forall_forall in Hg. apply Hg.
    apply in_app_or in Hk. destruct Hk as [H|H]; apply filter_In in H; tauto. }
  rewrite (resolved_spelling identifier i a0 (Hin _ _ Ei)) in Heq.
  rewrite (resolved_spelling identifier j b0 (Hin _ _ Ej)) in Heq.
  injection Heq as Heq. now apply spelled_inj in Heq.
Qed.

(** C3, at the failing input: the declarations [Foo] and [Foo_] and one
    import of [Foo] are accepted; after [resolve] the import (the third
    [Name] object) is spelled [Foo_], and so is the declaration [Foo_] (the
    second), in another group. *)
Theorem suffixed_import_collides_with_declaration :
  exists ns,
    Names_register [("Foo", declaration); ("Foo_", declaration); ("Foo", import)] Names_new
      = Ok ns
    /\ Name_binding 1 (module_with_names (Names_resolve ns)) = Ok "Foo_"
    /\ Name_binding 2 (module_with_names (Names_resolve ns)) = Ok "Foo_"
    /\ option_map declared (Names_deref 1 (Names_resolve ns)) = Some "Foo_"
    /\ option_map declared (Names_deref 2 (Names_resolve ns)) = Some "Foo".
Proof. eexists. split; [reflexivity|]. repeat split. Qed.

(** ** The import table *)

Lemma Names_add_import (log : list Registration) (ns : Names) (token : string) :
  Names_inv log ns ->
  exists ns', Names_add token import ns = Ok (ns', fresh_name (length log, (token, import)))
              /\ Names_inv (log ++ [(token, import)]) ns'.
Proof.
  intros Hinv.
  destruct (Names_add token import ns) as [[ns' n]|msg] eqn:E.
  - destruct (Names_add_inv _ _ _ _ _ _ Hinv E) as [Hinv' ->]. eauto.
  - rewrite Names_add_eq, existsb_conflict in E. discriminate.
Qed.

Lemma apply_members_spec (ms : JsMap string Import) (u : ModuleURN)
    (log : list Registration) (ns : Names) :
  Names_inv log ns ->
  exists ns',
    apply_members ms ns = Ok (ns', name_members (length log) ms)
    /\ Names_inv (log ++ import_log (map (fun m => (u, snd m)) ms)) ns'.
Proof.
  revert log ns. induction ms as [|[k imp] ms IH]; simpl; intros log ns Hinv.
  - exists ns. rewrite app_nil_r. auto.
  - unfold Import_apply.
    destruct (Names_add_import log ns (raw_name imp) Hinv) as (ns1 & E & Hinv1).
    unfold raw_name in E. rewrite E. simpl.
    destruct (IH _ _ Hinv1) as (ns2 & E2 & Hinv2).
    rewrite E2. simpl. rewrite length_app in *. simpl in *.
    rewrite Nat.add_1_r in *. exists ns2. split; [reflexivity|].
    now rewrite <- app_assoc in Hinv2.
Qed.

Lemma apply_modules_spec (mods : JsMap ModuleURN ImportedModule)
    (log : list Registration) (ns : Names) :
  Names_inv log ns ->
  exists ns',
    apply_modules mods ns = Ok (ns', name_modules (length log) mods)
    /\ Names_inv (log ++ import_log (all_imports mods)) ns'.
Proof.
  revert log ns. induction mods as [|[urn imported] mods IH]; simpl; intros log ns Hinv.
  - exists ns. rewrite app_nil_r. auto.
  - destruct (apply_members_spec (members imported) urn log ns Hinv) as (ns1 & E & Hinv1).
    rewrite E. simpl.
    destruct (IH _ _ Hinv1) as (ns2 & E2 & Hinv2).
    rewrite E2. simpl. exists ns2.
    unfold import_log in *. rewrite length_app, !length_map in *.
    split; [reflexivity|].
    rewrite map_app, app_assoc. exact Hinv2.
Qed.

(** [imports.apply] never throws: it registers the raw name of every
    import, in order, as an import. *)
Lemma Imports_apply_spec (imps : Imports) (log : list Registration) (ns : Names) :
  Names_inv log ns ->
  exists ns',
    Imports_apply imps ns = Ok (ns', {| modules := name_modules (length log) (modules imps) |})
    /\ Names_inv (log ++ import_log (all_imports (modules imps))) ns'.
Proof.
  intros Hinv. unfold Imports_apply.
  destruct (apply_modules_spec (modules imps) log ns Hinv) as (ns' & E & Hinv').
  rewrite E. simpl. eauto.
Qed.

Lemma Imports_new_wf : Imports_wf Imports_new.
Proof. split; constructor. Qed.

Lemma map_set_Forall (V : Type) (P : string * V -> Prop) (k : string) (v : V)
    (m : JsMap string V) :
  Forall P m -> P (k, v) -> Forall P (map_set String.eqb k v m).
Proof.
  intros Hm Hkv. induction Hm as [|[k' v'] m Hx Hm IH]; simpl.
  - now constructor.
  - destruct (String.eqb k k'); constructor; auto.
Qed.

Lemma Import_merge_member (m : Import) (o : ImportOptions) : member (Import_merge m o) = member m.
Proof.
  unfold Import_merge.
  destruct (type_ m && _); simpl; destruct (negb _ && _); reflexivity.
Qed.

Lemma Imports_use_wf (source : ImportSource) (name : string) (options : option ImportOptions)
    (imps : Imports) :
  Imports_wf imps -> Imports_wf (fst (Imports_use source name options imps)).
Proof.
  intros [Hk Hm]. unfold Imports_use, Imports_module.
  assert (Hmember :
    forall mod_, members_wf (members mod_) ->
      members_wf
        (map_set String.eqb name
           match map_get String.eqb name (members mod_) with
           | Some m => match options with Some o => Import_merge m o | None => m end
           | None => Import_new name options
           end (members mod_))).
  { intros mod_ [Hk' Hm']. split; [now apply map_set_NoDup|].
    apply map_set_Forall; [assumption|]. simpl.
    destruct (map_get String.eqb name (members mod_)) as [m|] eqn:E; [|reflexivity].
    apply map_get_In in E. rewrite Forall_forall in Hm'. specialize (Hm' _ E). simpl in Hm'.
    destruct options; [now rewrite Import_merge_member | assumption]. }
  destruct (map_get String.eqb (Import_urn source) (modules imps)) as [mod_|] eqn:E; simpl.
  - split; simpl; [now apply map_set_NoDup|].
    apply map_set_Forall; [assumption|]. simpl. apply Hmember.
    apply map_get_In in E. rewrite Forall_forall in Hm. exact (Hm _ E).
  - split; simpl; [rewrite map_set_set; now apply map_set_NoDup|].
    rewrite map_set_set. apply map_set_Forall; [assumption|]. simpl.
    apply (Hmember {| src := source; members := [] |}). split; constructor.
Qed.

Lemma map_get_name_members (ms : JsMap string Import) (base j : nat) (k : string) (imp : Import) :
  NoDup (map_keys ms) -> nth_error ms j = Some (k, imp) ->
  map_get String.eqb k (name_members base ms) = Some (with_name (base + j) imp).
Proof.
  revert base j. induction ms as [|[k' imp'] ms IH]; intros base [|j] Hnd Hj; try discriminate.
  - simpl in Hj. injection Hj as -> ->. simpl. now rewrite String.eqb_refl, Nat.add_0_r.
  - simpl in Hj. simpl. inversion Hnd as [|? ? Hnotin Hnd']; subst.
    destruct (String.eqb k k') eqn:E.
    + apply String.eqb_eq in E. subst k'. exfalso. apply Hnotin.
      apply nth_error_In in Hj. change k with (fst (k, imp)). now apply in_map.
    + rewrite (IH (S base) j Hnd' Hj). do 2 f_equal. lia.
Qed.

Lemma all_imports_keys (mods : JsMap ModuleURN ImportedModule) (u : ModuleURN) (i : Import) :
  In (u, i) (all_imports mods) -> In u (map_keys mods).
Proof.
  unfold all_imports. rewrite in_flat_map. intros ([urn imported] & Hin & H).
  apply in_map_iff in H. destruct H as (m & Heq & _). simpl in Heq. injection Heq as <- _.
  change urn with (fst (urn, imported)). now apply in_map.
Qed.

(** The object behind a reference after [apply]: the import at index [idx]
    holds the identity [base + idx]. *)
Lemma Imports_deref_named (mods : JsMap ModuleURN ImportedModule) (base idx : nat)
    (u : ModuleURN) (i : Import) :
  Imports_wf {| modules := mods |} ->
  nth_error (all_imports mods) idx = Some (u, i) ->
  Imports_deref (u, member i) {| modules := name_modules base mods |}
  = Some (with_name (base + idx) i).
Proof.
  unfold Imports_wf, Imports_deref. simpl.
  revert base idx. induction mods as [|[urn imported] mods IH]; intros base idx [Hnd Hwf] Hidx.
  - destruct idx; discriminate.
  - inversion Hnd as [|? ? Hnotin Hnd']; subst.
    inversion Hwf as [|? ? [Hmk Hmm] Hwf']; subst. simpl in *.
    destruct (Nat.lt_ge_cases idx (length (members imported))) as [Hlt|Hge].
    + rewrite nth_error_app1 in Hidx by now rewrite length_map.
      rewrite nth_error_map in Hidx.
      destruct (nth_error (members imported) idx) as [[k imp]|] eqn:E; [|discriminate].
      simpl in Hidx. injection Hidx as <- <-.
      rewrite String.eqb_refl. simpl.
      rewrite Forall_forall in Hmm. pose proof (Hmm _ (nth_error_In _ _ E)) as Hkey.
      simpl in Hkey. subst k. now apply map_get_name_members.
    + rewrite nth_error_app2 in Hidx by now rewrite length_map.
      rewrite length_map in Hidx.
      assert (Hu : String.eqb u urn = false).
      { apply String.eqb_neq. intros ->. apply Hnotin.
        apply (all_imports_keys mods urn i). now apply nth_error_In in Hidx. }
      rewrite Hu. rewrite (IH _ _ (conj Hnd' Hwf') Hidx). do 2 f_equal. lia.
Qed.

(** *** Which import keeps the raw name *)

Lemma count_reg_app (token : string) (u : NameUsage) (l1 l2 : list Registration) :
  count_reg token u (l1 ++ l2) = count_reg token u l1 + count_reg token u l2.
Proof. unfold count_reg. now rewrite filter_app, length_app. Qed.

Lemma count_reg_absent (token : string) (u : NameUsage) (log : list Registration) :
  ~ In token (map fst log) -> count_reg token u log = 0.
Proof.
  unfold count_reg. induction log as [|[t v] log IH]; simpl; intros H; [reflexivity|].
  destruct (String.eqb t token) eqn:E.
  - apply String.eqb_eq in E. tauto.
  - simpl. apply IH. tauto.
Qed.

Lemma count_reg_declaration_imports (token : string) (l : list (ModuleURN * Import)) :
  count_reg token declaration (import_log l) = 0.
Proof.
  unfold count_reg, import_log. induction l as [|e l IH]; simpl; [reflexivity|].
  now rewrite andb_false_r.
Qed.

Lemma count_reg_import_other (token : string) (l : list (ModuleURN * Import)) :
  Forall (fun e => raw_name (snd e) <> token) l -> count_reg token import (import_log l) = 0.
Proof.
  unfold count_reg, import_log. induction 1 as [|e l He _ IH]; simpl; [reflexivity|].
  apply String.eqb_neq in He. now rewrite He.
Qed.

Lemma firstn_import_log (l1 l2 : list (ModuleURN * Import)) (log : list Registration) :
  firstn (length log + length l1) (log ++ import_log (l1 ++ l2)) = (log ++ import_log l1)%list.
Proof.
  rewrite firstn_app_2. f_equal. unfold import_log. rewrite map_app.
  rewrite <- (length_map (fun e => (raw_name (snd e), import)) l1).
  rewrite <- (Nat.add_0_r (length (map _ l1))), firstn_app_2. simpl. now rewrite app_nil_r.
Qed.

Lemma nth_error_import_log (l1 l2 : list (ModuleURN * Import)) (e : ModuleURN * Import)
    (log : list Registration) :
  nth_error (log ++ import_log (l1 ++ e :: l2)) (length log + length l1)
  = Some (raw_name (snd e), import).
Proof.
  rewrite nth_error_app2 by lia.
  replace (length log + length l1 - length log) with (length l1) by lia.
  unfold import_log. rewrite map_app. simpl.
  rewrite nth_error_app2 by (rewrite length_map; lia).
  rewrite length_map, Nat.sub_diag. reflexivity.
Qed.

(** The spelling of the import at index [idx] of the table. *)
Lemma Import_binding_resolved (log : list Registration) (m : Module) (idx : nat)
    (u : ModuleURN) (i : Import) :
  Names_inv log (names m) ->
  Imports_wf (imports m) ->
  nth_error (all_imports (modules (imports m))) idx = Some (u, i) ->
  exists m',
    finish_apply m = Ok m'
    /\ Import_binding (u, member i) m'
       = Ok (spelled (raw_name i)
               (rank (log ++ import_log (all_imports (modules (imports m))))
                     (length log + idx) (raw_name i) import)).
Proof.
  intros Hinv Hwf Hidx. unfold finish_apply.
  destruct (Imports_apply_spec (imports m) log (names m) Hinv) as (ns' & E & Hinv').
  rewrite E. simpl. eexists. split; [reflexivity|].
  unfold Import_binding. simpl.
  destruct (imports m) as [mods]. simpl in *.
  rewrite (Imports_deref_named mods (length log) idx u i Hwf Hidx).
  unfold Import_token. simpl.
  destruct (nth_error_split_at _ _ _ _ Hidx) as [Hsplit Hlen].
  assert (Hk : nth_error (log ++ import_log (all_imports mods)) (length log + idx)
               = Some (raw_name i, import)).
  { pose proof (nth_error_import_log (firstn idx (all_imports mods))
                  (skipn (S idx) (all_imports mods)) (u, i) log) as Hn.
    rewrite <- Hsplit, Hlen in Hn. exact Hn. }
  rewrite (Names_deref_resolved _ _ _ _ _ Hinv' Hk). reflexivity.
Qed.

(** C4, as the code has it. In a module whose members registered no name
    [N], let the import table hold exactly two imports of raw name [N]: in
    the order in which the table is visited the imports are [A], the import
    [i1] of the source with key [u1], [B], the import [i2] of the source
    with key [u2], and [C]. Then [apply] and [resolve] succeed, [i1] is
    spelled [N] and [i2] is spelled [N_]: the source that entered the table
    first keeps the raw name. *)
Theorem first_source_keeps_raw_name (log : list Registration) (m : Module) (N : string)
    (A B C : list (ModuleURN * Import)) (u1 u2 : ModuleURN) (i1 i2 : Import) :
  Names_register log Names_new = Ok (names m) ->
  ~ In N (map fst log) ->
  Imports_wf (imports m) ->
  all_imports (modules (imports m)) = (A ++ (u1, i1) :: B ++ (u2, i2) :: C)%list ->
  raw_name i1 = N -> raw_name i2 = N ->
  Forall (fun e => raw_name (snd e) <> N) (A ++ B ++ C) ->
  exists m',
    finish_apply m = Ok m'
    /\ Import_binding (u1, member i1) m' = Ok N
    /\ Import_binding (u2, member i2) m' = Ok (N ++ "_").
Proof.
  intros Hreg Hfresh Hwf Hall H1 H2 Hothers.
  pose proof (Names_register_new_inv _ _ Hreg) as Hinv.
  apply Forall_app in Hothers. destruct Hothers as [HA Hothers].
  apply Forall_app in Hothers. destruct Hothers as [HB HC].
  assert (Hidx1 : nth_error (all_imports (modules (imports m))) (length A) = Some (u1, i1)).
  { rewrite Hall, nth_error_app2, Nat.sub_diag by lia. reflexivity. }
  assert (Hidx2 : nth_error (all_imports (modules (imports m))) (length (A ++ (u1, i1) :: B))
                  = Some (u2, i2)).
  { rewrite Hall.
    change (A ++ (u1, i1) :: B ++ (u2, i2) :: C)%list
      with (A ++ ((u1, i1) :: B) ++ (u2, i2) :: C)%list.
    rewrite app_assoc, nth_error_app2, Nat.sub_diag by lia. reflexivity. }
  destruct (Import_binding_resolved log m _ u1 i1 Hinv Hwf Hidx1) as (m' & Hm' & Hb1).
  destruct (Import_binding_resolved log m _ u2 i2 Hinv Hwf Hidx2) as (m'' & Hm'' & Hb2).
  rewrite Hm' in Hm''. injection Hm'' as <-.
  exists m'. split; [assumption|]. split.
  - rewrite Hb1, H1. unfold rank.
    rewrite count_reg_app, count_reg_declaration_imports, (count_reg_absent _ _ _ Hfresh).
    rewrite Hall, firstn_import_log, count_reg_app, (count_reg_absent _ _ _ Hfresh).
    now rewrite (count_reg_import_other _ _ HA).
  - rewrite Hb2, H2. unfold rank.
    rewrite count_reg_app, count_reg_declaration_imports, (count_reg_absent _ _ _ Hfresh).
    rewrite Hall.
    change (A ++ (u1, i1) :: B ++ (u2, i2) :: C)%list
      with (A ++ ((u1, i1) :: B) ++ (u2, i2) :: C)%list.
    rewrite app_assoc, firstn_import_log, count_reg_app, (count_reg_absent _ _ _ Hfresh).
    unfold import_log. rewrite map_app. fold (import_log A). simpl.
    rewrite count_reg_app, (count_reg_import_other _ _ HA).
    unfold count_reg at 1. simpl. rewrite H1, String.eqb_refl. simpl.
    fold (import_log B). fold (count_reg N import (import_log B)).
    now rewrite (count_reg_import_other _ _ HB).
Qed.

(** C4, as stated, fails: the same two imports, registered in the two
    orders, give the raw name to different sources. *)
Lemma registration_order_decides :
  let a := SrcApi "a" None in
  let b := SrcApi "b" None in
  (exists m, import_all [(a, "Thing", None); (b, "Thing", None)] = Ok m
             /\ Import_binding (Import_urn a, "Thing") m = Ok "Thing"
             /\ Import_binding (Import_urn b, "Thing") m = Ok "Thing_")
  /\ (exists m, import_all [(b, "Thing", None); (a, "Thing", None)] = Ok m
                /\ Import_binding (Import_urn a, "Thing") m = Ok "Thing_"
                /\ Import_binding (Import_urn b, "Thing") m = Ok "Thing").
Proof. split; (eexists; split; [reflexivity|]; split; reflexivity). Qed.

Lemma first_source_keeps_raw_name_witness :
  exists m',
    finish_apply sample_module = Ok m'
    /\ Import_binding ("kure:api:a", "Thing") m' = Ok "Thing"
    /\ Import_binding ("kure:api:b", "Thing") m' = Ok ("Thing" ++ "_").
Proof.
  apply (first_source_keeps_raw_name sample_log sample_module "Thing"
           [("kure:api:a", Import_new "Other" None)] [] []
           "kure:api:a" "kure:api:b"
           (Import_new "Thing" type_true) (Import_new "Thing" type_true)).
  - reflexivity.
  - simpl. intros [H|[H|[]]]; discriminate H.
  - apply (Imports_use_wf (SrcApi "b" None) "Thing" type_true).
    apply (Imports_use_wf (SrcApi "a" None) "Thing" type_true).
    apply (Imports_use_wf (SrcApi "a" None) "Other" None).
    exact Imports_new_wf.
  - reflexivity.
  - reflexivity.
  - reflexivity.
  - repeat constructor. simpl. discriminate.
Defined.

Lemma resolve_groups_by_raw_name_witness :
  (forall token u, In (token, u) sample_registrations ->
     exists names, In (token, names) (bound (Names_resolve sample_names)))
  /\ forall identifier names,
       In (identifier, names) (bound (Names_resolve sample_names)) ->
       Permutation (map (fun n => (declared n, usage n)) names)
                   (filter (fun r => String.eqb (fst r) identifier) sample_registrations)
       /\ (exists ds is_,
             names = (ds ++ is_)%list
             /\ Forall (fun n => usage n = declaration) ds
             /\ Forall (fun n => usage n = import) is_)
       /\ (forall i n, nth_error names i = Some n ->
             resolved n = Some (match i with
                                | 0 => identifier
                                | 1 => identifier ++ "_"
                                | _ => identifier ++ "_" ++ Js.of_nat i
                                end))
       /\ (forall n, In n names -> usage n = declaration -> resolved n = Some identifier).
Proof. exact (resolve_groups_by_raw_name sample_registrations sample_names eq_refl). Defined.

(** The group of [Foo] in the sample, after [resolve]. *)
Example sample_group_Foo :
  map_get String.eqb "Foo" (bound (Names_resolve sample_names))
  = Some [ {| nid := 2; declared := "Foo"; usage := declaration; resolved := Some "Foo" |};
           {| nid := 0; declared := "Foo"; usage := import; resolved := Some "Foo_" |};
           {| nid := 3; declared := "Foo"; usage := import; resolved := Some "Foo_2" |};
           {| nid := 4; declared := "Foo"; usage := import; resolved := Some "Foo_3" |} ].
Proof. reflexivity. Qed.

(** *** [imports.use] *)

Lemma Imports_use_ref (source : ImportSource) (name : string) (options : option ImportOptions)
    (imps : Imports) :
  snd (Imports_use source name options imps) = (Import_urn source, name).
Proof.
  unfold Imports_use. now destruct (Imports_module source imps).
Qed.

(** The object that a call of [use] leaves behind its reference: a new
    [Import] for a new pair, the merge for options that are not [null],
    and the object as it was for a call without options. *)
Lemma Imports_use_deref (source : ImportSource) (name : string)
    (options : option ImportOptions) (imps : Imports) :
  Imports_deref (Import_urn source, name) (fst (Imports_use source name options imps))
  = Some match Imports_deref (Import_urn source, name) imps with
         | None => Import_new name options
         | Some m => match options with Some o => Import_merge m o | None => m end
         end.
Proof.
  unfold Imports_use, Imports_module, Imports_deref, ModuleURN. simpl.
  destruct (map_get String.eqb (Import_urn source) (modules imps)) as [mod_|] eqn:E; simpl.
  - rewrite map_get_set_same. simpl. now rewrite map_get_set_same.
  - rewrite map_get_set_same. simpl. now rewrite String.eqb_refl.
Qed.

(** With options, a use that does not ask for a type-only import makes the
    import a value import, and a use that asks for one leaves it as it is. *)
Lemma Import_merge_type (m : Import) (o : ImportOptions) :
  type_ (Import_merge m o)
  = type_ m && match opt_type o with Some b => b | None => false end.
Proof.
  unfold Import_merge.
  destruct (type_ m) eqn:Et, (opt_type o) as [[|]|]; simpl;
    destruct (negb (Js.otruthy (as_ m)) && Js.otruthy (opt_as o)); simpl; auto.
Qed.

(** An alias is taken only while the import has none. *)
Lemma Import_merge_as (m : Import) (o : ImportOptions) :
  as_ (Import_merge m o)
  = if Js.otruthy (as_ m) then as_ m
    else if Js.otruthy (opt_as o) then opt_as o else as_ m.
Proof.
  unfold Import_merge.
  destruct (type_ m && _); simpl;
    destruct (Js.otruthy (as_ m)); simpl; auto;
    destruct (Js.otruthy (opt_as o)); reflexivity.
Qed.

(** C5, at the failing input: [factory] is first used type-only, then used
    again with no options, which asks for a value ([new Import] makes such a
    use a value import). The two calls return the same reference, and the
    import is still type-only. *)
Theorem use_without_options_keeps_type_only :
  exists imps1 r1 imps2 r2,
    Imports_use lib_schema "factory" type_true Imports_new = (imps1, r1)
    /\ Imports_use lib_schema "factory" None imps1 = (imps2, r2)
    /\ r2 = r1
    /\ option_map type_ (Imports_deref r2 imps2) = Some true
    /\ type_ (Import_new "factory" None) = false.
Proof. do 4 eexists. repeat split. Qed.

(** ** Paths of remote modules *)

Lemma append_assoc (a b c : string) : (a ++ b) ++ c = a ++ b ++ c.
Proof. induction a as [|x a IH]; simpl; [reflexivity | now rewrite IH]. Qed.

(** C8, as the code has it. The path of a remote import of kind [api]: for
    the engine [deno] the version is looked up by the package name in the
    dependency map of the context; with a version that is not empty the
    target is [pkg@version], and [@version] for the package [kubernetes],
    whose name is dropped; with no version the target is the package name
    alone, for [kubernetes] too. For the engine [node] the path is the
    scoped package name, with no version. *)
Theorem api_path {host : Host} (pkg : string) (p : option string) (ctx : Context) :
  Imports_path (SrcApi pkg p) ctx
  = let version := option_map dep_version (map_get String.eqb pkg (dependencies ctx)) in
    let file := if Js.otruthy p then match p with Some f => f | None => "" end else "mod.ts" in
    match engine ctx with
    | deno =>
        match version with
        | Some (String c v) =>
            "https://kure.sh/api/"
              ++ (if String.eqb pkg "kubernetes" then "" else pkg) ++ "@" ++ String c v
              ++ "/" ++ file
        | _ => "https://kure.sh/api/" ++ pkg ++ "/" ++ file
        end
    | node =>
        "@kure-api/" ++ Js.replaceAll "/" "-" pkg
          ++ (if Js.otruthy p then "/" ++ match p with Some f => f | None => "" end else "")
    end.
Proof.
  unfold Imports_path. destruct (engine ctx); [|reflexivity].
  destruct (map_get String.eqb pkg (dependencies ctx)) as [dep|]; simpl.
  - destruct (dep_version dep) as [|c v]; simpl.
    + rewrite andb_false_r. now rewrite append_empty_r.
    + rewrite andb_true_r. destruct (String.eqb pkg "kubernetes"); simpl.
      * reflexivity.
      * now rewrite !append_assoc.
  - rewrite andb_false_r. now rewrite append_empty_r.
Qed.

(** C8, as stated, fails: with a version in the dependency map the path of
    [kubernetes] carries that version; without one it is the bare package
    name, as for every other package; and for [node] no version is looked
    up at all. *)
Lemma kubernetes_path_carries_version :
  let source := SrcApi "kubernetes" (Some "core/v1.ts") in
  let listed := [ {| dep_package := "kubernetes"; dep_version := "1.30" |} ] in
  (forall (host : Host) (m : Module),
     Imports_path source (context_with listed m deno) = "https://kure.sh/api/@1.30/core/v1.ts")
  /\ (forall (host : Host) (m : Module),
        Imports_path source (context_with [] m deno) = "https://kure.sh/api/kubernetes/core/v1.ts"
        /\ Imports_path (SrcApi "other" (Some "core/v1.ts")) (context_with [] m deno)
           = "https://kure.sh/api/other/core/v1.ts")
  /\ (forall (host : Host) (m : Module),
        Imports_path source (context_with listed m node) = "@kure-api/kubernetes/core/v1.ts").
Proof. repeat split. Qed.

(** ** The type compiler *)

(** C1, as the code has it. A property renders as its doc block, two
    spaces, [name: T;] when it is required and [name?: T;] when it is not,
    where [T] is the text of its value type: the flag [required] decides the
    question mark only. The text of an [optional] type is the text of the
    wrapped type followed by [ | null], so a property whose value is
    [optional] renders with [T | null], required or not. *)
Theorem property_rendering :
  (forall (property : Property) (m : Module) (ctx : Context),
     run (gen_property property) m ctx
     = '(m', T) <- run (gen_type (prop_value property) false) m ctx ;;
       Ok (m', doc (prop_meta property) 1 ++ "  " ++ member_name (prop_name property)
                 ++ (if required property then "" else "?") ++ ": " ++ T ++ ";"))
  /\ (forall (name : string) (req : bool) (value : Type_) (meta : DefinitionMeta)
        (m : Module) (ctx : Context),
        run (gen_property {| prop_name := name; required := req;
                             prop_value := TOptional value; prop_meta := meta |}) m ctx
        = '(m', T) <- run (gen_type value false) m ctx ;;
          Ok (m', doc meta 1 ++ "  " ++ member_name name
                    ++ (if req then "" else "?") ++ ": " ++ T ++ " | null" ++ ";")).
Proof.
  assert (H1 : forall (property : Property) (m : Module) (ctx : Context),
     run (gen_property property) m ctx
     = '(m', T) <- run (gen_type (prop_value property) false) m ctx ;;
       Ok (m', doc (prop_meta property) 1 ++ "  " ++ member_name (prop_name property)
                 ++ (if required property then "" else "?") ++ ": " ++ T ++ ";")).
  { intros property m ctx. unfold run, gen_property, GenRec.gen_property.
    destruct (gen_type (prop_value property) false) as [valueType|msg]; simpl; [|reflexivity].
    destruct (valueType m) as [[m' value]|msg]; simpl; [|reflexivity].
    destruct (value ctx) as [v|msg]; reflexivity. }
  split; [exact H1|].
  intros name req value meta m ctx. rewrite H1. simpl.
  unfold run, GenRec.gen_optional.
  destruct (gen_type value false) as [valueType|msg]; simpl; [|reflexivity].
  destruct (valueType m) as [[m' value']|msg]; simpl; [|reflexivity].
  destruct (value' ctx) as [v|msg]; simpl; [|reflexivity].
  now rewrite !append_assoc.
Qed.

(** C1, as stated, fails: a property that is not required and whose value
    is the plain string type renders without [| null]. *)
Lemma optional_property_without_null :
  let property :=
    {| prop_name := "x"; required := false; prop_value := TString None; prop_meta := no_meta |} in
  let ctx := context_with [] empty_module deno in
  run (gen_type (prop_value property) false) empty_module ctx = Ok (empty_module, "string")
  /\ run (gen_property property) empty_module ctx = Ok (empty_module, "  x?: string;")
  /\ "  x?: string;" <> "  x?: string | null;".
Proof. repeat split. discriminate. Qed.

(** *** Induction on types *)

Section TypeInduction.
Variable P : Type_ -> Prop.
Hypothesis P_string : forall enum, P (TString enum).
Hypothesis P_integer : P TInteger.
Hypothesis P_float : P TFloat.
Hypothesis P_boolean : P TBoolean.
Hypothesis P_array : forall values, P values -> P (TArray values).
Hypothesis P_map : forall values, P values -> P (TMap values).
Hypothesis P_object : forall properties inherit,
  Forall (fun p => P (prop_value p)) properties -> P (TObject properties inherit).
Hypothesis P_union : forall values, Forall P values -> P (TUnion values).
Hypothesis P_optional : forall value, P value -> P (TOptional value).
Hypothesis P_reference : forall ref, P (TReference ref).
Hypothesis P_unknown : P TUnknown.
Hypothesis P_resource : forall properties scope,
  Forall (fun p => P (prop_value p)) properties -> P (TResource properties scope).

Fixpoint Type_induction (t : Type_) : P t :=
  let properties_ind :=
    fix go (ps : list Property) : Forall (fun p => P (prop_value p)) ps :=
      match ps with
      | [] => Forall_nil _
      | p :: ps' => Forall_cons p (Type_induction (prop_value p)) (go ps')
      end in
  match t with
  | TString enum => P_string enum
  | TInteger => P_integer
  | TFloat => P_float
  | TBoolean => P_boolean
  | TArray values => P_array values (Type_induction values)
  | TMap values => P_map values (Type_induction values)
  | TObject properties inherit => P_object properties inherit (properties_ind properties)
  | TUnion values =>
      P_union values
        ((fix go (ts : list Type_) : Forall P ts :=
            match ts with
            | [] => Forall_nil _
            | t' :: ts' => Forall_cons t' (Type_induction t') (go ts')
            end) values)
  | TOptional value => P_optional value (Type_induction value)
  | TReference ref => P_reference ref
  | TUnknown => P_unknown
  | TResource properties scope => P_resource properties scope (properties_ind properties)
  end.
End TypeInduction.

(** *** Generators of component types *)

Lemma mapM_Err_inv (A B : Type) (f : A -> result B) (l : list A) (msg : string) :
  mapM f l = Err msg -> exists x, In x l /\ f x = Err msg.
Proof.
  induction l as [|x l IH]; simpl; [discriminate|].
  intros H. apply bind_Err in H. destruct H as [H|(y & Hy & H)].
  - exists x. auto.
  - apply bind_Err in H. destruct H as [H|(ys & Hys & H)]; [|discriminate].
    destruct (IH H) as (x' & Hin & Hx'). exists x'. auto.
Qed.

Lemma apply_each_type_generators (gs : list Generator) :
  Forall type_generator gs ->
  forall m, exists m' rs, apply_each gs m = Ok (m', rs) /\ names m' = names m.
Proof.
  induction 1 as [|g gs Hg _ IH]; intros m; simpl.
  - eauto.
  - destruct (Hg m) as (m1 & r & E & Hn). rewrite E. simpl.
    destruct (IH m1) as (m2 & rs & E2 & Hn2). rewrite E2. simpl.
    eexists _, _. split; [reflexivity | congruence].
Qed.

Lemma Module_import_names (source : ImportSource) (name : string)
    (options : option ImportOptions) (m : Module) :
  names (fst (Module_import source name options m)) = names m.
Proof. unfold Module_import. now destruct (Imports_use source name options (imports m)). Qed.

Lemma gen_reference_type_generator (ref : TypeReference) : type_generator (gen_reference ref).
Proof.
  intros m. unfold gen_reference. destruct (target_scope ref) as [scope|].
  - match goal with |- context [Module_import ?s ?n ?o m] =>
      pose proof (Module_import_names s n o m) as Hn;
      destruct (Module_import s n o m) as [m' b] end.
    simpl in Hn. eauto.
  - eauto.
Qed.

(** A generator that binds the result of one inner generator. *)
Lemma wrap_type_generator (inner : Generator) (k : Renderer -> Renderer) :
  type_generator inner ->
  type_generator (fun module => '(module', value) <- inner module ;; Ok (module', k value)).
Proof.
  intros Hinner m. destruct (Hinner m) as (m' & r & E & Hn). rewrite E. simpl. eauto.
Qed.

Lemma Forall2_Forall_transfer (A B : Type) (R : A -> B -> Prop) (P : A -> Prop) (Q : B -> Prop)
    (l : list A) (l' : list B) :
  Forall2 R l l' -> Forall P l -> (forall x y, In x l -> P x -> R x y -> Q y) -> Forall Q l'.
Proof.
  induction 1 as [|x y l l' Hxy _ IH]; intros HP Himp; [constructor|].
  inversion HP; subst. constructor.
  - apply (Himp x y); simpl; auto.
  - apply IH; [assumption|]. intros x' y' Hin. apply Himp. now right.
Qed.

Lemma gen_property_result (p : Property) :
  gen_type_result (prop_value p) ->
  match gen_property p with
  | Ok g => type_generator g
  | Err msg => msg = resource_not_allowed
  end.
Proof.
  intros H. unfold gen_property, GenRec.gen_property. specialize (H false).
  destruct (gen_type (prop_value p) false) as [valueType|msg]; simpl; [|assumption].
  now apply wrap_type_generator.
Qed.

Lemma gen_object_result (properties : list Property) (inherit : option (list TypeReference))
    (declaration : bool) :
  Forall (fun p => gen_type_result (prop_value p)) properties ->
  match gen_object properties inherit declaration with
  | Ok g => type_generator g
  | Err msg => msg = resource_not_allowed
  end.
Proof.
  intros Hps. unfold gen_object, GenRec.gen_object. fold gen_property.
  destruct (mapM gen_property properties) as [propertyDefs|msg] eqn:E; simpl.
  - apply mapM_Ok_Forall2 in E.
    assert (Hdefs : Forall type_generator propertyDefs).
    { apply (Forall2_Forall_transfer _ _ _ _ _ _ _ E Hps).
      intros p g _ Hp Hg. pose proof (gen_property_result p Hp) as H. now rewrite Hg in H. }
    assert (Hparents : forall refs, Forall type_generator (map gen_reference refs)).
    { intros refs. apply Forall_forall. intros g Hg. apply in_map_iff in Hg.
      destruct Hg as (ref & <- & _). apply gen_reference_type_generator. }
    intros m.
    match goal with |- context [apply_each ?parents m] =>
      assert (Hp : Forall type_generator parents)
        by (destruct inherit as [refs|]; [destruct (nonempty refs && negb declaration)|];
            auto using Forall_nil);
      destruct (apply_each_type_generators parents Hp m) as (m1 & ps & E1 & Hn1)
    end.
    rewrite E1. simpl.
    destruct (apply_each_type_generators propertyDefs Hdefs m1) as (m2 & qs & E2 & Hn2).
    rewrite E2. simpl. eexists _, _. split; [reflexivity | congruence].
  - apply mapM_Err_inv in E. destruct E as (p & Hin & Hp).
    rewrite Forall_forall in Hps. pose proof (gen_property_result p (Hps p Hin)) as H.
    now rewrite Hp in H.
Qed.

Theorem gen_type_spec (t : Type_) : gen_type_result t.
Proof.
  induction t as [enum| | | |values IH|values IH|properties inherit IH|values IH|value IH
                 |ref| |properties scope IH] using Type_induction;
    intros declaration; simpl;
    try (intro m; eexists _, _; split; reflexivity).
  - (* array *)
    unfold GenRec.gen_array. specialize (IH false).
    destruct (gen_type values false); simpl; [now apply wrap_type_generator | assumption].
  - (* map *)
    unfold GenRec.gen_map. specialize (IH false).
    destruct (gen_type values false); simpl; [now apply wrap_type_generator | assumption].
  - (* object *)
    now apply gen_object_result.
  - (* union *)
    unfold GenRec.gen_union.
    destruct (mapM (fun value => gen_type value false) values) as [valueTypes|msg] eqn:E; simpl.
    + apply mapM_Ok_Forall2 in E.
      assert (Hgs : Forall type_generator valueTypes).
      { apply (Forall2_Forall_transfer _ _ _ _ _ _ _ E IH).
        intros t g _ Ht Hg. specialize (Ht false). now rewrite Hg in Ht. }
      intros m. destruct (apply_each_type_generators valueTypes Hgs m) as (m' & rs & E' & Hn).
      rewrite E'. simpl. eauto.
    + apply mapM_Err_inv in E. destruct E as (t & Hin & Ht).
      rewrite Forall_forall in IH. specialize (IH t Hin false). now rewrite Ht in IH.
  - (* optional *)
    unfold GenRec.gen_optional. specialize (IH false).
    destruct (gen_type value false); simpl; [now apply wrap_type_generator | assumption].
  - (* reference *)
    apply gen_reference_type_generator.
  - (* resource *)
    reflexivity.
Qed.

(** ** Resources without a metadata reference *)

Lemma find_none_other (A : Type) (f g : A -> bool) (l : list A) (x : A) :
  find g l = None -> find f l = Some x -> g x = false.
Proof.
  intros Hg Hf. apply find_some in Hf. destruct Hf as [Hin _].
  exact (find_none _ _ Hg _ Hin).
Qed.

Lemma gen_resource_missing_metadata (d : Definition_) (properties : list Property)
    (scope : string) :
  find metadata_reference properties = None ->
  gen_resource d properties scope = Err (def_name d ++ ": expected metadata reference property").
Proof.
  intros Hnone. unfold gen_resource.
  destruct (find named_metadata properties) as [[name req value meta]|] eqn:E; [|reflexivity].
  pose proof (find_none_other _ _ _ _ _ Hnone E) as Hf.
  apply find_some in E. destruct E as [_ Hname].
  unfold metadata_reference, named_metadata in *. simpl in *. rewrite Hname in Hf. simpl in Hf.
  destruct value; simpl in Hf; try reflexivity. discriminate.
Qed.

Lemma gen_resource_error (d : Definition_) (properties : list Property) (scope msg : string) :
  gen_resource d properties scope = Err msg -> construction_error msg.
Proof.
  unfold gen_resource. intros H.
  assert (Hdefault : @Err Generator (def_name d ++ ": expected metadata reference property")
                     = Err msg -> construction_error msg).
  { intros [= <-]. right. left. eauto. }
  destruct (find named_metadata properties) as [[name req value meta]|]; [|auto].
  destruct value; auto.
  apply bind_Err in H. destruct H as [H|(g & _ & H)]; [|discriminate].
  pose proof (gen_object_result (drop_found named_metadata properties) None false) as Hobj.
  rewrite H in Hobj. right. right. apply Hobj.
  apply Forall_forall. intros p _. apply gen_type_spec.
Qed.

Lemma gen_definition_error (d : Definition_) (msg : string) :
  gen_definition d = Err msg -> construction_error msg.
Proof.
  unfold gen_definition, gen_interface. intros H.
  assert (Htype : forall t b (k : Generator -> result Generator),
                    bind (gen_type t b) k = Err msg ->
                    (forall g, k g <> Err msg) -> construction_error msg).
  { intros t b k Hb Hk. apply bind_Err in Hb. destruct Hb as [Hb|(g & _ & Hb)].
    - pose proof (gen_type_spec t b) as Hs. rewrite Hb in Hs. right. right. exact Hs.
    - now apply Hk in Hb. }
  destruct (def_value d) eqn:Ev;
    try (apply (Htype _ _ _ H); intros g; discriminate); try discriminate.
  now apply gen_resource_error in H.
Qed.

(** C7. A schema with a resource definition that has no property named
    [metadata] whose value is a reference: [emitVersion] throws, it returns
    no text, and the error is one of the errors of building the generators,
    raised before any part of the module is assembled. *)
Theorem resource_without_metadata_fails {host : Host} (schema : APIGroupVersion)
    (engine : Engine) (d : Definition_) (properties : list Property) (scope : string) :
  In d (definitions schema) ->
  def_value d = TResource properties scope ->
  find metadata_reference properties = None ->
  exists msg,
    emitVersion schema engine = Err msg
    /\ construction_error msg
    /\ (resourceBase (definitions schema) = Err msg
        \/ mapM gen_definition (definitions schema) = Err msg).
Proof.
  intros Hin Hv Hnone. unfold emitVersion.
  destruct (resourceBase (definitions schema)) as [resource|msg] eqn:Eb; simpl.
  - assert (Hd : gen_definition d
                 = Err (def_name d ++ ": expected metadata reference property")).
    { unfold gen_definition. rewrite Hv. now apply gen_resource_missing_metadata. }
    destruct (mapM_Err_In _ _ gen_definition _ _ _ Hin Hd) as [msg Hm].
    rewrite Hm. simpl. exists msg. repeat split; auto.
    apply mapM_Err_inv in Hm. destruct Hm as (d' & _ & Hd').
    now apply gen_definition_error in Hd'.
  - exists msg. repeat split; auto.
    clear - Eb. unfold resourceBase in Eb.
    destruct (find _ (definitions schema)) as [resourceDef|]; [|discriminate].
    destruct (find metadata_reference _) as [[name req value meta]|].
    + destruct value; simpl in Eb; try discriminate;
        injection Eb as <-; left; eexists; reflexivity.
    + simpl in Eb. injection Eb as <-. left. eexists. reflexivity.
Qed.

(** ** Declarations and the first stage *)

Lemma keeps_refl (m : Module) : keeps m m.
Proof. now intros t. Qed.

Lemma keeps_trans (m1 m2 m3 : Module) : keeps m1 m2 -> keeps m2 m3 -> keeps m1 m3.
Proof. intros H1 H2 t Ht. auto. Qed.

Lemma keeps_same_names (m m' : Module) : names m' = names m -> keeps m m'.
Proof. intros E t. now rewrite E. Qed.

Lemma Names_group_set (token t : string) (g : list Name) (b : JsMap string (list Name)) :
  Names_group t {| bound := map_set String.eqb token g b |}
  = if String.eqb t token then g else Names_group t {| bound := b |}.
Proof.
  unfold Names_group. cbn [bound].
  destruct (String.eqb_spec t token) as [->|Hne].
  - now rewrite map_get_set_same.
  - now rewrite map_get_set_other.
Qed.

Lemma Names_add_cases (token : string) (u : NameUsage) (ns : Names) :
  (exists ns' n, Names_add token u ns = Ok (ns', n)
     /\ (forall t, declaredb t ns = true -> declaredb t ns' = true)
     /\ (u = declaration -> declaredb token ns = false /\ declaredb token ns' = true))
  \/ (Names_add token u ns = Err (duplicate_declaration token)
      /\ u = declaration /\ declaredb token ns = true).
Proof.
  assert (Hkeep : forall n t,
    declaredb t ns = true ->
    declaredb t {| bound := map_set String.eqb token (Names_group token ns ++ [n])%list
                              (bound ns) |} = true).
  { intros n t. unfold declaredb. rewrite Names_group_set.
    destruct (String.eqb_spec t token) as [->|Hne].
    - rewrite filter_app. now destruct (filter is_declaration (Names_group token ns)).
    - now destruct ns. }
  rewrite Names_add_eq, existsb_conflict. fold (declaredb token ns).
  destruct u; cbn [NameUsage_eqb andb].
  - destruct (declaredb token ns) eqn:Ed; [right; auto|]. left.
    eexists _, _. split; [reflexivity|]. split; [apply Hkeep|].
    intros _. split; [reflexivity|].
    unfold declaredb. rewrite Names_group_set, String.eqb_refl, filter_app.
    cbn. now destruct (filter is_declaration (Names_group token ns)).
  - left. eexists _, _. split; [reflexivity|]. split; [apply Hkeep | discriminate].
Qed.

Lemma Module_name_cases (token : string) (m : Module) :
  (exists m' b, Module_name token declaration m = Ok (m', b)
     /\ keeps m m'
     /\ declaredb token (names m) = false /\ declaredb token (names m') = true)
  \/ (Module_name token declaration m = Err (duplicate_declaration token)
      /\ declaredb token (names m) = true).
Proof.
  unfold Module_name.
  destruct (Names_add_cases token declaration (names m))
    as [(ns' & n & E & Hk & Hd)|(E & _ & Hd)]; rewrite E; simpl.
  - left. destruct (Hd eq_refl). eexists _, _. split; [reflexivity|]. repeat split; auto.
  - right. auto.
Qed.

Lemma first_stage_bind (A B : Type) (c : result (Module * A))
    (k : Module * A -> result (Module * B)) (m : Module) :
  first_stage A c m ->
  (forall m' a, c = Ok (m', a) -> keeps m m' -> first_stage B (k (m', a)) m') ->
  first_stage B (bind c k) m.
Proof.
  intros Hc Hk. destruct c as [[m' a]|msg]; simpl in *; [|assumption].
  specialize (Hk m' a eq_refl Hc). unfold first_stage in *.
  destruct (k (m', a)) as [[m'' b]|msg]; [|assumption].
  now apply (keeps_trans m m' m'').
Qed.

Lemma first_stage_name (token : string) (m : Module) :
  first_stage _ (Module_name token declaration m) m.
Proof.
  destruct (Module_name_cases token m) as [(m' & b & E & Hk & _)|(E & _)]; rewrite E; simpl;
    [assumption | eauto].
Qed.

Lemma first_stage_type (g : Generator) (m : Module) :
  type_generator g -> first_stage _ (g m) m.
Proof.
  intros Hg. destruct (Hg m) as (m' & r & E & Hn). rewrite E. simpl.
  now apply keeps_same_names.
Qed.

Lemma first_stage_each (gs : list Generator) (m : Module) :
  Forall type_generator gs -> first_stage _ (apply_each gs m) m.
Proof.
  intros Hgs. destruct (apply_each_type_generators gs Hgs m) as (m' & rs & E & Hn).
  rewrite E. simpl. now apply keeps_same_names.
Qed.

Lemma first_stage_Ok (A : Type) (m m' : Module) (a : A) :
  keeps m m' -> first_stage A (Ok (m', a)) m.
Proof. auto. Qed.

Lemma first_stage_import (A : Type) (source : ImportSource) (name : string)
    (options : option ImportOptions) (k : Module * Binding -> result (Module * A)) (m : Module) :
  (forall m' b, keeps m m' -> names m' = names m -> first_stage A (k (m', b)) m') ->
  first_stage A (k (Module_import source name options m)) m.
Proof.
  intros Hk. pose proof (Module_import_names source name options m) as Hn.
  destruct (Module_import source name options m) as [m' b]. simpl in Hn.
  specialize (Hk m' b (keeps_same_names _ _ Hn) Hn). unfold first_stage in *.
  destruct (k (m', b)) as [[m'' a]|msg]; [|assumption].
  apply (keeps_trans m m' m''); [now apply keeps_same_names | assumption].
Qed.

Lemma references_type_generators (refs : list TypeReference) :
  Forall type_generator (map gen_reference refs).
Proof.
  apply Forall_forall. intros g Hg. apply in_map_iff in Hg.
  destruct Hg as (ref & <- & _). apply gen_reference_type_generator.
Qed.

Lemma gen_type_Ok (t : Type_) (b : bool) (g : Generator) :
  gen_type t b = Ok g -> type_generator g.
Proof. intros H. pose proof (gen_type_spec t b) as Hs. now rewrite H in Hs. Qed.

(** The first stage of a definition that registers [name] first. *)
Ltac blocked_by_name name :=
  let m := fresh "m" in
  let Hm := fresh "Hm" in
  let E := fresh "E" in
  intros m Hm;
  destruct (Module_name_cases name m) as [(? & ? & _ & _ & E & _)|(E & _)];
  [congruence | rewrite E; simpl; eauto].

Lemma gen_definition_generator (d : Definition_) (g : Generator) :
  gen_definition d = Ok g ->
  def_generator g /\ (registers_name d = true -> blocked_by (def_name d) g).
Proof.
  unfold gen_definition, registers_name. intros H.
  destruct (def_value d) as [enum| | | |values|values|properties inherit|values|value
                            |ref| |properties scope] eqn:Ev;
    try (bind_inv H; injection H as <-;
         pose proof (gen_type_Ok _ _ _ Hstep) as Ha;
         split;
         [ intros m; cbv beta;
           apply first_stage_bind; [apply first_stage_name|];
           intros m1 b _ _; apply first_stage_bind; [now apply first_stage_type|];
           intros m2 v _ _; apply first_stage_Ok, keeps_refl
         | intros _; blocked_by_name (def_name d) ]).
  - (* object *)
    unfold gen_interface in H. bind_inv H. injection H as <-.
    pose proof (gen_type_Ok _ _ _ Hstep) as Ha. split.
    + intros m. apply first_stage_bind; [apply first_stage_name|].
      intros m1 b _ _. apply first_stage_bind; [now apply first_stage_type|].
      intros m2 o _ _. apply first_stage_bind.
      { apply first_stage_each. destruct inherit as [refs|]; [destruct (nonempty refs)|];
          auto using references_type_generators. }
      intros m3 ps _ _. apply first_stage_Ok, keeps_refl.
    + intros _. blocked_by_name (def_name d).
  - (* reference *)
    injection H as <-. split.
    + intros m. apply first_stage_bind.
      * destruct (negb (String.eqb (def_name d) (target_name ref))).
        -- apply first_stage_bind; [apply first_stage_name|].
           intros m1 b _ _. apply first_stage_Ok, keeps_refl.
        -- apply first_stage_Ok, keeps_refl.
      * intros m1 b _ _. apply first_stage_bind;
          [apply first_stage_type, gen_reference_type_generator|].
        intros m2 r _ _. apply first_stage_Ok, keeps_refl.
    + intros Hreg. rewrite Hreg. blocked_by_name (def_name d).
  - (* resource *)
    unfold gen_resource in H.
    destruct (find named_metadata properties) as [[pname req value meta]|]; [|discriminate].
    destruct value; try discriminate.
    bind_inv H. injection H as <-.
    assert (Ha : type_generator a).
    { pose proof (gen_object_result (drop_found named_metadata properties) None false) as Ho.
      unfold Generator in *. rewrite Hstep in Ho. apply Ho.
      apply Forall_forall. intros p _. apply gen_type_spec. }
    split.
    + intros m.
      apply (first_stage_import _ lib_schema "factory" None
               (fun x => let '(module1, factoryBase) := x in _)).
      intros m1 b1 _ _.
      apply (first_stage_import _ lib_schema "ResourceList" type_true
               (fun x => let '(module2, listBase) := x in _)).
      intros m2 b2 _ _.
      apply first_stage_bind; [apply first_stage_name|].
      intros m3 b3 _ _. apply first_stage_bind; [apply first_stage_name|].
      intros m4 b4 _ _. apply first_stage_bind; [now apply first_stage_type|].
      intros m5 o _ _. apply first_stage_Ok, keeps_refl.
    + intros _ m Hm.
      pose proof (Module_import_names lib_schema "factory" None m) as Hn1.
      destruct (Module_import lib_schema "factory" None m) as [m1 b1]. simpl in Hn1.
      pose proof (Module_import_names lib_schema "ResourceList" type_true m1) as Hn2.
      destruct (Module_import lib_schema "ResourceList" type_true m1) as [m2 b2]. simpl in Hn2.
      destruct (Module_name_cases (def_name d) m2) as [(m' & b & _ & _ & E & _)|(E & _)];
        [congruence|].
      rewrite E. simpl. eauto.
Qed.

Lemma resourceBase_generator (defs : list Definition_) (r : Generator) :
  resourceBase defs = Ok (Some r) -> def_generator r.
Proof.
  unfold resourceBase. intros H.
  destruct (find _ defs) as [resourceDef|]; [|discriminate].
  destruct (find metadata_reference _) as [[pname req value meta]|]; [|discriminate].
  destruct value; try discriminate. injection H as <-.
  intros m. cbv beta. apply first_stage_bind; [apply first_stage_name|].
  intros m1 b1 _ _.
  apply (first_stage_import _ lib_schema "Resource" type_true
           (fun x => let '(module2, base) := x in _)).
  intros m2 b2 _ _.
  apply (first_stage_import _ lib_schema "NameScope" type_true
           (fun x => let '(module3, scope) := x in _)).
  intros m3 b3 _ _.
  apply first_stage_bind; [apply first_stage_type, gen_reference_type_generator|].
  intros m4 md _ _. apply first_stage_Ok, keeps_refl.
Qed.

(** The generator [apiVersion] declares [APIVersion] and [apiVersion]. *)
Lemma apiVersion_declares (m m' : Module) (r : Renderer) :
  apiVersion m = Ok (m', r) ->
  keeps m m'
  /\ declaredb "APIVersion" (names m') = true
  /\ declaredb "apiVersion" (names m') = true.
Proof.
  unfold apiVersion. intros H.
  destruct (Module_name_cases "APIVersion" m) as [(m1 & b1 & E1 & Hk1 & _ & Hd1)|(E1 & _)];
    rewrite E1 in H; simpl in H; [|discriminate].
  destruct (Module_name_cases "apiVersion" m1) as [(m2 & b2 & E2 & Hk2 & _ & Hd2)|(E2 & _)];
    rewrite E2 in H; simpl in H; [|discriminate].
  injection H as <- _. repeat split; auto.
  now apply (keeps_trans m m1 m2).
Qed.

Lemma apply_each_blocked (gs : list Generator) (t : string) (g : Generator) (m : Module) :
  Forall def_generator gs -> In g gs -> blocked_by t g ->
  declaredb t (names m) = true ->
  exists token, apply_each gs m = Err (duplicate_declaration token).
Proof.
  intros Hgs. revert m. induction Hgs as [|g0 gs Hg0 _ IH]; intros m Hin Hb Hm; [destruct Hin|].
  simpl. specialize (Hg0 m). unfold first_stage in Hg0.
  destruct (g0 m) as [[m1 r]|msg] eqn:E0; simpl.
  - destruct Hin as [->|Hin].
    + destruct (Hb m Hm) as [token Ht]. congruence.
    + destruct (IH m1 Hin Hb (Hg0 _ Hm)) as [token Ht]. rewrite Ht. simpl. eauto.
  - destruct Hg0 as [token ->]. eauto.
Qed.

Lemma generators_fold_add (gens : list Generator) (mo : ModuleObj) :
  generators (fold_left (fun mo g => Module_add g mo) gens mo) = (generators mo ++ gens)%list
  /\ state (fold_left (fun mo g => Module_add g mo) gens mo) = state mo.
Proof.
  revert mo. induction gens as [|g gens IH]; intros mo; simpl.
  - now rewrite app_nil_r.
  - destruct (IH (Module_add g mo)) as [-> ->]. simpl. now rewrite <- app_assoc.
Qed.

Lemma mapM_Ok_In (A B : Type) (f : A -> result B) (l : list A) (bs : list B) (x : A) :
  mapM f l = Ok bs -> In x l -> exists y, In y bs /\ f x = Ok y.
Proof.
  intros H. apply mapM_Ok_Forall2 in H. induction H as [|a b l bs Hab _ IH]; intros Hin.
  - destruct Hin.
  - destruct Hin as [->|Hin]; [exists b; simpl; auto|].
    destruct (IH Hin) as (y & Hy & Hfy). exists y. simpl. auto.
Qed.

Lemma mapM_Ok_Forall (A B : Type) (f : A -> result B) (P : B -> Prop) (l : list A)
    (bs : list B) :
  mapM f l = Ok bs -> (forall x y, f x = Ok y -> P y) -> Forall P bs.
Proof.
  intros H HP. apply mapM_Ok_Forall2 in H. induction H; constructor; eauto.
Qed.

(** The members of the module that [emitVersion] builds: [apiVersion]
    first. *)
Lemma emitVersion_members {host : Host} (schema : APIGroupVersion) (engine : Engine)
    (resource : option Generator) (gens : list Generator) :
  resourceBase (definitions schema) = Ok resource ->
  mapM gen_definition (definitions schema) = Ok gens ->
  exists p,
    emitVersion schema engine
    = Module_render (fun m => Context_new schema m engine)
        {| state := {| path := p; names := Names_new; imports := Imports_new |};
           generators := apiVersion :: (option_list resource ++ gens)%list |}.
Proof.
  intros Hr Hg. unfold emitVersion. rewrite Hr, Hg. simpl. eexists.
  unfold Module_render.
  match goal with |- context [fold_left ?f gens ?mo] =>
    destruct (generators_fold_add gens mo) as [-> ->]
  end.
  destruct resource; reflexivity.
Qed.

(** C10, as the code has it. [apiVersion] registers [APIVersion] and
    [apiVersion] as declarations. A schema with a definition of one of these
    names that registers its name (every definition but a reference
    definition named as its target) makes [emitVersion] throw: a duplicate
    declaration, or, when a generator cannot be built, the error of building
    it. No text is returned and no name is respelled. *)
Theorem synthetic_name_collision {host : Host} (schema : APIGroupVersion) (engine : Engine)
    (d : Definition_) :
  In d (definitions schema) ->
  def_name d = "APIVersion" \/ def_name d = "apiVersion" ->
  registers_name d = true ->
  (forall m m' r, apiVersion m = Ok (m', r) ->
     declaredb "APIVersion" (names m') = true /\ declaredb "apiVersion" (names m') = true)
  /\ exists msg,
       emitVersion schema engine = Err msg
       /\ ((exists token, msg = "Duplicate declaration of " ++ token)
           \/ (construction_error msg
               /\ (resourceBase (definitions schema) = Err msg
                   \/ mapM gen_definition (definitions schema) = Err msg))).
Proof.
  intros Hin Hname Hreg. split.
  { intros m m' r H. now apply apiVersion_declares in H. }
  destruct (resourceBase (definitions schema)) as [resource|msg] eqn:Er.
  2:{ exists msg. unfold emitVersion. rewrite Er. simpl. split; [reflexivity|]. right.
      split; [|now left].
      unfold resourceBase in Er.
      destruct (find _ (definitions schema)) as [resourceDef|]; [|discriminate].
      destruct (find metadata_reference _) as [[pname req value meta]|].
      - destruct value; simpl in Er; try discriminate;
          injection Er as <-; left; eexists; reflexivity.
      - simpl in Er. injection Er as <-. left. eexists. reflexivity. }
  destruct (mapM gen_definition (definitions schema)) as [gens|msg] eqn:Eg.
  2:{ exists msg. unfold emitVersion. rewrite Er, Eg. simpl. split; [reflexivity|]. right.
      split; [|now right].
      apply mapM_Err_inv in Eg. destruct Eg as (d' & _ & Hd').
      now apply gen_definition_error in Hd'. }
  destruct (emitVersion_members schema engine resource gens Er Eg) as [p ->].
  destruct (mapM_Ok_In _ _ _ _ _ d Eg Hin) as (g & Hg & Hd).
  destruct (gen_definition_generator d g Hd) as [_ Hblocked]. specialize (Hblocked Hreg).
  assert (Hgens : Forall def_generator (option_list resource ++ gens)).
  { apply Forall_app. split.
    - destruct resource as [r|]; constructor; [|constructor].
      now apply (resourceBase_generator (definitions schema)).
    - apply (mapM_Ok_Forall _ _ _ _ _ _ Eg). intros x y Hxy.
      now apply (gen_definition_generator x y). }
  unfold Module_render. cbn [generators state apply_each].
  destruct (apiVersion _) as [[m1 r1]|msg] eqn:Ea; [|discriminate Ea].
  destruct (apiVersion_declares _ _ _ Ea) as (_ & HA & Ha). simpl.
  assert (Hm1 : declaredb (def_name d) (names m1) = true)
    by (destruct Hname as [-> | ->]; assumption).
  destruct (apply_each_blocked _ _ g m1 Hgens (in_or_app _ _ _ (or_intror Hg)) Hblocked Hm1)
    as [token Ht].
  rewrite Ht. simpl. exists (duplicate_declaration token). split; [reflexivity|].
  left. now exists token.
Qed.

(** C10, as stated, fails: a reference definition named [APIVersion] as its
    target registers no declaration, and the module is generated; when the
    target is imported, it is the import that is respelled. *)
Lemma reexported_APIVersion_is_generated :
  (forall host : Host,
     @emitVersion host (reexport_schema None) deno
     = Ok ("export type APIVersion = " ++ lit "v1" ++ ";" ++ Js.nl
           ++ "export const apiVersion: APIVersion = " ++ lit "v1" ++ ";" ++ Js.nl ++ Js.nl
           ++ "export type { APIVersion };"))
  /\ (forall host : Host,
        @emitVersion host (reexport_schema (Some other_package)) deno
        = Ok ("import type { APIVersion as APIVersion_ } from "
              ++ lit "https://kure.sh/api/kubernetes/core/v1.ts" ++ ";" ++ Js.nl ++ Js.nl
              ++ "export type APIVersion = " ++ lit "v1" ++ ";" ++ Js.nl
              ++ "export const apiVersion: APIVersion = " ++ lit "v1" ++ ";" ++ Js.nl ++ Js.nl
              ++ "export type { APIVersion_ };")).
Proof. split; intros host; vm_compute; reflexivity. Qed.

(** ** A host for the examples *)


(** ** Determinism *)

Lemma sort_insert_same_order (A : Type) (c1 c2 : A -> A -> Z) (x : A) (l : list A) :
  (forall a b, (c1 a b <=? 0)%Z = (c2 a b <=? 0)%Z) ->
  sort_insert c1 x l = sort_insert c2 x l.
Proof.
  intros H. induction l as [|y l IH]; simpl; [reflexivity|]. now rewrite H, IH.
Qed.

Lemma sort_same_order (A : Type) (c1 c2 : A -> A -> Z) (l : list A) :
  (forall a b, (c1 a b <=? 0)%Z = (c2 a b <=? 0)%Z) ->
  sort c1 l = sort c2 l.
Proof.
  intros H. induction l as [|x l IH]; simpl; [reflexivity|].
  rewrite IH. now apply sort_insert_same_order.
Qed.

Lemma Imports_path_same_paths (h1 h2 : Host) (source : ImportSource) (ctx : Context) :
  same_paths h1 h2 -> @Imports_path h1 source ctx = @Imports_path h2 source ctx.
Proof.
  intros (Hd & Hb & Hr). unfold Imports_path.
  destruct source as [pkg p|pkg p|p]; try reflexivity.
  now rewrite !Hd, Hb, Hr.
Qed.

Lemma renderImport_same_order (h1 h2 : Host) (ctx : Context) (imps : Imports)
    (paths : JsMap ModuleURN string) (urn : ModuleURN) :
  same_order h1 h2 ->
  @renderImport h1 ctx imps paths urn = @renderImport h2 ctx imps paths urn.
Proof.
  intros Ho. unfold renderImport.
  rewrite (sort_same_order _ (fun a b => @localeCompare h1 (member a) (member b))
             (fun a b => @localeCompare h2 (member a) (member b)));
    [reflexivity|].
  intros a b. apply Ho.
Qed.

Lemma Imports_render_same_host (h1 h2 : Host) (ctx : Context) (imps : Imports) :
  same_paths h1 h2 -> same_order h1 h2 ->
  @Imports_render h1 ctx imps = @Imports_render h2 ctx imps.
Proof.
  intros Hp Ho. unfold Imports_render.
  assert (Hpaths :
    forall mods acc,
      fold_left (fun acc '(urn, mod_) =>
                   map_set String.eqb urn (@Imports_path h1 (src mod_) ctx) acc) mods acc
      = fold_left (fun acc '(urn, mod_) =>
                     map_set String.eqb urn (@Imports_path h2 (src mod_) ctx) acc) mods acc).
  { induction mods as [|[urn mod_] mods IH]; intros acc; simpl; [reflexivity|].
    now rewrite (Imports_path_same_paths h1 h2 _ _ Hp), IH. }
  rewrite Hpaths. cbv zeta.
  set (paths := fold_left (fun acc '(urn, mod_) =>
                            map_set String.eqb urn (@Imports_path h2 (src mod_) ctx) acc)
                          (modules imps) []).
  assert (Hgroups :
    forall gs : list (list ModuleURN),
      map (sort (fun a b => @localeCompare h1 (paths_get paths a) (paths_get paths b))) gs
      = map (sort (fun a b => @localeCompare h2 (paths_get paths a) (paths_get paths b))) gs).
  { intros gs. apply map_ext. intros g. apply sort_same_order. intros a b. apply Ho. }
  rewrite Hgroups.
  assert (Hgroup : forall urns, @renderGroup h1 ctx imps paths urns
                                = @renderGroup h2 ctx imps paths urns).
  { intros urns. unfold renderGroup. f_equal.
    induction urns as [|u urns IH]; simpl; [reflexivity|].
    now rewrite (renderImport_same_order h1 h2 _ _ _ _ Ho), IH. }
  f_equal. 
  match goal with |- mapM _ ?l = _ => induction l as [|g gs IH] end; simpl; [reflexivity|].
  now rewrite Hgroup, IH.
Qed.

(** C9. Generation is deterministic on a host: [emitVersion] reads nothing
    of the host but the order that [localeCompare] gives to the paths and
    the member names of the imports, and the path functions. Two runs on
    the same schema and engine, under hosts that give every pair of strings
    the same order and whose path functions agree, return the same text or
    throw the same error. *)
Theorem emitVersion_deterministic (h1 h2 : Host) (schema : APIGroupVersion)
    (engine : Engine) :
  same_paths h1 h2 -> same_order h1 h2 ->
  @emitVersion h1 schema engine = @emitVersion h2 schema engine.
Proof.
  intros Hp Ho. unfold emitVersion.
  destruct (resourceBase (definitions schema)) as [resource|msg]; [|reflexivity].
  cbn [bind].
  destruct (mapM gen_definition (definitions schema)) as [gens|msg]; [|reflexivity].
  cbn [bind]. unfold Module_render.
  destruct (apply_each _ _) as [[m1 renderers]|msg]; [|reflexivity]. cbn [bind].
  destruct (Imports_apply _ _) as [[ns imps]|msg]; [|reflexivity]. cbn [bind].
  now rewrite (Imports_render_same_host h1 h2 _ _ Hp Ho).
Qed.

Lemma emitVersion_deterministic_witness :
  @emitVersion sample_host kennel_schema deno = @emitVersion doubling_host kennel_schema deno
  /\ @emitVersion doubling_host kennel_schema deno
     = Ok ("import type { Chart, Dog } from "
           ++ lit "https://kure.sh/api/kubernetes/core/v1.ts" ++ ";" ++ Js.nl ++ Js.nl
           ++ "export type APIVersion = " ++ lit "pets/v1" ++ ";" ++ Js.nl
           ++ "export const apiVersion: APIVersion = " ++ lit "pets/v1" ++ ";" ++ Js.nl ++ Js.nl
           ++ "export interface Kennel {" ++ Js.nl
           ++ "  chart: Chart;" ++ Js.nl
           ++ "  dog: Dog;" ++ Js.nl
           ++ "}").
Proof.
  split; [|vm_compute; reflexivity].
  apply (emitVersion_deterministic sample_host doubling_host kennel_schema deno).
  - repeat split.
  - intros a b. simpl. destruct (code_unit_compare a b); reflexivity.
Defined.

(** C9, as stated, fails: [localeCompare] is called without a locale, so
    the order of the members of an import statement is the order of the
    default locale of the runtime. Under a locale in which [ch] sorts
    after [h], the same schema and engine give another text than under a
    locale that sorts by letters. *)
Lemma locale_decides_import_order :
  @emitVersion sample_host kennel_schema deno
  = Ok ("import type { Chart, Dog } from "
        ++ lit "https://kure.sh/api/kubernetes/core/v1.ts" ++ ";" ++ Js.nl ++ Js.nl
        ++ "export type APIVersion = " ++ lit "pets/v1" ++ ";" ++ Js.nl
        ++ "export const apiVersion: APIVersion = " ++ lit "pets/v1" ++ ";" ++ Js.nl ++ Js.nl
        ++ "export interface Kennel {" ++ Js.nl
        ++ "  chart: Chart;" ++ Js.nl
        ++ "  dog: Dog;" ++ Js.nl
        ++ "}")
  /\ @emitVersion digraph_host kennel_schema deno
     = Ok ("import type { Dog, Chart } from "
           ++ lit "https://kure.sh/api/kubernetes/core/v1.ts" ++ ";" ++ Js.nl ++ Js.nl
           ++ "export type APIVersion = " ++ lit "pets/v1" ++ ";" ++ Js.nl
           ++ "export const apiVersion: APIVersion = " ++ lit "pets/v1" ++ ";" ++ Js.nl ++ Js.nl
           ++ "export interface Kennel {" ++ Js.nl
           ++ "  chart: Chart;" ++ Js.nl
           ++ "  dog: Dog;" ++ Js.nl
           ++ "}")
  /\ @emitVersion sample_host kennel_schema deno
     <> @emitVersion digraph_host kennel_schema deno.
Proof.
  split; [vm_compute; reflexivity|]. split; [vm_compute; reflexivity|].
  vm_compute. discriminate.
Qed.

Lemma synthetic_name_collision_witness :
  (forall m m' r, apiVersion m = Ok (m', r) ->
     declaredb "APIVersion" (names m') = true /\ declaredb "apiVersion" (names m') = true)
  /\ exists msg,
       @emitVersion sample_host colliding_schema deno = Err msg
       /\ ((exists token, msg = "Duplicate declaration of " ++ token)
           \/ (construction_error msg
               /\ (resourceBase (definitions colliding_schema) = Err msg
                   \/ mapM gen_definition (definitions colliding_schema) = Err msg))).
Proof.
  apply (@synthetic_name_collision sample_host colliding_schema deno
           {| def_name := "apiVersion"; def_value := TString None; def_meta := no_meta |}).
  - simpl. auto.
  - right. reflexivity.
  - reflexivity.
Defined.

Lemma resource_without_metadata_fails_witness :
  exists msg,
    @emitVersion sample_host malformed_schema deno = Err msg
    /\ construction_error msg
    /\ (resourceBase (definitions malformed_schema) = Err msg
        \/ mapM gen_definition (definitions malformed_schema) = Err msg).
Proof.
  apply (@resource_without_metadata_fails sample_host malformed_schema deno
           {| def_name := "Widget";
              def_value :=
                TResource [ {| prop_name := "metadata"; required := true;
                               prop_value := TString None; prop_meta := no_meta |};
                            {| prop_name := "spec"; required := false;
                               prop_value := TUnknown; prop_meta := no_meta |} ]
                          "namespace";
              def_meta := no_meta |}
           [ {| prop_name := "metadata"; required := true;
                prop_value := TString None; prop_meta := no_meta |};
             {| prop_name := "spec"; required := false;
                prop_value := TUnknown; prop_meta := no_meta |} ]
           "namespace").
  - simpl. auto.
  - reflexivity.
  - reflexivity.
Defined.

(** The error of the malformed schema is the one of [resourceBase]. *)
Example malformed_schema_error :
  @emitVersion sample_host malformed_schema deno = Err "Resource Widget has no metadata field".
Proof. reflexivity. Qed.

(** ** The import block *)





Section ImportBlock.
Context {host : Host}.
Variables (ctx : Context) (imps : Imports).

Let ns : Names := names (module ctx).

Hypothesis compare_total : forall a b : string,
  (localeCompare a b <= 0)%Z \/ (localeCompare b a <= 0)%Z.
Hypothesis keys_unique : NoDup (map_keys (modules imps)).
Hypothesis tokens_ready :
  Forall (fun e => exists t, Import_token (snd e) ns = Ok t) (all_imports (modules imps)).

Let paths : JsMap ModuleURN string :=
  fold_left (fun acc '(urn, mod_) => map_set String.eqb urn (Imports_path (src mod_) ctx) acc)
            (modules imps) [].



Lemma Import_render_tokens (b : bool) (ms : list Import) (ts : list string) :
  Forall2 (fun i t => Import_token i ns = Ok t) ms ts ->
  (b = true -> forallb type_ ms = true) ->
  mapM (fun i => Import_render b i ns) ms
  = Ok (map (fun p => member_text b (fst p) (snd p)) (combine ms ts)).
Proof.
  induction 1 as [|i t ms ts Hit _ IH]; intros Hb; simpl; [reflexivity|].
  assert (Hi : b && negb (type_ i) = false).
  { destruct b; [|reflexivity]. specialize (Hb eq_refl). simpl in Hb.
    apply andb_true_iff in Hb. destruct Hb as [-> _]. reflexivity. }
  unfold Import_render at 1. rewrite Hi, Hit. simpl.
  rewrite IH; [reflexivity|].
  intros ->. specialize (Hb eq_refl). simpl in Hb. apply andb_true_iff in Hb. tauto.
Qed.

Lemma Forall_tokens (ms : list Import) :
  Forall (fun i => exists t, Import_token i ns = Ok t) ms ->
  exists ts, Forall2 (fun i t => Import_token i ns = Ok t) ms ts.
Proof.
  induction 1 as [|i ms [t Ht] _ [ts IH]]; [exists []; constructor|].
  exists (t :: ts). now constructor.
Qed.







End ImportBlock.


(** The block of the sample: the remote sources first, each group in the
    order of its paths, one [import type] statement per source whose
    members are all type-only. *)
Example rendered_import_block :
  @Imports_render sample_host rendered_context (imports rendered_module)
  = Ok ("import type { ObjectMeta } from " ++ lit "https://kure.sh/api/@1.30/meta/v1.ts" ++ ";"
        ++ Js.nl
        ++ "import { type ResourceList, factory } from "
        ++ lit "https://kure.sh/lib/schema@0.1/mod.ts" ++ ";" ++ Js.nl ++ Js.nl
        ++ "import type { Scale as Scale_ } from " ++ lit "./v1alpha1.ts" ++ ";" ++ Js.nl
        ++ "import type { Scale } from " ++ lit "./v1beta1.ts" ++ ";").
Proof. vm_compute. reflexivity. Qed.

(** ** The import block inside [module.render] *)

Lemma map_keys_name_members (base : nat) (ms : JsMap string Import) :
  map_keys (name_members base ms) = map_keys ms.
Proof.
  revert base. induction ms as [|[k imp] ms IH]; intros base; simpl; [reflexivity|].
  unfold map_keys in *. now rewrite IH.
Qed.

Lemma map_keys_name_modules (base : nat) (mods : JsMap ModuleURN ImportedModule) :
  map_keys (name_modules base mods) = map_keys mods.
Proof.
  revert base. induction mods as [|[urn imported] mods IH]; intros base; simpl; [reflexivity|].
  unfold map_keys in *. now rewrite IH.
Qed.

Lemma members_named (urn : ModuleURN) (base : nat) (ms : JsMap string Import) :
  map (fun m => (urn, snd m)) (name_members base ms)
  = map named_import (entries_from base (map (fun m => (urn, snd m)) ms)).
Proof.
  revert base. induction ms as [|[k imp] ms IH]; intros base; simpl; [reflexivity|].
  now rewrite IH.
Qed.

Lemma all_imports_named (base : nat) (mods : JsMap ModuleURN ImportedModule) :
  all_imports (name_modules base mods)
  = map named_import (entries_from base (all_imports mods)).
Proof.
  revert base. induction mods as [|[urn imported] mods IH]; intros base; simpl; [reflexivity|].
  rewrite entries_from_app, map_app, length_map, IH. f_equal.
  apply members_named.
Qed.

Lemma In_entries_from (A : Type) (base k : nat) (x : A) (l : list A) :
  In (k, x) (entries_from base l) -> exists idx, k = base + idx /\ nth_error l idx = Some x.
Proof.
  intros H. apply In_nth_error in H. destruct H as [idx Hidx].
  rewrite nth_error_entries_from in Hidx.
  destruct (nth_error l idx) as [y|] eqn:E; [|discriminate].
  injection Hidx as <- <-. eauto.
Qed.

(** After the apply pass of the import table and [resolve], the keys of
    the table are still unique and every import has its spelling: the
    import block can be rendered. *)
Lemma finish_apply_ready (log : list Registration) (m : Module) :
  Names_inv log (names m) ->
  Imports_wf (imports m) ->
  exists m',
    finish_apply m = Ok m'
    /\ NoDup (map_keys (modules (imports m')))
    /\ Forall (fun e => exists t, Import_token (snd e) (names m') = Ok t)
              (all_imports (modules (imports m'))).
Proof.
  intros Hinv Hwf. unfold finish_apply.
  destruct (Imports_apply_spec (imports m) log (names m) Hinv) as (ns' & E & Hinv').
  rewrite E. simpl. eexists. split; [reflexivity|]. simpl. split.
  - rewrite map_keys_name_modules. apply Hwf.
  - rewrite all_imports_named. apply Forall_forall. intros e He.
    apply in_map_iff in He. destruct He as ([k [u i]] & <- & Hk).
    apply In_entries_from in Hk. destruct Hk as (idx & -> & Hidx).
    unfold named_import, Import_token. simpl.
    assert (Hn : nth_error (log ++ import_log (all_imports (modules (imports m))))
                           (length log + idx) = Some (raw_name i, import)).
    { rewrite nth_error_app2 by lia.
      replace (length log + idx - length log) with idx by lia.
      unfold import_log. rewrite nth_error_map, Hidx. reflexivity. }
    rewrite (Names_deref_resolved _ _ _ _ _ Hinv' Hn).
    eexists. unfold Name_token. cbn [resolved]. reflexivity.
Qed.

(** ** A module with two identifiers of one spelling *)

(** The generated module imports [Foo] as [Foo_] and declares [Foo_]. *)
Example clashing_schema_output :
  forall host : Host,
    @emitVersion host clashing_schema deno
    = Ok ("import type { Foo as Foo_ } from "
          ++ lit "https://kure.sh/api/kubernetes/core/v1.ts" ++ ";" ++ Js.nl ++ Js.nl
          ++ "export type APIVersion = " ++ lit "v1" ++ ";" ++ Js.nl
          ++ "export const apiVersion: APIVersion = " ++ lit "v1" ++ ";" ++ Js.nl ++ Js.nl
          ++ "export type Foo = string;" ++ Js.nl ++ Js.nl
          ++ "export type Foo_ = number;" ++ Js.nl ++ Js.nl
          ++ "export type Bar = Array<Foo_>;").
Proof. intros host. vm_compute. reflexivity. Qed.

(** * Further properties of the code *)

(** ** Which registrations a table accepts *)

Lemma declaredb_add (token : string) (u : NameUsage) (ns ns' : Names) (n : Name) :
  Names_add token u ns = Ok (ns', n) ->
  forall t, declaredb t ns'
            = declaredb t ns || (String.eqb t token && NameUsage_eqb u declaration).
Proof.
  rewrite Names_add_eq.
  destruct (existsb _ _); [discriminate|]. cbv zeta. intros [= <- _] t.
  unfold declaredb. rewrite Names_group_set.
  destruct (String.eqb_spec t token) as [->|Hne].
  - rewrite filter_app. cbn [filter]. unfold is_declaration at 2. cbn [usage].
    destruct u; cbn [NameUsage_eqb andb].
    + destruct (filter is_declaration (Names_group token ns)); reflexivity.
    + now rewrite app_nil_r, orb_false_r.
  - destruct ns. now rewrite orb_false_r.
Qed.

Lemma Names_register_from (log : list Registration) (ns : Names) (seen : list string) :
  (forall t, declaredb t ns = existsb (String.eqb t) seen) ->
  match first_duplicate seen (declarations_of log) with
  | Some t => Names_register log ns = Err ("Duplicate declaration of " ++ t)
  | None => exists ns', Names_register log ns = Ok ns'
  end.
Proof.
  revert ns seen. induction log as [|[token u] log IH]; intros ns seen Hseen; simpl.
  - eauto.
  - destruct (Names_add_cases token u ns) as [(ns' & n & E & _ & _)|(E & -> & Hd)].
    + rewrite E. simpl. pose proof (declaredb_add _ _ _ _ _ E) as Hadd.
      unfold declarations_of. simpl. destruct u; simpl.
      * assert (Hfresh : existsb (String.eqb token) seen = false).
        { rewrite <- Hseen. rewrite Names_add_eq, existsb_conflict in E.
          fold (declaredb token ns) in E. simpl in E.
          destruct (declaredb token ns); [discriminate | reflexivity]. }
        rewrite Hfresh. apply IH. intros t. rewrite Hadd, Hseen. simpl.
        rewrite andb_true_r, orb_comm. reflexivity.
      * apply IH. intros t. rewrite Hadd, Hseen. simpl.
        now rewrite andb_false_r, orb_false_r.
    + rewrite E. simpl. unfold declarations_of. simpl.
      rewrite <- Hseen, Hd. reflexivity.
Qed.

(** X1. A sequence of registrations on a new table is accepted unless it
    declares a raw name twice: it throws at the first raw name that is
    declared a second time, with that name in the message; imports never
    make it throw, whatever was registered before. *)
Theorem register_throws_at_first_duplicate (log : list Registration) :
  match first_duplicate [] (declarations_of log) with
  | Some t => Names_register log Names_new = Err ("Duplicate declaration of " ++ t)
  | None => exists ns, Names_register log Names_new = Ok ns
  end.
Proof. apply Names_register_from. intros t. reflexivity. Qed.

(** ** Bindings before and after [resolve] *)

Lemma Names_deref_registered (log : list Registration) (ns : Names) (k : nat)
    (token : string) (u : NameUsage) :
  Names_inv log ns ->
  nth_error log k = Some (token, u) ->
  Names_deref k ns = Some (fresh_name (k, (token, u))).
Proof.
  intros Hinv Hk. unfold Names_deref.
  assert (Hreg : In (fresh_name (k, (token, u))) (registered log)).
  { apply (nth_error_In _ k). rewrite nth_error_registered, Hk. reflexivity. }
  assert (Hg : In (fresh_name (k, (token, u))) (group_of token log)).
  { apply filter_In. split; [assumption|]. unfold in_group. simpl. apply String.eqb_refl. }
  apply find_unique.
  - apply In_concat_values. exists token, (group_of token log). split; [|assumption].
    pose proof (inv_group _ _ Hinv token) as E. unfold Names_group in E.
    destruct (map_get String.eqb token (bound ns)) as [g|] eqn:Eg.
    + subst g. now apply map_get_In.
    + rewrite <- E in Hg. destruct Hg.
  - simpl. apply Nat.eqb_refl.
  - intros y Hy Hnid. apply In_concat_values in Hy. destruct Hy as (id & g & Hin & Hyg).
    rewrite (Names_inv_In _ _ _ _ Hinv Hin) in Hyg.
    apply filter_In in Hyg. destruct Hyg as [Hyreg _].
    apply (registered_nid_inj log); auto. simpl. now apply Nat.eqb_eq.
Qed.

(** X2. The binding of a registered name cannot be read before [resolve]:
    it throws [Name <raw> not yet resolved]. After [resolve] it returns the
    spelling of the name. *)
Theorem binding_needs_resolve (log : list Registration) (ns : Names) (k : nat)
    (token : string) (u : NameUsage) :
  Names_register log Names_new = Ok ns ->
  nth_error log k = Some (token, u) ->
  Name_binding k (module_with_names ns) = Err ("Name " ++ token ++ " not yet resolved")
  /\ Name_binding k (module_with_names (Names_resolve ns))
     = Ok (spelled token (rank log k token u)).
Proof.
  intros Hreg Hk. pose proof (Names_register_new_inv _ _ Hreg) as Hinv.
  unfold Name_binding, module_with_names. cbn [names]. split.
  - now rewrite (Names_deref_registered _ _ _ _ _ Hinv Hk).
  - now rewrite (Names_deref_resolved _ _ _ _ _ Hinv Hk).
Qed.

Lemma binding_needs_resolve_witness :
  Name_binding 3 (module_with_names sample_names) = Err ("Name " ++ "Foo" ++ " not yet resolved")
  /\ Name_binding 3 (module_with_names (Names_resolve sample_names))
     = Ok (spelled "Foo" (rank sample_registrations 3 "Foo" import)).
Proof.
  apply (binding_needs_resolve sample_registrations sample_names 3 "Foo" import);
    reflexivity.
Defined.

(** ** The lookup of declarations *)

Lemma declaredb_log (log : list Registration) (ns : Names) (t : string) :
  Names_inv log ns -> declaredb t ns = existsb (String.eqb t) (declarations_of log).
Proof.
  intros Hinv. unfold declaredb. rewrite (inv_group _ _ Hinv).
  assert (H : forall l : list Name,
            nonempty (filter is_declaration (filter (in_group t) l))
            = existsb (String.eqb t)
                (map fst (filter (fun r => NameUsage_eqb (snd r) declaration)
                            (map (fun n => (declared n, usage n)) l)))).
  { induction l as [|n l IH]; simpl; [reflexivity|].
    unfold in_group at 1. unfold is_declaration at 1.
    destruct (String.eqb_spec (declared n) t) as [E|E]; simpl.
    - destruct (NameUsage_eqb (usage n) declaration) eqn:Eu; simpl.
      + rewrite E, String.eqb_refl. reflexivity.
      + apply IH.
    - destruct (NameUsage_eqb (usage n) declaration) eqn:Eu; simpl; [|apply IH].
      destruct (String.eqb_spec t (declared n)) as [E'|E']; [congruence | apply IH]. }
  unfold group_of, declarations_of. rewrite H, map_key_registered. reflexivity.
Qed.

Lemma find_declaration_resolved (identifier : string) (g : list Name) :
  Forall (fun n => declared n = identifier) g ->
  option_map resolved (find (fun name => NameUsage_eqb (usage name) declaration)
                            (resolve_group identifier g))
  = if nonempty (filter is_declaration g) then Some (Some identifier) else None.
Proof.
  intros Hg. rewrite resolve_group_eq.
  destruct (filter is_declaration g) as [|d ds] eqn:Ed.
  - simpl. unfold entries.
    assert (H : forall i l, Forall (fun n => is_import n = true) l ->
              find (fun name => NameUsage_eqb (usage name) declaration)
                   (map (fun e => Name_resolve (spelling identifier (fst e)) (snd e))
                        (entries_from i l)) = None).
    { intros i l Hl. revert i. induction Hl as [|n l Hn _ IH]; intros i; simpl; [reflexivity|].
      unfold is_import in Hn. destruct (usage n); [discriminate | apply IH]. }
    rewrite H; [reflexivity | apply Forall_filter_true].
  - assert (Hd : is_declaration d = true /\ declared d = identifier).
    { assert (Hin : In d (filter is_declaration g)) by (rewrite Ed; now left).
      apply filter_In in Hin. destruct Hin as [Hin Hdecl]. split; [assumption|].
      rewrite Forall_forall in Hg. now apply Hg. }
    destruct Hd as [Hdecl Hname]. simpl.
    unfold is_declaration in Hdecl. rewrite Hdecl. simpl. now rewrite Hname.
Qed.

Lemma Module_get_resolved (log : list Registration) (ns : Names) (token : string)
    (m : Module) :
  Names_inv log ns ->
  names m = Names_resolve ns ->
  Module_get token m
  = if existsb (String.eqb token) (declarations_of log)
    then Ok token
    else Err "name undefined not declared in module".
Proof.
  intros Hinv Hm.
  rewrite <- (declaredb_log log ns token Hinv).
  unfold Module_get, Names_getDeclared. rewrite Hm.
  unfold declaredb, Names_group.
  assert (Hmap : map_get String.eqb token (bound (Names_resolve ns))
                 = option_map (resolve_group token) (map_get String.eqb token (bound ns))).
  { unfold Names_resolve. simpl. induction (bound ns) as [|[k g] b IH]; simpl; [reflexivity|].
    destruct (String.eqb_spec token k) as [->|Hne]; [reflexivity | apply IH]. }
  rewrite Hmap.
  destruct (map_get String.eqb token (bound ns)) as [g|] eqn:Eg; simpl; [|reflexivity].
  assert (Hg : Forall (fun n => declared n = token) g).
  { apply map_get_In in Eg. rewrite (Names_inv_In _ _ _ _ Hinv Eg).
    apply Forall_forall. intros n Hn. now apply group_of_declared in Hn. }
  pose proof (find_declaration_resolved token g Hg) as Hf.
  destruct (find _ (resolve_group token g)) as [n|]; simpl in Hf;
    destruct (nonempty (filter is_declaration g)); try discriminate; [|reflexivity].
  injection Hf as Hf. simpl. unfold Name_token. now rewrite Hf.
Qed.

(** X3. [module.get] sees declarations only. After [resolve] the binding of
    [module.get(token)] returns [token] itself when the module declared
    [token], and throws when it did not, even when [token] is the raw name
    of an import. *)
Theorem get_finds_declarations_only (log : list Registration) (ns : Names) (token : string) :
  Names_register log Names_new = Ok ns ->
  Module_get token (module_with_names (Names_resolve ns))
  = if existsb (String.eqb token) (declarations_of log)
    then Ok token
    else Err "name undefined not declared in module".
Proof.
  intros Hreg.
  apply (Module_get_resolved log ns token (module_with_names (Names_resolve ns)));
    [now apply Names_register_new_inv | reflexivity].
Qed.

Lemma get_finds_declarations_only_witness :
  Module_get "Foo" (module_with_names (Names_resolve sample_names))
  = if existsb (String.eqb "Foo") (declarations_of sample_registrations)
    then Ok "Foo"
    else Err "name undefined not declared in module".
Proof.
  apply (get_finds_declarations_only sample_registrations sample_names "Foo"). reflexivity.
Defined.

(** ** Spellings inside a group *)

(** X4. After [resolve] no two names of one group have the same
    spelling. *)
Theorem group_spellings_distinct (log : list Registration) (ns : Names)
    (identifier : string) (names : list Name) :
  Names_register log Names_new = Ok ns ->
  In (identifier, names) (bound (Names_resolve ns)) ->
  NoDup (map resolved names).
Proof.
  intros Hreg Hin. pose proof (Names_register_new_inv _ _ Hreg) as Hinv.
  destruct (bound_resolve_In _ _ _ Hin) as (g & Hg & ->).
  assert (Hdecl : Forall (fun n => declared n = identifier) g).
  { rewrite (Names_inv_In _ _ _ _ Hinv Hg). apply Forall_forall.
    intros n Hn. now apply group_of_declared in Hn. }
  apply NoDup_nth_error. intros i j Hi Hij.
  rewrite !nth_error_map in Hij. rewrite length_map in Hi.
  destruct (nth_error (resolve_group identifier g) i) as [a|] eqn:Ea;
    [|apply nth_error_None in Ea; lia].
  destruct (nth_error (resolve_group identifier g) j) as [b|] eqn:Eb; [|discriminate].
  simpl in Hij. injection Hij as Hij.
  exact (resolve_group_distinct identifier g i j a b Hdecl Ea Eb Hij).
Qed.

Lemma group_spellings_distinct_witness :
  NoDup (map resolved
           [ {| nid := 2; declared := "Foo"; usage := declaration; resolved := Some "Foo" |};
             {| nid := 0; declared := "Foo"; usage := import; resolved := Some "Foo_" |};
             {| nid := 3; declared := "Foo"; usage := import; resolved := Some "Foo_2" |};
             {| nid := 4; declared := "Foo"; usage := import; resolved := Some "Foo_3" |} ]).
Proof.
  apply (group_spellings_distinct sample_registrations sample_names "Foo").
  - reflexivity.
  - simpl. auto.
Defined.

(** ** [imports.use] and the other imports *)

Lemma ref_neq_cases (r : ImportRef) (urn name : string) :
  r <> (urn, name) -> fst r <> urn \/ (fst r = urn /\ snd r <> name).
Proof.
  destruct r as [u k]. simpl. intros H.
  destruct (String.eqb_spec u urn) as [->|Hne]; [|now left].
  right. split; [reflexivity|]. intros ->. now apply H.
Qed.

Lemma ref_eq_cases (r : ImportRef) (urn name : string) :
  r = (urn, name) \/ r <> (urn, name).
Proof.
  destruct r as [u k].
  destruct (String.eqb_spec u urn) as [->|Hu].
  - destruct (String.eqb_spec k name) as [->|Hk]; [now left|].
    right. intros H. inversion H. contradiction.
  - right. intros H. inversion H. contradiction.
Qed.

Lemma Imports_use_frame (source : ImportSource) (name : string)
    (options : option ImportOptions) (imps : Imports) (r : ImportRef) :
  r <> (Import_urn source, name) ->
  Imports_deref r (fst (Imports_use source name options imps)) = Imports_deref r imps.
Proof.
  intros Hr. apply ref_neq_cases in Hr.
  unfold Imports_use, Imports_module, Imports_deref, ModuleURN in *.
  destruct (map_get String.eqb (Import_urn source) (modules imps)) as [mod_|] eqn:E; simpl.
  - destruct Hr as [Hu|[Hu Hk]].
    + now rewrite map_get_set_other.
    + rewrite Hu, map_get_set_same, E. simpl. now rewrite map_get_set_other.
  - destruct Hr as [Hu|[Hu Hk]].
    + now rewrite map_set_set, map_get_set_other.
    + rewrite Hu, map_set_set, map_get_set_same, E. simpl.
      apply String.eqb_neq in Hk. cbn. now rewrite Hk.
Qed.

(** X5. A call of [imports.use] touches one import only. Behind the
    reference of the pair it leaves a new import when the pair is new, the
    merged import when options are given, and the import as it was when no
    options are given; every other import of the table, of this source or
    of another, is as it was before. *)
Theorem use_touches_one_import (source : ImportSource) (name : string)
    (options : option ImportOptions) (imps : Imports) :
  snd (Imports_use source name options imps) = (Import_urn source, name)
  /\ Imports_deref (Import_urn source, name) (fst (Imports_use source name options imps))
     = Some match Imports_deref (Import_urn source, name) imps with
            | None => Import_new name options
            | Some m => match options with Some o => Import_merge m o | None => m end
            end
  /\ forall r, r <> (Import_urn source, name) ->
       Imports_deref r (fst (Imports_use source name options imps)) = Imports_deref r imps.
Proof.
  split; [apply Imports_use_ref|]. split; [apply Imports_use_deref|].
  intros r. apply Imports_use_frame.
Qed.

(** ** What later uses cannot undo *)

Lemma Import_merge_name (m : Import) (o : ImportOptions) : name_ (Import_merge m o) = name_ m.
Proof.
  unfold Import_merge.
  destruct (type_ m && _); simpl; destruct (negb _ && _); reflexivity.
Qed.

Lemma Imports_use_keeps (source : ImportSource) (name : string)
    (options : option ImportOptions) (imps : Imports) (r : ImportRef) (i : Import) :
  Imports_deref r imps = Some i ->
  exists i',
    Imports_deref r (fst (Imports_use source name options imps)) = Some i'
    /\ member i' = member i
    /\ name_ i' = name_ i
    /\ (type_ i = false -> type_ i' = false)
    /\ (Js.otruthy (as_ i) = true -> as_ i' = as_ i).
Proof.
  intros Hi.
  destruct (ref_eq_cases r (Import_urn source) name) as [->|Hne].
  - rewrite Imports_use_deref. unfold ModuleURN in *. rewrite Hi. destruct options as [o|].
    + eexists. split; [reflexivity|]. repeat split.
      * apply Import_merge_member.
      * apply Import_merge_name.
      * intros Ht. now rewrite Import_merge_type, Ht.
      * intros Ha. now rewrite Import_merge_as, Ha.
    + exists i. auto.
  - rewrite (Imports_use_frame _ _ _ _ _ Hne). exists i. auto.
Qed.

(** X6. No later call of [imports.use], on any source and member, undoes
    what an import has become: it keeps its member name, a value import
    stays a value import, and an alias, once set, stays that alias. *)
Theorem later_uses_keep_value_and_alias (uses : list Use) (imps : Imports)
    (r : ImportRef) (i : Import) :
  Imports_deref r imps = Some i ->
  exists i',
    Imports_deref r (Imports_use_all uses imps) = Some i'
    /\ member i' = member i
    /\ (type_ i = false -> type_ i' = false)
    /\ (Js.otruthy (as_ i) = true -> as_ i' = as_ i).
Proof.
  revert imps i. induction uses as [|[[source name] options] uses IH]; intros imps i Hi.
  - exists i. auto.
  - destruct (Imports_use_keeps source name options imps r i Hi)
      as (i1 & H1 & Hm1 & _ & Ht1 & Ha1).
    destruct (IH _ _ H1) as (i2 & H2 & Hm2 & Ht2 & Ha2).
    exists i2. split; [exact H2|]. repeat split.
    + congruence.
    + auto.
    + intros Ha. rewrite <- (Ha1 Ha) in *. rewrite Ha2; [reflexivity|].
      now rewrite (Ha1 Ha).
Qed.

Lemma later_uses_keep_value_and_alias_witness :
  exists i',
    Imports_deref ("kure:lib:schema", "factory")
      (Imports_use_all
         [ (lib_schema, "factory", type_true);
           (lib_schema, "factory", Some {| opt_as := Some "make"; opt_type := Some true |});
           (SrcApi "a" None, "factory", None) ]
         (fst (Imports_use lib_schema "factory"
                 (Some {| opt_as := Some "create"; opt_type := None |}) Imports_new)))
    = Some i'
    /\ member i' = member {| member := "factory"; as_ := Some "create"; type_ := false;
                             name_ := None |}
    /\ (type_ {| member := "factory"; as_ := Some "create"; type_ := false; name_ := None |}
        = false -> type_ i' = false)
    /\ (Js.otruthy (as_ {| member := "factory"; as_ := Some "create"; type_ := false;
                           name_ := None |}) = true ->
        as_ i' = as_ {| member := "factory"; as_ := Some "create"; type_ := false;
                        name_ := None |}).
Proof.
  apply (later_uses_keep_value_and_alias
           [ (lib_schema, "factory", type_true);
             (lib_schema, "factory", Some {| opt_as := Some "make"; opt_type := Some true |});
             (SrcApi "a" None, "factory", None) ]
           (fst (Imports_use lib_schema "factory"
                   (Some {| opt_as := Some "create"; opt_type := None |}) Imports_new))
           ("kure:lib:schema", "factory")).
  reflexivity.
Defined.

(** ** Bindings of imports *)

Lemma Imports_use_all_unnamed (uses : list Use) (imps : Imports) :
  (forall r i, Imports_deref r imps = Some i -> name_ i = None) ->
  forall r i, Imports_deref r (Imports_use_all uses imps) = Some i -> name_ i = None.
Proof.
  revert imps. induction uses as [|[[source name] options] uses IH]; intros imps Hn; [exact Hn|].
  simpl. apply IH. intros r i Hi.
  destruct (ref_eq_cases r (Import_urn source) name) as [->|Hne].
  - rewrite Imports_use_deref in Hi. injection Hi as <-.
    match goal with |- context [match ?d with Some _ => _ | None => _ end] =>
      destruct d as [m|] eqn:Em end; [|reflexivity].
    destruct options as [o|]; [rewrite Import_merge_name|]; eauto.
  - rewrite (Imports_use_frame _ _ _ _ _ Hne) in Hi. eauto.
Qed.

(** X9. Before [imports.apply] ran, the binding that [module.import]
    returned cannot be read: for every import of a table that was only
    filled by [use], it throws [import of <member> not yet named]. *)
Theorem import_binding_needs_apply (uses : list Use) (m : Module) (r : ImportRef) (i : Import) :
  imports m = Imports_use_all uses Imports_new ->
  Imports_deref r (imports m) = Some i ->
  Import_binding r m = Err ("import of " ++ member i ++ " not yet named").
Proof.
  intros Hm Hi. unfold Import_binding. rewrite Hi. unfold Import_token.
  rewrite Hm in Hi.
  rewrite (Imports_use_all_unnamed uses Imports_new) with (r := r) (i := i); auto.
  intros r' i' H. unfold Imports_deref in H. simpl in H. discriminate.
Qed.

Lemma import_binding_needs_apply_witness :
  Import_binding ("kure:lib:schema", "factory")
    {| path := "v1.ts"; names := Names_new;
       imports := Imports_use_all [(lib_schema, "factory", None)] Imports_new |}
  = Err ("import of " ++ member (Import_new "factory" None) ++ " not yet named").
Proof.
  apply (import_binding_needs_apply [(lib_schema, "factory", None)]
           {| path := "v1.ts"; names := Names_new;
              imports := Imports_use_all [(lib_schema, "factory", None)] Imports_new |}
           ("kure:lib:schema", "factory") (Import_new "factory" None));
    reflexivity.
Defined.

Lemma Imports_deref_In (imps : Imports) (r : ImportRef) (i : Import) :
  Imports_wf imps -> Imports_deref r imps = Some i ->
  In (fst r, i) (all_imports (modules imps)) /\ snd r = member i.
Proof.
  intros [_ Hwf] H. unfold Imports_deref in H.
  destruct (map_get String.eqb (fst r) (modules imps)) as [mod_|] eqn:E; [|discriminate].
  apply map_get_In in E. apply map_get_In in H.
  rewrite Forall_forall in Hwf. destruct (Hwf _ E) as [_ Hkeys]. simpl in Hkeys.
  rewrite Forall_forall in Hkeys. split; [|exact (Hkeys _ H)].
  unfold all_imports. apply in_flat_map. exists (fst r, mod_). split; [assumption|]. simpl.
  change (fst r, i) with ((fun m : string * Import => (fst r, snd m)) (snd r, i)).
  now apply in_map.
Qed.

(** X8. After the apply pass of the import table and [resolve], every
    binding that [module.import] returned can be read. It returns the raw
    name of the import (its alias, or else its member name) with the suffix
    of its place in the group of that raw name: after the declarations of
    the raw name, after the imports of it that the members registered, and
    after the imports of it that stand before it in the table. *)
Theorem import_bindings_resolve (log : list Registration) (m : Module)
    (r : ImportRef) (i : Import) :
  Names_register log Names_new = Ok (names m) ->
  Imports_wf (imports m) ->
  Imports_deref r (imports m) = Some i ->
  exists m',
    finish_apply m = Ok m'
    /\ (exists A B, all_imports (modules (imports m)) = (A ++ (fst r, i) :: B)%list)
    /\ forall A B,
         all_imports (modules (imports m)) = (A ++ (fst r, i) :: B)%list ->
         Import_binding r m'
         = Ok (spelled (raw_name i)
                 (count_reg (raw_name i) declaration log
                  + count_reg (raw_name i) import log
                  + count_reg (raw_name i) import (import_log A))).
Proof.
  intros Hreg Hwf Hi. pose proof (Names_register_new_inv _ _ Hreg) as Hinv.
  destruct (Imports_deref_In _ _ _ Hwf Hi) as [Hin Hkey].
  destruct (finish_apply_ready log m Hinv Hwf) as (m' & Hm' & _).
  exists m'. split; [exact Hm'|]. split; [now apply in_split|].
  intros A B Hall.
  assert (Hidx : nth_error (all_imports (modules (imports m))) (length A) = Some (fst r, i)).
  { rewrite Hall, nth_error_app2, Nat.sub_diag by lia. reflexivity. }
  destruct (Import_binding_resolved log m (length A) (fst r) i Hinv Hwf Hidx)
    as (m'' & Hm'' & Hb).
  rewrite Hm' in Hm''. injection Hm'' as <-.
  rewrite <- Hkey in Hb. destruct r as [u k]. cbn [fst snd] in *. rewrite Hb.
  unfold rank. rewrite Hall, firstn_import_log, !count_reg_app,
    count_reg_declaration_imports.
  do 2 f_equal. lia.
Qed.

Lemma import_bindings_resolve_witness :
  exists m',
    finish_apply sample_module = Ok m'
    /\ (exists A B,
          all_imports (modules (imports sample_module))
          = (A ++ (fst ("kure:api:b", "Thing"), Import_new "Thing" type_true) :: B)%list)
    /\ forall A B,
         all_imports (modules (imports sample_module))
         = (A ++ (fst ("kure:api:b", "Thing"), Import_new "Thing" type_true) :: B)%list ->
         Import_binding ("kure:api:b", "Thing") m'
         = Ok (spelled (raw_name (Import_new "Thing" type_true))
                 (count_reg (raw_name (Import_new "Thing" type_true)) declaration sample_log
                  + count_reg (raw_name (Import_new "Thing" type_true)) import sample_log
                  + count_reg (raw_name (Import_new "Thing" type_true)) import (import_log A))).
Proof.
  apply (import_bindings_resolve sample_log sample_module ("kure:api:b", "Thing")
           (Import_new "Thing" type_true)).
  - reflexivity.
  - apply (Imports_use_wf (SrcApi "b" None) "Thing" type_true).
    apply (Imports_use_wf (SrcApi "a" None) "Thing" type_true).
    apply (Imports_use_wf (SrcApi "a" None) "Other" None).
    exact Imports_new_wf.
  - reflexivity.
Defined.

(** ** Module URNs *)

(** X7. Sources of different kinds never share a module of the import
    table: equal URNs mean equal kinds; and two local sources share one
    only when their paths are equal. *)
Theorem urn_separates_kinds (s1 s2 : ImportSource) :
  Import_urn s1 = Import_urn s2 ->
  source_type s1 = source_type s2
  /\ (is_local s1 = true -> s1 = s2).
Proof.
  destruct s1 as [n1 p1|n1 p1|p1], s2 as [n2 p2|n2 p2|p2]; cbn; intros H;
    try discriminate; split; try reflexivity; try discriminate.
  intros _. injection H as ->. reflexivity.
Qed.

(** Two remote sources of one kind can share a URN: the separator of the
    URN may occur in a package name. *)
Lemma urn_separates_kinds_witness :
  source_type (SrcApi "a:b" None) = source_type (SrcApi "a" (Some "b"))
  /\ (is_local (SrcApi "a:b" None) = true -> SrcApi "a:b" None = SrcApi "a" (Some "b")).
Proof. apply (urn_separates_kinds (SrcApi "a:b" None) (SrcApi "a" (Some "b"))). reflexivity. Defined.

(** ** Paths *)

(** X10. The path of a local import is the directory that [relative]
    returns, [.] when that is empty and with [./] before it when it does
    not start with a dot, then a slash and the base name of the imported
    file. It is a relative specifier, one that starts with [./] or [../],
    unless that directory starts with a dot without starting with [./] or
    [../] and without being [.] or [..]: for a directory [.hidden] the path
    is the bare [.hidden/...]. *)
Theorem local_path_relative_iff {host : Host} (p : string) (ctx : Context) :
  let d := posix_relative ("/src/" ++ posix_dirname (path (module ctx)))
                          (posix_dirname ("/src/" ++ p)) in
  Imports_path (SrcLocal p) ctx
  = (if Js.truthy d then (if Js.startsWithDot d then d else "./" ++ d) else ".")
    ++ "/" ++ posix_basename ("/src/" ++ p)
  /\ is_relative_specifier (Imports_path (SrcLocal p) ctx)
     = negb (Js.startsWithDot d) || is_relative_specifier (d ++ "/").
Proof.
  intros d. unfold Imports_path. fold d. 
  destruct d as [|c d']; [split; reflexivity|]. cbn [Js.truthy].
  destruct (Js.startsWithDot (String c d')) eqn:E.
  - split; [reflexivity|]. cbn [negb orb].
    unfold Js.startsWithDot in E.
    destruct (Ascii.eqb_spec c ".") as [->|Hne].
    + destruct d' as [|c1 d1]; [reflexivity|].
      destruct d1 as [|c2 d2].
      * cbn. destruct c1 as [[] [] [] [] [] [] [] []]; reflexivity.
      * reflexivity.
    + destruct c as [[] [] [] [] [] [] [] []]; try discriminate E. now elim Hne.
  - split; reflexivity.
Qed.

(** ** The dependency map *)

Lemma find_app (A : Type) (f : A -> bool) (l l' : list A) :
  find f (l ++ l') = match find f l with Some x => Some x | None => find f l' end.
Proof. induction l as [|x l IH]; simpl; [reflexivity|]. now destruct (f x). Qed.

Lemma map_get_set (V : Type) (k k' : string) (v : V) (m : JsMap string V) :
  map_get String.eqb k' (map_set String.eqb k v m)
  = if String.eqb k' k then Some v else map_get String.eqb k' m.
Proof.
  destruct (String.eqb_spec k' k) as [->|Hne].
  - apply map_get_set_same.
  - now apply map_get_set_other.
Qed.

Lemma dependencies_fold (deps : list APIDependency) (acc : JsMap string APIDependency)
    (pkg : string) :
  map_get String.eqb pkg
    (fold_left (fun acc dep => map_set String.eqb (dep_package dep) dep acc) deps acc)
  = match find (fun dep => String.eqb pkg (dep_package dep)) (rev deps) with
    | Some dep => Some dep
    | None => map_get String.eqb pkg acc
    end.
Proof.
  revert acc. induction deps as [|d deps IH]; intros acc; simpl; [reflexivity|].
  rewrite IH, find_app, map_get_set. simpl.
  destruct (find _ (rev deps)); [reflexivity|].
  now destruct (String.eqb pkg (dep_package d)).
Qed.

(** X11. The dependency map of a context is keyed by package, and when the
    schema lists a package more than once the entry listed last is the one
    the map holds; a package that is not listed has no entry. *)
Theorem dependencies_last_entry_wins (schema : APIGroupVersion) (m : Module) (e : Engine)
    (pkg : string) :
  map_get String.eqb pkg (dependencies (Context_new schema m e))
  = find (fun dep => String.eqb pkg (dep_package dep)) (rev (schema_dependencies schema)).
Proof.
  unfold Context_new. cbn [dependencies]. rewrite dependencies_fold.
  now destruct (find _ _).
Qed.

(** ** The type compiler and the text of a type *)

(** [mapM] over elements that fail with one message when they are bad. *)
Lemma mapM_first_bad (A B : Type) (f : A -> result B) (bad : A -> bool)
    (P : A -> B -> Prop) (msg : string) (l : list A) :
  Forall (fun x => if bad x then f x = Err msg else exists y, f x = Ok y /\ P x y) l ->
  if existsb bad l then mapM f l = Err msg
  else exists ys, mapM f l = Ok ys /\ Forall2 P l ys.
Proof.
  induction 1 as [|x l Hx _ IH]; simpl; [eauto|].
  destruct (bad x); simpl.
  - now rewrite Hx.
  - destruct Hx as (y & -> & Hy). simpl.
    destruct (existsb bad l).
    + now rewrite IH.
    + destruct IH as (ys & -> & Hys). simpl. eauto.
Qed.

Lemma import_types_app (l1 l2 : list (ImportSource * string)) (m : Module) :
  import_types (l1 ++ l2) m = import_types l2 (import_types l1 m).
Proof. unfold import_types. apply fold_left_app. Qed.

Lemma import_types_flat_map (A : Type) (f : A -> list (ImportSource * string)) (l : list A)
    (m : Module) :
  import_types (flat_map f l) m = fold_left (fun m x => import_types (f x) m) l m.
Proof.
  revert m. induction l as [|x l IH]; intros m; simpl; [reflexivity|].
  now rewrite import_types_app, IH.
Qed.

(** The two stages of a list of generators. *)
Lemma compiles_each (A : Type) (update : A -> Module -> Module)
    (text : A -> Context -> result string) (ts : list A) (gs : list Generator) :
  Forall2 (fun t g => compiles_to g (update t) (text t)) ts gs ->
  forall m, exists rs,
    apply_each gs m = Ok (fold_left (fun m t => update t m) ts m, rs)
    /\ forall ctx, render_each rs ctx = mapM (fun t => text t ctx) ts.
Proof.
  induction 1 as [|t g ts gs Hg _ IH]; intros m; simpl.
  - exists []. auto.
  - destruct (Hg m) as (r & -> & Hr). simpl.
    destruct (IH (update t m)) as (rs & -> & Hrs). simpl.
    exists (r :: rs). split; [reflexivity|].
    intros ctx. unfold render_each in *. simpl. now rewrite Hr, Hrs.
Qed.

Lemma gen_reference_compiles (ref : TypeReference) :
  compiles_to (gen_reference ref) (import_types (reference_import ref))
              (reference_text ref).
Proof.
  intros m. unfold gen_reference, reference_import, reference_text.
  destruct (target_scope ref) as [scope|]; simpl.
  - fold (scope_source scope). unfold import_types. simpl.
    unfold Module_import.
    destruct (Imports_use (scope_source scope) (target_name ref) type_true (imports m))
      as [imps r] eqn:E.
    pose proof (Imports_use_ref (scope_source scope) (target_name ref) type_true (imports m))
      as Hr.
    rewrite E in Hr. simpl in Hr. subst r. simpl.
    eexists. split; [reflexivity|]. reflexivity.
  - eexists. split; reflexivity.
Qed.

Lemma wrap_compiles (inner : Generator) (update : Module -> Module)
    (text : Context -> result string) (k : string -> string) :
  compiles_to inner update text ->
  compiles_to
    (fun module => '(module', value) <- inner module ;;
                   Ok (module', fun ctx => v <- value ctx ;; Ok (k v)))
    update (fun ctx => v <- text ctx ;; Ok (k v)).
Proof.
  intros H m. destruct (H m) as (r & -> & Hr). simpl.
  eexists. split; [reflexivity|]. intros ctx. simpl. now rewrite Hr.
Qed.

(** What [gen.type] does with a type, by the resource types in it. *)
Definition gen_type_outcome (t : Type_) : Prop :=
  forall declaration,
    if has_resource t
    then gen_type t declaration = Err resource_not_allowed
    else exists g,
           gen_type t declaration = Ok g
           /\ compiles_to g (import_types (type_imports t declaration))
                          (fun ctx => type_text ctx t declaration).

Lemma gen_object_outcome (properties : list Property) (inherit : option (list TypeReference))
    (declaration : bool) :
  Forall (fun p => gen_type_outcome (prop_value p)) properties ->
  if existsb (fun p => has_resource (prop_value p)) properties
  then gen_object properties inherit declaration = Err resource_not_allowed
  else exists g,
         gen_object properties inherit declaration = Ok g
         /\ compiles_to g
              (import_types (type_imports (TObject properties inherit) declaration))
              (fun ctx => type_text ctx (TObject properties inherit) declaration).
Proof.
  intros Hps. unfold gen_object, GenRec.gen_object. fold gen_property.
  set (ptext := fun (p : Property) (ctx : Context) =>
         v <- type_text ctx (prop_value p) false ;;
         Ok (doc (prop_meta p) 1 ++ "  " ++ member_name (prop_name p)
               ++ (if required p then "" else "?") ++ ": " ++ v ++ ";")).
  assert (Hprops :
    Forall (fun p => if has_resource (prop_value p)
                     then gen_property p = Err resource_not_allowed
                     else exists g, gen_property p = Ok g
                            /\ compiles_to g (import_types (type_imports (prop_value p) false))
                                           (ptext p)) properties).
  { apply Forall_forall. intros p Hp. rewrite Forall_forall in Hps.
    specialize (Hps p Hp false). unfold gen_property, GenRec.gen_property.
    destruct (has_resource (prop_value p)).
    - now rewrite Hps.
    - destruct Hps as (g & -> & Hg). simpl. eexists. split; [reflexivity|].
      intros m. destruct (Hg m) as (r & -> & Hr). simpl.
      eexists. split; [reflexivity|]. intros ctx. unfold ptext. simpl. now rewrite Hr. }
  pose proof (mapM_first_bad _ _ gen_property (fun p => has_resource (prop_value p))
                _ resource_not_allowed properties Hprops) as Hm.
  cbv beta in Hm. unfold Property in *.
  destruct (existsb (fun p => has_resource (prop_value p)) properties).
  - now rewrite Hm.
  - destruct Hm as (propertyDefs & -> & Hdefs). simpl.
    eexists. split; [reflexivity|]. intros m.
    assert (Hparents :
      Forall2 (fun ref g => compiles_to g (import_types (reference_import ref))
                                        (reference_text ref))
              (object_parents inherit declaration)
              match inherit with
              | Some refs => if nonempty refs && negb declaration
                             then map gen_reference refs else []
              | None => []
              end).
    { unfold object_parents. destruct inherit as [refs|]; [|constructor].
      destruct (nonempty refs && negb declaration); [|constructor].
      induction refs; constructor; auto using gen_reference_compiles. }
    destruct (compiles_each _ _ _ _ _ Hparents m) as (ps & -> & Hps'). simpl.
    destruct (compiles_each _ _ _ _ _ Hdefs
                (fold_left (fun m ref => import_types (reference_import ref) m)
                           (object_parents inherit declaration) m))
      as (qs & -> & Hqs). simpl.
    cbn [type_imports]. rewrite import_types_app, !import_types_flat_map.
    eexists. split; [reflexivity|].
    intros ctx. cbn [type_text]. rewrite Hps', Hqs. reflexivity.
Qed.

Lemma gen_type_outcome_all (t : Type_) : gen_type_outcome t.
Proof.
  induction t as [enum| | | |values IH|values IH|properties inherit IH|values IH|value IH
                 |ref| |properties scope IH] using Type_induction;
    intros declaration; cbn [has_resource];
    try (eexists; split; [reflexivity|]; intros m; eexists; split; reflexivity).
  - (* array *)
    specialize (IH false). cbn [gen_type]. unfold GenRec.gen_array.
    destruct (has_resource values); [now rewrite IH|].
    destruct IH as (g & -> & Hg). simpl. eexists. split; [reflexivity|].
    apply (wrap_compiles g _ _ (fun v => "Array<" ++ v ++ ">") Hg).
  - (* map *)
    specialize (IH false). cbn [gen_type]. unfold GenRec.gen_map.
    destruct (has_resource values); [now rewrite IH|].
    destruct IH as (g & -> & Hg). simpl. eexists. split; [reflexivity|].
    apply (wrap_compiles g _ _ (fun v => "Record<string, " ++ v ++ ">") Hg).
  - (* object *)
    exact (gen_object_outcome properties inherit declaration IH).
  - (* union *)
    cbn [gen_type]. unfold GenRec.gen_union.
    assert (Hvs :
      Forall (fun v => if has_resource v
                       then gen_type v false = Err resource_not_allowed
                       else exists g, gen_type v false = Ok g
                              /\ compiles_to g (import_types (type_imports v false))
                                             (fun ctx => type_text ctx v false)) values).
    { apply Forall_forall. intros v Hv. rewrite Forall_forall in IH. exact (IH v Hv false). }
    pose proof (mapM_first_bad _ _ (fun value => gen_type value false) has_resource
                  _ resource_not_allowed values Hvs) as Hm.
    destruct (existsb has_resource values); [now rewrite Hm|].
    destruct Hm as (valueTypes & -> & Hgs). simpl.
    eexists. split; [reflexivity|]. intros m.
    destruct (compiles_each _ _ _ _ _ Hgs m) as (rs & -> & Hrs). simpl.
    cbn [type_imports]. rewrite import_types_flat_map.
    eexists. split; [reflexivity|].
    intros ctx. cbn [type_text]. now rewrite Hrs.
  - (* optional *)
    specialize (IH false). cbn [gen_type]. unfold GenRec.gen_optional.
    destruct (has_resource value); [now rewrite IH|].
    destruct IH as (g & -> & Hg). simpl. eexists. split; [reflexivity|].
    apply (wrap_compiles g _ _ (fun v => v ++ " | null") Hg).
  - (* reference *)
    eexists. split; [reflexivity|]. apply gen_reference_compiles.
  - (* resource *)
    reflexivity.
Qed.

(** X12. [gen.type] throws exactly for the types in which a resource type
    occurs, at any depth, and then with the message of the nested resource
    type; every other type compiles. *)
Theorem gen_type_throws_on_nested_resource (t : Type_) (declaration : bool) :
  if has_resource t
  then gen_type t declaration = Err resource_not_allowed
  else is_ok (gen_type t declaration) = true.
Proof.
  pose proof (gen_type_outcome_all t declaration) as H.
  destruct (has_resource t); [exact H|].
  destruct H as (g & -> & _). reflexivity.
Qed.

(** X13. The staged generator of a type without resource types does what
    the recursion on the type says: its first stage never throws and adds
    to the import table the scoped references of the type as type-only
    imports, in the order in which they occur, leaving the rest of the
    module as it is; its second stage returns the text of the type, the
    variants of a union and the properties of an object in their declared
    order. *)
Theorem gen_type_is_type_text (t : Type_) (declaration : bool) :
  has_resource t = false ->
  exists g,
    gen_type t declaration = Ok g
    /\ forall m, exists r,
         g m = Ok (import_types (type_imports t declaration) m, r)
         /\ forall ctx, r ctx = type_text ctx t declaration.
Proof.
  intros H. pose proof (gen_type_outcome_all t declaration) as Ho.
  rewrite H in Ho. exact Ho.
Qed.

Lemma gen_type_is_type_text_witness :
  exists g,
    gen_type sample_type false = Ok g
    /\ forall m, exists r,
         g m = Ok (import_types (type_imports sample_type false) m, r)
         /\ forall ctx, r ctx = type_text ctx sample_type false.
Proof. apply (gen_type_is_type_text sample_type false). reflexivity. Defined.

(** ** Documentation comments *)

Lemma starts_with_slash_append (a b : string) :
  starts_with_slash (a ++ b)
  = match a with "" => starts_with_slash b | _ => starts_with_slash a end.
Proof. destruct a; reflexivity. Qed.

Lemma starts_with_slash_other (c : ascii) (b : string) :
  Ascii.eqb c "/" = false -> starts_with_slash (String c b) = false.
Proof.
  intros Hc. unfold starts_with_slash.
  destruct (Ascii.eqb_spec c "/") as [->|Hne]; [discriminate|].
  destruct c as [[] [] [] [] [] [] [] []]; try reflexivity. now elim Hne.
Qed.

Lemma has_terminator_append (a : string) (c : ascii) (b : string) :
  Ascii.eqb c "/" = false ->
  has_terminator (a ++ String c b) = has_terminator a || has_terminator (String c b).
Proof.
  intros Hc. induction a as [|x a IH]; [reflexivity|].
  change (has_terminator (String x a ++ String c b))
    with ((Ascii.eqb x "*" && starts_with_slash (a ++ String c b))
          || has_terminator (a ++ String c b)).
  change (has_terminator (String x a))
    with ((Ascii.eqb x "*" && starts_with_slash a) || has_terminator a).
  rewrite IH, starts_with_slash_append.
  destruct a as [|y a].
  - rewrite (starts_with_slash_other c b Hc). destruct (Ascii.eqb x "*"); reflexivity.
  - now rewrite orb_assoc.
Qed.

Lemma has_terminator_spaces (n : nat) (s : string) :
  has_terminator (Js.repeat "  " n ++ s) = has_terminator s.
Proof. induction n as [|n IH]; [reflexivity|]. simpl. exact IH. Qed.

(** The escaped line holds no [*/], and starts with a slash only when the
    line does. *)
Lemma replaceAll_escapes (n : nat) (s : string) :
  String.length s <= n ->
  has_terminator (Js.replaceAll "*/" "*\/" s) = false
  /\ (starts_with_slash (Js.replaceAll "*/" "*\/" s) = true -> starts_with_slash s = true).
Proof.
  unfold Js.replaceAll. revert s. induction n as [|n IH]; intros s Hn.
  - destruct s; [|simpl in Hn; lia]. split; [reflexivity | discriminate].
  - destruct s as [|c s]; [split; [reflexivity | discriminate]|].
    simpl in Hn. cbn [Js.replaceAll_from].
    destruct (String.prefix "*/" (String c s)) eqn:Ep.
    + cbn [String.prefix] in Ep.
      destruct (ascii_dec "*" c) as [<-|]; [|discriminate Ep].
      destruct s as [|c' s]; [discriminate Ep|]. cbn [String.prefix] in Ep.
      destruct (ascii_dec "/" c') as [<-|]; [|discriminate Ep].
      cbn [String.length Nat.sub Js.replaceAll_from]. simpl in Hn.
      destruct (IH s ltac:(lia)) as [Hh _]. split; [|discriminate].
      cbn. exact Hh.
    + destruct (IH s ltac:(lia)) as [Hh Hs]. split.
      * cbn [has_terminator]. rewrite Hh, orb_false_r.
        destruct (Ascii.eqb_spec c "*") as [->|]; [|reflexivity]. simpl.
        destruct (starts_with_slash (Js.replaceAll_from "*/" "*\/" 0 s)) eqn:E; [|reflexivity].
        specialize (Hs eq_refl). destruct s as [|c' s]; [discriminate|].
        unfold starts_with_slash in Hs.
        destruct (Ascii.eqb_spec c' "/") as [->|Hne]; [destruct s; discriminate Ep|].
        destruct c' as [[] [] [] [] [] [] [] []]; try discriminate Hs. now elim Hne.
      * cbn [starts_with_slash]. intros H.
        destruct c as [[] [] [] [] [] [] [] []]; try discriminate H. reflexivity.
Qed.

Lemma join_empty_cons (x : string) (l : list string) :
  Js.join "" (x :: l) = x ++ Js.join "" l.
Proof.
  unfold Js.join. destruct l as [|y l]; simpl; [now rewrite append_empty_r | reflexivity].
Qed.

Lemma split_nonempty (sep : ascii) (s : string) : nonempty (Js.split sep s) = true.
Proof.
  induction s as [|c s IH]; [reflexivity|]. simpl.
  destruct (Ascii.eqb c sep); [reflexivity|]. now destruct (Js.split sep s).
Qed.

Lemma nonempty_app (A : Type) (l1 l2 : list A) :
  nonempty (l1 ++ l2) = nonempty l1 || nonempty l2.
Proof. destruct l1; reflexivity. Qed.

Lemma doc_lines_closed (prefix : nat) (lines : list string) (rest : string) :
  has_terminator
    (Js.join "" (map (fun line => Js.repeat "  " prefix ++ " * "
                                   ++ Js.replaceAll "*/" "*\/" line ++ Js.nl) lines)
     ++ rest)
  = has_terminator rest.
Proof.
  set (f := fun line => Js.repeat "  " prefix ++ " * "
                        ++ Js.replaceAll "*/" "*\/" line ++ Js.nl).
  induction lines as [|line lines IH]; [reflexivity|].
  cbn [map]. rewrite join_empty_cons. unfold f at 1.
  rewrite !append_assoc, has_terminator_spaces.
  cbn [append has_terminator starts_with_slash Ascii.eqb Bool.eqb andb orb].
  unfold Js.nl. cbn [append].
  rewrite has_terminator_append by reflexivity.
  destruct (replaceAll_escapes _ line (le_n _)) as [-> _].
  cbn [orb has_terminator Ascii.eqb Bool.eqb andb]. exact IH.
Qed.

(** X14. [doc] returns the empty text when the description is missing or
    empty and the definition is not deprecated; otherwise it returns a
    block comment whose only [*/] is the one that closes it, whatever the
    description holds. *)
Theorem doc_comment_closes_once (meta : DefinitionMeta) (indent : nat) :
  if Js.otruthy (description meta) || deprecated meta
  then exists body,
         doc meta indent = body ++ " */" ++ Js.nl /\ has_terminator body = false
  else doc meta indent = "".
Proof.
  unfold doc.
  set (lines := match description meta with
                | Some d => if Js.truthy d then Js.split "010" (Js.trimEnd d) else []
                | None => []
                end).
  assert (Hl : nonempty lines = Js.otruthy (description meta)).
  { unfold lines, Js.otruthy. destruct (description meta) as [d|]; [|reflexivity].
    destruct (Js.truthy d); [apply split_nonempty | reflexivity]. }
  set (lines' := if deprecated meta then (lines ++ ["@deprecated"])%list else lines).
  assert (Hl' : nonempty lines' = Js.otruthy (description meta) || deprecated meta).
  { unfold lines'. destruct (deprecated meta).
    - rewrite nonempty_app. simpl. now rewrite !orb_true_r.
    - now rewrite orb_false_r. }
  rewrite <- Hl'. destruct (nonempty lines'); [|reflexivity]. cbn [negb].
  exists (Js.repeat "  " indent ++ "/**" ++ Js.nl
          ++ Js.join "" (map (fun line => Js.repeat "  " indent ++ " * "
                                          ++ Js.replaceAll "*/" "*\/" line ++ Js.nl) lines')
          ++ Js.repeat "  " indent).
  split.
  - now rewrite !append_assoc.
  - rewrite has_terminator_spaces. unfold Js.nl at 1.
    cbn [append has_terminator starts_with_slash Ascii.eqb Bool.eqb andb orb].
    rewrite doc_lines_closed.
    rewrite <- (append_empty_r (Js.repeat "  " indent)). apply has_terminator_spaces.
Qed.

(** ** The declarations of a module *)

Lemma declarations_of_declare (l : list string) :
  declarations_of (map (fun t => (t, declaration)) l) = l.
Proof. induction l as [|t l IH]; [reflexivity|]. unfold declarations_of in *. simpl. now rewrite IH. Qed.

Lemma declare_all_app (l1 l2 : list string) (ns : Names) :
  declare_all (l1 ++ l2) ns = (ns1 <- declare_all l1 ns ;; declare_all l2 ns1).
Proof.
  unfold declare_all. revert ns. induction l1 as [|t l1 IH]; intros ns; [reflexivity|].
  simpl. destruct (Names_add t declaration ns) as [[ns1 n]|msg]; simpl; [apply IH | reflexivity].
Qed.

Lemma bind_assoc (A B C : Type) (c : result A) (f : A -> result B) (g : B -> result C) :
  bind (bind c f) g = bind c (fun x => bind (f x) g).
Proof. now destruct c. Qed.

Lemma stage_Ok (A : Type) (m : Module) (a : A) : stage_declares A (Ok (m, a)) [] m.
Proof. unfold stage_declares. simpl. eauto. Qed.

Lemma stage_same_names (A : Type) (c : result (Module * A)) (l : list string) (m m' : Module) :
  names m' = names m -> stage_declares A c l m' -> stage_declares A c l m.
Proof. unfold stage_declares. now intros ->. Qed.

(** A stage that registers a name and goes on. *)
Lemma stage_name (A : Type) (t : string) (l : list string)
    (k : Module * Binding -> result (Module * A)) (m : Module) :
  (forall m1 b, stage_declares A (k (m1, b)) l m1) ->
  stage_declares A (bind (Module_name t declaration m) k) (t :: l) m.
Proof.
  intros Hk. unfold stage_declares, declare_all, Module_name. simpl.
  destruct (Names_add t declaration (names m)) as [[ns1 n]|msg]; simpl; [|reflexivity].
  exact (Hk {| path := path m; names := ns1; imports := imports m |} (Name_binding (nid n))).
Qed.

(** A stage that runs one that keeps the names and goes on. *)
Lemma stage_bind_type (A B : Type) (c : result (Module * A)) (l : list string)
    (k : Module * A -> result (Module * B)) (m : Module) :
  (exists m1 a, c = Ok (m1, a) /\ names m1 = names m) ->
  (forall m1 a, stage_declares B (k (m1, a)) l m1) ->
  stage_declares B (bind c k) l m.
Proof.
  intros (m1 & a & -> & Hn) Hk. simpl.
  apply (stage_same_names _ _ _ m m1 Hn), Hk.
Qed.

Lemma stage_import (A : Type) (source : ImportSource) (name : string)
    (options : option ImportOptions) (l : list string)
    (k : Module * Binding -> result (Module * A)) (m : Module) :
  (forall m1 b, stage_declares A (k (m1, b)) l m1) ->
  stage_declares A (k (Module_import source name options m)) l m.
Proof.
  intros Hk. pose proof (Module_import_names source name options m) as Hn.
  destruct (Module_import source name options m) as [m1 b]. simpl in Hn.
  apply (stage_same_names _ _ _ m m1 Hn), Hk.
Qed.

Lemma declares_type (g : Generator) : type_generator g -> declares g [].
Proof.
  intros Hg m. destruct (Hg m) as (m' & r & E & Hn).
  unfold stage_declares. simpl. eauto.
Qed.

Lemma apply_each_declares (gs : list Generator) (ls : list (list string)) :
  Forall2 declares gs ls ->
  forall m, stage_declares _ (apply_each gs m) (concat ls) m.
Proof.
  induction 1 as [|g l gs ls Hg _ IH]; intros m; [apply stage_Ok|].
  cbn [apply_each concat]. unfold stage_declares. rewrite declare_all_app.
  specialize (Hg m). unfold stage_declares in Hg.
  destruct (declare_all l (names m)) as [ns1|msg]; simpl.
  - destruct Hg as (m1 & r & -> & <-). simpl.
    specialize (IH m1). unfold stage_declares in IH.
    destruct (declare_all (concat ls) (names m1)) as [ns2|msg].
    + destruct IH as (m2 & rs & -> & <-). simpl. eauto.
    + now rewrite IH.
  - now rewrite Hg.
Qed.

Lemma apiVersion_declares_names : declares apiVersion ["APIVersion"; "apiVersion"].
Proof.
  intros m. unfold apiVersion. apply stage_name. intros m1 b1.
  apply stage_name. intros m2 b2. apply stage_Ok.
Qed.

Lemma gen_definition_declares (d : Definition_) (g : Generator) :
  gen_definition d = Ok g -> declares g (declared_names d).
Proof.
  unfold gen_definition, declared_names. intros H.
  destruct (def_value d) as [enum| | | |values|values|properties inherit|values|value
                            |ref| |properties scope] eqn:Ev;
    try (bind_inv H; injection H as <-;
         pose proof (gen_type_Ok _ _ _ Hstep) as Ha;
         intros m; cbv beta; apply stage_name; intros m1 b;
         apply stage_bind_type; [destruct (Ha m1) as (m2 & r & E & Hn); eauto|];
         intros m2 v; apply stage_Ok).
  - (* object *)
    unfold gen_interface in H. bind_inv H. injection H as <-.
    pose proof (gen_type_Ok _ _ _ Hstep) as Ha.
    intros m. apply stage_name. intros m1 b.
    apply stage_bind_type; [destruct (Ha m1) as (m2 & r & E & Hn); eauto|].
    intros m2 o. apply stage_bind_type.
    { apply apply_each_type_generators.
      destruct inherit as [refs|]; [destruct (nonempty refs)|];
        auto using references_type_generators. }
    intros m3 ps. apply stage_Ok.
  - (* reference *)
    injection H as <-. intros m. cbv beta.
    destruct (String.eqb (def_name d) (target_name ref)); cbn [negb].
    + simpl. apply stage_bind_type; [apply gen_reference_type_generator|].
      intros m2 r. apply stage_Ok.
    + rewrite bind_assoc. apply stage_name. intros m1 b. simpl.
      apply stage_bind_type; [apply gen_reference_type_generator|].
      intros m2 r. apply stage_Ok.
  - (* resource *)
    unfold gen_resource in H.
    destruct (find named_metadata properties) as [[pname req value meta]|]; [|discriminate].
    destruct value; try discriminate.
    bind_inv H. injection H as <-.
    assert (Ha : type_generator a).
    { pose proof (gen_object_result (drop_found named_metadata properties) None false) as Ho.
      unfold Generator in *. rewrite Hstep in Ho. apply Ho.
      apply Forall_forall. intros p _. apply gen_type_spec. }
    intros m.
    apply (stage_import _ lib_schema "factory" None _
             (fun x => let '(module1, factoryBase) := x in _)).
    intros m1 b1.
    apply (stage_import _ lib_schema "ResourceList" type_true _
             (fun x => let '(module2, listBase) := x in _)).
    intros m2 b2.
    apply stage_name. intros m3 b3. apply stage_name. intros m4 b4.
    apply stage_bind_type; [destruct (Ha m4) as (m5 & r & E & Hn); eauto|].
    intros m5 o. apply stage_Ok.
Qed.

Lemma resourceBase_declares (defs : list Definition_) (resource : option Generator) :
  resourceBase defs = Ok resource ->
  Forall2 declares (option_list resource)
          (if existsb (fun d => is_resource (def_value d)) defs then [["Resource"]] else []).
Proof.
  unfold resourceBase. intros H.
  assert (Hf : existsb (fun d => is_resource (def_value d)) defs
               = match find (fun d => is_resource (def_value d)) defs with
                 | Some _ => true | None => false end).
  { clear H. induction defs as [|d defs IH]; [reflexivity|]. simpl.
    destruct (is_resource (def_value d)); [reflexivity | exact IH]. }
  rewrite Hf. clear Hf.
  destruct (find _ defs) as [resourceDef|]; [|injection H as <-; constructor].
  destruct (find metadata_reference _) as [[pname req value meta]|]; [|discriminate].
  destruct value; try discriminate. injection H as <-.
  constructor; [|constructor].
  intros m. cbv beta. apply stage_name. intros m1 b1.
  apply (stage_import _ lib_schema "Resource" type_true _
           (fun x => let '(module2, base) := x in _)).
  intros m2 b2.
  apply (stage_import _ lib_schema "NameScope" type_true _
           (fun x => let '(module3, scope) := x in _)).
  intros m3 b3.
  apply stage_bind_type; [apply gen_reference_type_generator|].
  intros m4 md. apply stage_Ok.
Qed.

(** X15. When the generators of a schema are built and two of its members
    declare one name, [emitVersion] throws [Duplicate declaration of] with
    the first name, in the order of the members, that an earlier member
    declared: [APIVersion] and [apiVersion], then [Resource] when the schema
    has a resource, then for each definition in turn its name (and the name
    of its list, for a resource). *)
Theorem emitVersion_reports_first_duplicate {host : Host} (schema : APIGroupVersion)
    (engine : Engine) (t : string) :
  is_ok (resourceBase (definitions schema)) = true ->
  is_ok (mapM gen_definition (definitions schema)) = true ->
  first_duplicate [] (schema_declarations schema) = Some t ->
  emitVersion schema engine = Err ("Duplicate declaration of " ++ t).
Proof.
  intros Hr Hg Hdup.
  destruct (resourceBase (definitions schema)) as [resource|] eqn:Er; [|discriminate].
  destruct (mapM gen_definition (definitions schema)) as [gens|] eqn:Eg; [|discriminate].
  destruct (emitVersion_members schema engine resource gens Er Eg) as [p ->].
  unfold Module_render. cbn [generators state].
  assert (Hall : Forall2 declares (apiVersion :: option_list resource ++ gens)
                   (["APIVersion"; "apiVersion"]
                    :: (if existsb (fun d => is_resource (def_value d)) (definitions schema)
                        then [["Resource"]] else [])
                    ++ map declared_names (definitions schema))).
  { constructor; [apply apiVersion_declares_names|].
    apply Forall2_app; [now apply resourceBase_declares|].
    apply mapM_Ok_Forall2 in Eg. clear - Eg.
    induction Eg; constructor; auto using gen_definition_declares. }
  pose proof (apply_each_declares _ _ Hall
                {| path := p; names := Names_new; imports := Imports_new |}) as Hs.
  unfold stage_declares in Hs. cbn [names] in Hs.
  assert (Hc : concat (["APIVersion"; "apiVersion"]
                       :: (if existsb (fun d => is_resource (def_value d)) (definitions schema)
                           then [["Resource"]] else [])
                       ++ map declared_names (definitions schema))
               = schema_declarations schema).
  { unfold schema_declarations. cbn [concat app]. do 2 f_equal.
    rewrite concat_app, flat_map_concat_map.
    now destruct (existsb _ (definitions schema)). }
  rewrite Hc in Hs.
  pose proof (Names_register_from (map (fun t => (t, declaration)) (schema_declarations schema))
                Names_new [] (fun t => eq_refl)) as Hreg.
  rewrite declarations_of_declare, Hdup in Hreg.
  unfold declare_all in Hs. rewrite Hreg in Hs. now rewrite Hs.
Qed.

Lemma emitVersion_reports_first_duplicate_witness :
  @emitVersion sample_host duplicate_schema deno = Err ("Duplicate declaration of " ++ "Color").
Proof.
  apply (@emitVersion_reports_first_duplicate sample_host duplicate_schema deno "Color");
    reflexivity.
Defined.

(** ** Renderers and bindings *)

Lemma apply_each_length (gs : list Generator) (m m' : Module) (rs : list Renderer) :
  apply_each gs m = Ok (m', rs) -> length rs = length gs.
Proof.
  revert m m' rs. induction gs as [|g gs IH]; simpl; intros m m' rs H.
  - now injection H as <- <-.
  - bind_inv H. destruct a as [m1 r]. bind_inv H. destruct a as [m2 rs'].
    injection H as <- <-. simpl. f_equal. exact (IH _ _ _ Hstep0).
Qed.

Lemma Name_binding_resolved (log : list Registration) (ns : Names) (k : nat)
    (token : string) (u : NameUsage) (p : string) (imps : Imports) :
  Names_inv log ns ->
  nth_error log k = Some (token, u) ->
  Name_binding k {| path := p; names := Names_resolve ns; imports := imps |}
  = Ok (spelled token (rank log k token u)).
Proof.
  intros Hinv Hk. unfold Name_binding. cbn [names].
  now rewrite (Names_deref_resolved _ _ _ _ _ Hinv Hk).
Qed.

(** ** The outcome of the render pass *)

Lemma outcome_Ok (A : Type) (a : A) : outcome (Ok a) true.
Proof. simpl. eauto. Qed.

Lemma outcome_ready (A : Type) (c : result A) : (exists a, c = Ok a) -> outcome c true.
Proof. auto. Qed.

Lemma outcome_bind (A B : Type) (c : result A) (k : A -> result B) (b1 b2 : bool) :
  outcome c b1 -> (forall a, outcome (k a) b2) -> outcome (bind c k) (b1 && b2).
Proof.
  unfold outcome. destruct b1; simpl.
  - intros [a ->] Hk. simpl. exact (Hk a).
  - intros -> _. reflexivity.
Qed.

Lemma outcome_eq (A : Type) (c : result A) (b b' : bool) :
  outcome c b -> b = b' -> outcome c b'.
Proof. now intros H <-. Qed.

Lemma outcome_mapM (A B : Type) (f : A -> result B) (p : A -> bool) (l : list A) :
  Forall (fun x => outcome (f x) (p x)) l -> outcome (mapM f l) (forallb p l).
Proof.
  induction 1 as [|x l Hx _ IH]; simpl; [eauto|].
  apply outcome_bind; [exact Hx|]. intros y.
  apply (outcome_eq _ _ (forallb p l && true)); [|apply andb_true_r].
  apply outcome_bind; [exact IH|]. intros ys. apply outcome_Ok.
Qed.

Lemma forallb_flat_map (A B : Type) (p : B -> bool) (f : A -> list B) (l : list A) :
  forallb p (flat_map f l) = forallb (fun x => forallb p (f x)) l.
Proof.
  induction l as [|x l IH]; [reflexivity|]. simpl. now rewrite forallb_app, IH.
Qed.

Lemma reference_text_outcome (ctx : Context) (D : list string) (ref : TypeReference) :
  gets (module ctx) D ->
  (forall c, In c (reference_import ref) ->
     exists s, Import_binding (Import_urn (fst c), snd c) (module ctx) = Ok s) ->
  outcome (reference_text ref ctx) (forallb (declared_in D) (reference_local ref)).
Proof.
  intros Hg Hi. unfold reference_text, reference_local, reference_import in *.
  destruct (target_scope ref) as [scope|]; simpl.
  - apply (Hi (scope_source scope, target_name ref)). now left.
  - rewrite (Hg (target_name ref)), andb_true_r.
    unfold outcome. destruct (declared_in D (target_name ref)); eauto.
Qed.

Lemma existsb_false_In (A : Type) (f : A -> bool) (l : list A) (x : A) :
  existsb f l = false -> In x l -> f x = false.
Proof.
  intros H Hin. destruct (f x) eqn:E; [|reflexivity].
  rewrite <- H. symmetry. apply existsb_exists. eauto.
Qed.

(** The text of a type whose imports can be read. *)
Lemma type_text_outcome (ctx : Context) (D : list string) (t : Type_) :
  gets (module ctx) D ->
  has_resource t = false ->
  forall declaration,
    (forall c, In c (type_imports t declaration) ->
       exists s, Import_binding (Import_urn (fst c), snd c) (module ctx) = Ok s) ->
    outcome (type_text ctx t declaration) (forallb (declared_in D) (type_locals t declaration)).
Proof.
  intros Hg.
  induction t as [enum| | | |values IH|values IH|properties inherit IH|values IH|value IH
                 |ref| |properties scope IH] using Type_induction;
    intros Hres declaration Hi;
    cbn [type_text type_locals type_imports has_resource] in *;
    try apply outcome_Ok.
  - apply (outcome_eq _ _ (forallb (declared_in D) (type_locals values false) && true));
      [|apply andb_true_r].
    apply outcome_bind; [now apply IH|]. intros v. apply outcome_Ok.
  - apply (outcome_eq _ _ (forallb (declared_in D) (type_locals values false) && true));
      [|apply andb_true_r].
    apply outcome_bind; [now apply IH|]. intros v. apply outcome_Ok.
  - rewrite forallb_app, !forallb_flat_map.
    apply outcome_bind.
    { apply outcome_mapM. apply Forall_forall. intros ref Href.
      apply reference_text_outcome; [assumption|].
      intros c Hc. apply Hi, in_or_app. left. apply in_flat_map. eauto. }
    intros ps.
    match goal with |- outcome _ ?b => apply (outcome_eq _ _ (b && true)); [|apply andb_true_r] end.
    apply outcome_bind; [|intros qs; apply outcome_Ok].
    apply outcome_mapM. rewrite Forall_forall in IH. apply Forall_forall. intros p Hp.
    match goal with |- outcome _ ?b => apply (outcome_eq _ _ (b && true)); [|apply andb_true_r] end.
    apply outcome_bind; [|intros v; apply outcome_Ok].
    apply (IH p Hp).
    + exact (existsb_false_In _ (fun p => has_resource (prop_value p)) _ p Hres Hp).
    + intros c Hc. apply Hi, in_or_app. right. apply in_flat_map. eauto.
  - rewrite forallb_flat_map.
    match goal with |- outcome _ ?b => apply (outcome_eq _ _ (b && true)); [|apply andb_true_r] end.
    apply outcome_bind; [|intros vs; apply outcome_Ok].
    apply outcome_mapM. rewrite Forall_forall in IH. apply Forall_forall. intros v Hv.
    apply (IH v Hv).
    + exact (existsb_false_In _ has_resource _ v Hres Hv).
    + intros c Hc. apply Hi, in_flat_map. eauto.
  - apply (outcome_eq _ _ (forallb (declared_in D) (type_locals value false) && true));
      [|apply andb_true_r].
    apply outcome_bind; [now apply IH|]. intros v. apply outcome_Ok.
  - now apply reference_text_outcome.
  - discriminate Hres.
Qed.

(** ** What a first stage leaves for the render pass *)

Lemma grows_refl (m : Module) : grows m m.
Proof. unfold grows. auto. Qed.

Lemma grows_trans (m1 m2 m3 : Module) : grows m1 m2 -> grows m2 m3 -> grows m1 m3.
Proof.
  intros (Hc1 & Hw1 & Hd1) (Hc2 & Hw2 & Hd2). unfold grows. split; [lia | auto].
Qed.

Lemma covers_grows (mf m1 m2 : Module) : covers mf m2 -> grows m1 m2 -> covers mf m1.
Proof.
  intros [Hn Hi] (Hc & _ & Hd). split.
  - intros k Hk. apply Hn. lia.
  - intros r Hr. apply Hi. auto.
Qed.

Lemma Module_import_grows (source : ImportSource) (name : string)
    (options : option ImportOptions) (m : Module) :
  grows m (fst (Module_import source name options m))
  /\ snd (Module_import source name options m) = Import_binding (Import_urn source, name)
  /\ Imports_deref (Import_urn source, name)
       (imports (fst (Module_import source name options m))) <> None.
Proof.
  unfold Module_import.
  pose proof (Imports_use_ref source name options (imports m)) as Hr.
  pose proof (Imports_use_deref source name options (imports m)) as Hd.
  pose proof (Imports_use_wf source name options (imports m)) as Hw.
  pose proof (Imports_use_frame source name options (imports m)) as Hf.
  destruct (Imports_use source name options (imports m)) as [imps r]. simpl in *. subst r.
  assert (Hnew : Imports_deref (Import_urn source, name) imps <> None).
  { unfold ModuleURN in *. rewrite Hd. discriminate. }
  split; [|split; [reflexivity | exact Hnew]].
  unfold grows. simpl. split; [lia|]. split; [exact Hw|].
  intros r Hr.
  destruct (ref_eq_cases r (Import_urn source) name) as [->|Hne]; [exact Hnew|].
  now rewrite Hf.
Qed.

Lemma import_types_grows (l : list (ImportSource * string)) (m : Module) :
  grows m (import_types l m)
  /\ forall c, In c l ->
       Imports_deref (Import_urn (fst c), snd c) (imports (import_types l m)) <> None.
Proof.
  revert m. induction l as [|c l IH]; intros m.
  - split; [apply grows_refl | intros c []].
  - unfold import_types. simpl. fold (import_types l (fst (Module_import (fst c) (snd c) type_true m))).
    destruct (Module_import_grows (fst c) (snd c) type_true m) as (Hg & _ & Hd).
    destruct (IH (fst (Module_import (fst c) (snd c) type_true m))) as [Hg' Hd'].
    split; [now apply (grows_trans _ _ _ Hg Hg')|].
    intros c' [<-|Hin]; [|now apply Hd'].
    destruct Hg' as (_ & _ & Hk). now apply Hk.
Qed.

Lemma Module_name_inv (t : string) (u : NameUsage) (m m' : Module) (b : Binding) :
  Module_name t u m = Ok (m', b) ->
  b = Name_binding (Names_count (names m))
  /\ Names_count (names m') = S (Names_count (names m))
  /\ imports m' = imports m.
Proof.
  unfold Module_name. rewrite Names_add_eq.
  destruct (existsb _ _); [discriminate|]. cbv zeta. simpl. intros [= <- <-].
  cbn [names imports nid]. repeat split.
  destruct (names m) as [bd]. apply Names_count_set.
Qed.

Lemma Module_name_grows (t : string) (u : NameUsage) (m m' : Module) (b : Binding) :
  Module_name t u m = Ok (m', b) ->
  grows m m'
  /\ forall mf m'', grows m' m'' -> covers mf m'' -> exists s, b mf = Ok s.
Proof.
  intros H. destruct (Module_name_inv _ _ _ _ _ H) as (-> & Hc & Hi). split.
  - unfold grows. rewrite Hi. split; [lia | auto].
  - intros mf m'' (Hc' & _) [Hn _]. apply Hn. lia.
Qed.

Lemma import_binding_covered (source : ImportSource) (name : string)
    (options : option ImportOptions) (m mf m'' : Module) :
  grows (fst (Module_import source name options m)) m'' -> covers mf m'' ->
  exists s, snd (Module_import source name options m) mf = Ok s.
Proof.
  intros (_ & _ & Hk) [_ Hi].
  destruct (Module_import_grows source name options m) as (_ & -> & Hd). auto.
Qed.

(** The generator of a type. *)
Lemma gen_type_renderer (t : Type_) (declaration : bool) (g : Generator) :
  gen_type t declaration = Ok g -> renderer_ok g (type_locals t declaration).
Proof.
  intros Hg. pose proof (gen_type_outcome_all t declaration) as Ho.
  destruct (has_resource t) eqn:Hres; [congruence|].
  destruct Ho as (g' & Hg' & Hc). assert (g' = g) by congruence. subst g'.
  intros m m' r Hm. destruct (Hc m) as (r' & Hm' & Hr).
  rewrite Hm in Hm'. injection Hm' as -> ->.
  destruct (import_types_grows (type_imports t declaration) m) as [Hgr Hd].
  split; [exact Hgr|].
  intros ctx D [_ Hcov] Hgets. rewrite Hr.
  apply type_text_outcome; auto.
Qed.

Lemma gen_reference_renderer (ref : TypeReference) :
  renderer_ok (gen_reference ref) (reference_local ref).
Proof. exact (gen_type_renderer (TReference ref) false (gen_reference ref) eq_refl). Qed.

(** The generators of a list, in order. *)
Lemma apply_each_renderers (gs : list Generator) (ls : list (list string)) :
  Forall2 renderer_ok gs ls ->
  forall m m' rs,
    apply_each gs m = Ok (m', rs) ->
    grows m m'
    /\ forall ctx D,
         covers (module ctx) m' -> gets (module ctx) D ->
         outcome (render_each rs ctx) (forallb (declared_in D) (concat ls)).
Proof.
  induction 1 as [|g l gs ls Hg _ IH]; intros m m' rs H; simpl in H.
  - injection H as <- <-. split; [apply grows_refl|]. intros. apply outcome_Ok.
  - bind_inv H. destruct a as [m1 r]. bind_inv H. destruct a as [m2 rs'].
    injection H as <- <-.
    destruct (Hg _ _ _ Hstep) as [Hg1 Hr]. destruct (IH _ _ _ Hstep0) as [Hg2 Hrs].
    split; [now apply (grows_trans _ _ _ Hg1 Hg2)|].
    intros ctx D Hcov Hgets. cbn [concat]. rewrite forallb_app.
    unfold render_each. cbn [mapM].
    apply outcome_bind; [apply Hr; [now apply (covers_grows _ _ _ Hcov)|assumption]|].
    intros s.
    match goal with |- outcome _ ?b => apply (outcome_eq _ _ (b && true)); [|apply andb_true_r] end.
    apply outcome_bind; [now apply Hrs|]. intros ss. apply outcome_Ok.
Qed.

Lemma references_renderers (refs : list TypeReference) :
  Forall2 renderer_ok (map gen_reference refs) (map reference_local refs).
Proof. induction refs; constructor; auto using gen_reference_renderer. Qed.

(** ** The members of a module in the render pass *)

Lemma gets_outcome (mf : Module) (D : list string) (t : string) :
  gets mf D -> outcome (Module_get t mf) (declared_in D t).
Proof.
  intros H. rewrite (H t). unfold outcome. destruct (declared_in D t); eauto.
Qed.

(** One step of a renderer: a binding that can be read, a lookup, an inner
    renderer, or the final text. *)
Ltac render_step :=
  first [ apply outcome_Ok
        | eapply outcome_bind; [|intros ?] ].

Lemma apiVersion_renderer : renderer_ok apiVersion [].
Proof.
  intros m m' r H. unfold apiVersion in H.
  bind_inv H. destruct a as [m1 type]. bind_inv H. destruct a as [m2 value].
  injection H as <- <-.
  destruct (Module_name_grows _ _ _ _ _ Hstep) as [Hg1 Htype].
  destruct (Module_name_grows _ _ _ _ _ Hstep0) as [Hg2 Hvalue].
  split; [now apply (grows_trans _ _ _ Hg1 Hg2)|].
  intros ctx D Hcov Hgets. cbv zeta. unfold module_of.
  pose proof (Htype _ _ Hg2 Hcov) as Ht. pose proof (Hvalue _ _ (grows_refl _) Hcov) as Hv.
  eapply outcome_eq.
  - render_step; [apply outcome_ready, Ht|].
    render_step; [apply outcome_ready, Hv|].
    render_step; [apply outcome_ready, Ht|].
    render_step.
  - reflexivity.
Qed.

Lemma resourceBase_renderer (defs : list Definition_) (resource : option Generator) :
  resourceBase defs = Ok resource ->
  Forall2 renderer_ok (option_list resource) (option_list
    (match resource with Some _ => Some (resource_lookups defs) | None => None end)).
Proof.
  unfold resourceBase, resource_lookups. intros H.
  destruct (find _ defs) as [resourceDef|]; [|injection H as <-; constructor].
  destruct (def_value resourceDef) as [| | | | | | | | | | |properties scope];
    try (simpl in H; discriminate H).
  destruct (find metadata_reference properties) as [[pname req value meta]|];
    [|discriminate H].
  destruct value; try discriminate H. injection H as <-. cbn [prop_value option_list].
  constructor; [|constructor].
  intros m m' r H.
  bind_inv H. destruct a as [m1 resource].
  destruct (Module_name_grows _ _ _ _ _ Hstep) as [Hg1 Hres].
  pose proof (Module_import_grows lib_schema "Resource" type_true m1) as (Hg2 & _ & _).
  pose proof (import_binding_covered lib_schema "Resource" type_true m1) as Hbase.
  destruct (Module_import lib_schema "Resource" type_true m1) as [m2 base]. simpl in Hg2, Hbase.
  pose proof (Module_import_grows lib_schema "NameScope" type_true m2) as (Hg3 & _ & _).
  pose proof (import_binding_covered lib_schema "NameScope" type_true m2) as Hscope.
  destruct (Module_import lib_schema "NameScope" type_true m2) as [m3 scope']. simpl in Hg3, Hscope.
  bind_inv H. destruct a as [m4 metadata]. injection H as <- <-.
  destruct (gen_reference_renderer _ _ _ _ Hstep0) as [Hg4 Hmd].
  split.
  { apply (grows_trans _ _ _ Hg1). apply (grows_trans _ _ _ Hg2).
    now apply (grows_trans _ _ _ Hg3). }
  intros ctx D Hcov Hgets. cbv zeta. unfold module_of.
  pose proof (Hbase _ _ (grows_trans _ _ _ Hg3 Hg4) Hcov) as Hb.
  pose proof (Hscope _ _ Hg4 Hcov) as Hs.
  pose proof (Hres _ _ (grows_trans _ _ _ Hg2 (grows_trans _ _ _ Hg3 Hg4)) Hcov) as Hr.
  eapply outcome_eq.
  - render_step; [apply outcome_ready, Hb|].
    render_step; [apply outcome_ready, Hr|].
    render_step; [apply outcome_ready, Hs|].
    render_step; [apply outcome_ready, Hb|].
    render_step; [apply gets_outcome, Hgets|].
    render_step; [exact (Hmd ctx D Hcov Hgets)|].
    render_step.
  - cbn [forallb andb]. now rewrite andb_true_r.
Qed.

Lemma gen_definition_renderer (d : Definition_) (g : Generator) :
  gen_definition d = Ok g -> renderer_ok g (definition_lookups d).
Proof.
  unfold gen_definition, definition_lookups. intros H.
  destruct (def_value d) as [enum| | | |values|values|properties inherit|values|value
                            |ref| |properties scope] eqn:Ev;
    try (bind_inv H; injection H as <-;
         pose proof (gen_type_renderer _ _ _ Hstep) as Ha;
         intros m m' r H;
         bind_inv H; destruct a0 as [m1 name]; bind_inv H; destruct a0 as [m2 v];
         injection H as <- <-;
         destruct (Module_name_grows _ _ _ _ _ Hstep0) as [Hg1 Hname];
         destruct (Ha _ _ _ Hstep1) as [Hg2 Hv];
         split; [now apply (grows_trans _ _ _ Hg1 Hg2)|];
         intros ctx D Hcov Hgets; cbv zeta; unfold module_of;
         pose proof (Hname _ _ Hg2 Hcov) as Hn;
         eapply outcome_eq;
         [ render_step; [apply outcome_ready, Hn|];
           render_step; [exact (Hv ctx D Hcov Hgets)|];
           render_step
         | cbn [andb]; apply andb_true_r ]).
  - (* object *)
    unfold gen_interface in H. bind_inv H. injection H as <-.
    pose proof (gen_type_renderer _ _ _ Hstep) as Ha.
    intros m m' r H.
    bind_inv H. destruct a0 as [m1 name]. bind_inv H. destruct a0 as [m2 object].
    bind_inv H. destruct a0 as [m3 parents]. injection H as <- <-.
    destruct (Module_name_grows _ _ _ _ _ Hstep0) as [Hg1 Hname].
    destruct (Ha _ _ _ Hstep1) as [Hg2 Ho].
    assert (Hparents :
      Forall2 renderer_ok
        match inherit with
        | Some refs => if nonempty refs then map gen_reference refs else []
        | None => []
        end
        (map reference_local match inherit with Some refs => refs | None => [] end)).
    { destruct inherit as [[|ref refs]|]; try constructor.
      - apply gen_reference_renderer.
      - apply references_renderers. }
    destruct (apply_each_renderers _ _ Hparents _ _ _ Hstep2) as [Hg3 Hps].
    split.
    { apply (grows_trans _ _ _ Hg1). now apply (grows_trans _ _ _ Hg2). }
    intros ctx D Hcov Hgets. cbv zeta. unfold module_of.
    pose proof (Hname _ _ (grows_trans _ _ _ Hg2 Hg3) Hcov) as Hn.
    pose proof (Ho ctx D (covers_grows _ _ _ Hcov Hg3) Hgets) as Hobj.
    pose proof (Hps ctx D Hcov Hgets) as Hpar.
    rewrite forallb_app, flat_map_concat_map.
    eapply outcome_eq.
    + render_step.
      { instantiate (1 := forallb (declared_in D)
                            (concat (map reference_local
                                       match inherit with Some refs => refs | None => [] end))).
        destruct parents as [|p0 parents]; cbn [nonempty].
        - unfold render_each in Hpar. simpl in Hpar.
          match type of Hpar with outcome _ ?b => destruct b end;
            [apply outcome_Ok | discriminate Hpar].
        - match goal with |- outcome _ ?b => apply (outcome_eq _ _ (b && true));
            [|apply andb_true_r] end.
          render_step; [exact Hpar|]. render_step. }
      render_step; [apply outcome_ready, Hn|].
      render_step; [exact Hobj|].
      render_step.
    + cbn [andb]. now rewrite andb_true_r.
  - (* reference *)
    injection H as <-. intros m m' r H.
    bind_inv H. destruct a as [m1 name]. bind_inv H. destruct a as [m2 ref'].
    injection H as <- <-.
    destruct (gen_reference_renderer _ _ _ _ Hstep0) as [Hg2 Href].
    assert (Hname : grows m m1
                    /\ forall mf, covers mf m2 ->
                         match name with
                         | Some b => exists s, b mf = Ok s
                         | None => True
                         end).
    { destruct (negb (String.eqb (def_name d) (target_name ref))).
      - bind_inv Hstep. destruct a as [m0 b]. injection Hstep as <- <-.
        destruct (Module_name_grows _ _ _ _ _ Hstep1) as [Hg1 Hb].
        split; [exact Hg1|]. intros mf Hcov. exact (Hb _ _ Hg2 Hcov).
      - injection Hstep as <- <-. split; [apply grows_refl | auto]. }
    destruct Hname as [Hg1 Hname].
    split; [now apply (grows_trans _ _ _ Hg1 Hg2)|].
    intros ctx D Hcov Hgets. cbv zeta. unfold module_of.
    specialize (Hname _ Hcov).
    eapply outcome_eq.
    + render_step.
      { instantiate (1 := true). destruct name as [b|]; [|apply outcome_Ok].
        apply (outcome_eq _ _ (true && true)); [|reflexivity].
        render_step; [apply outcome_ready, Hname|]. render_step. }
      render_step; [exact (Href ctx D Hcov Hgets)|].
      render_step.
    + cbn [andb]. apply andb_true_r.
  - (* resource *)
    unfold gen_resource in H.
    destruct (find named_metadata properties) as [[pname req value meta]|]; [|discriminate].
    destruct value; try discriminate.
    bind_inv H. injection H as <-.
    pose proof (gen_type_renderer (TObject (drop_found named_metadata properties) None) false
                  a Hstep) as Ha.
    intros m m' r H.
    pose proof (Module_import_grows lib_schema "factory" None m) as (Hg1 & _ & _).
    pose proof (import_binding_covered lib_schema "factory" None m) as Hfactory.
    destruct (Module_import lib_schema "factory" None m) as [m1 factoryBase].
    simpl in Hg1, Hfactory.
    pose proof (Module_import_grows lib_schema "ResourceList" type_true m1) as (Hg2 & _ & _).
    pose proof (import_binding_covered lib_schema "ResourceList" type_true m1) as Hlist.
    destruct (Module_import lib_schema "ResourceList" type_true m1) as [m2 listBase].
    simpl in Hg2, Hlist.
    bind_inv H. destruct a0 as [m3 name]. bind_inv H. destruct a0 as [m4 listName].
    bind_inv H. destruct a0 as [m5 object]. injection H as <- <-.
    destruct (Module_name_grows _ _ _ _ _ Hstep0) as [Hg3 Hname].
    destruct (Module_name_grows _ _ _ _ _ Hstep1) as [Hg4 HlistName].
    destruct (Ha _ _ _ Hstep2) as [Hg5 Hobject].
    assert (Hg45 : grows m3 m5) by now apply (grows_trans _ _ _ Hg4 Hg5).
    assert (Hg25 : grows m2 m5) by now apply (grows_trans _ _ _ Hg3 Hg45).
    assert (Hg15 : grows m1 m5) by now apply (grows_trans _ _ _ Hg2 Hg25).
    split; [now apply (grows_trans _ _ _ Hg1 Hg15)|].
    intros ctx D Hcov Hgets. cbv zeta. unfold module_of.
    pose proof (Hname _ _ Hg45 Hcov) as Hn.
    pose proof (HlistName _ _ Hg5 Hcov) as Hl.
    pose proof (Hfactory _ _ Hg15 Hcov) as Hf.
    pose proof (Hlist _ _ Hg25 Hcov) as Hlb.
    pose proof (Hobject ctx D Hcov Hgets) as Ho.
    eapply outcome_eq.
    + render_step.
      { render_step; [apply outcome_ready, Hn|].
        render_step; [apply outcome_ready, Hn|].
        render_step; [apply gets_outcome, Hgets|].
        render_step; [exact Ho|].
        render_step. }
      render_step.
      { render_step; [apply gets_outcome, Hgets|].
        render_step; [apply outcome_ready, Hn|].
        render_step; [apply outcome_ready, Hn|].
        render_step; [apply outcome_ready, Hf|].
        render_step; [apply outcome_ready, Hn|].
        render_step. }
      render_step.
      { render_step; [apply outcome_ready, Hl|].
        render_step; [apply outcome_ready, Hlb|].
        render_step; [apply outcome_ready, Hn|].
        render_step. }
      render_step.
    + cbn [forallb andb].
      destruct (declared_in D "Resource"), (declared_in D "apiVersion"),
        (forallb (declared_in D) _); reflexivity.
Qed.

(** ** The outcome of [emitVersion] *)

(** The import block of a table whose imports have their spellings
    renders, whatever the order of the host. *)
Lemma renderImport_ready {host : Host} (ctx : Context) (imps : Imports)
    (paths : JsMap ModuleURN string) (urn : ModuleURN) :
  Forall (fun e => exists t, Import_token (snd e) (names (module ctx)) = Ok t)
         (all_imports (modules imps)) ->
  exists s, renderImport ctx imps paths urn = Ok s.
Proof.
  intros Hready. unfold renderImport. cbv zeta.
  set (ms := sort _ _).
  assert (Hms : Forall (fun i => exists t, Import_token i (names (module ctx)) = Ok t) ms).
  { apply Forall_forall. intros i Hi.
    apply (Permutation_in _ (sort_Permutation _ _ _)) in Hi.
    destruct (map_get String.eqb urn (modules imps)) as [mod_|] eqn:E; [|destruct Hi].
    apply map_get_In in E. unfold map_values in Hi.
    apply in_map_iff in Hi. destruct Hi as ([k i'] & Heq & Hk). simpl in Heq. subst i'.
    rewrite Forall_forall in Hready.
    apply (Hready (urn, i)). unfold all_imports. apply in_flat_map.
    exists (urn, mod_). split; [assumption|]. simpl.
    change (urn, i) with ((fun m : string * Import => (urn, snd m)) (k, i)).
    now apply in_map. }
  destruct (Forall_tokens ctx ms Hms) as [ts Hts].
  destruct (forallb type_ ms) eqn:Eall.
  - rewrite (Import_render_tokens ctx true ms ts Hts (fun _ => Eall)). simpl. eauto.
  - rewrite (Import_render_tokens ctx false ms ts Hts) by discriminate. simpl. eauto.
Qed.

Lemma Imports_render_ready {host : Host} (ctx : Context) (imps : Imports) :
  Forall (fun e => exists t, Import_token (snd e) (names (module ctx)) = Ok t)
         (all_imports (modules imps)) ->
  exists s, Imports_render ctx imps = Ok s.
Proof.
  intros Hready. unfold Imports_render. cbv zeta.
  match goal with |- context [mapM ?f ?l] =>
    destruct (mapM_all_Ok _ _ f l) as [gs ->] end; [|simpl; eauto].
  apply Forall_forall. intros group _. unfold renderGroup.
  match goal with |- context [mapM ?f ?l] =>
    destruct (mapM_all_Ok _ _ f l) as [ss ->] end; [|simpl; eauto].
  apply Forall_forall. intros urn _. now apply renderImport_ready.
Qed.

Lemma declarations_of_app (l1 l2 : list Registration) :
  declarations_of (l1 ++ l2) = (declarations_of l1 ++ declarations_of l2)%list.
Proof. unfold declarations_of. now rewrite filter_app, map_app. Qed.

Lemma declarations_of_imports (l : list (ModuleURN * Import)) :
  declarations_of (import_log l) = [].
Proof. induction l as [|e l IH]; [reflexivity | exact IH]. Qed.

(** The members of the module of a schema, with what they declare. *)
Lemma members_declare (schema : APIGroupVersion) (resource : option Generator)
    (gens : list Generator) (m : Module) :
  resourceBase (definitions schema) = Ok resource ->
  mapM gen_definition (definitions schema) = Ok gens ->
  stage_declares _ (apply_each (apiVersion :: option_list resource ++ gens) m)
                 (schema_declarations schema) m.
Proof.
  intros Er Eg.
  assert (Hall : Forall2 declares (apiVersion :: option_list resource ++ gens)
                   (["APIVersion"; "apiVersion"]
                    :: (if existsb (fun d => is_resource (def_value d)) (definitions schema)
                        then [["Resource"]] else [])
                    ++ map declared_names (definitions schema))).
  { constructor; [apply apiVersion_declares_names|].
    apply Forall2_app; [now apply resourceBase_declares|].
    apply mapM_Ok_Forall2 in Eg. clear - Eg.
    induction Eg; constructor; auto using gen_definition_declares. }
  pose proof (apply_each_declares _ _ Hall m) as Hs.
  replace (schema_declarations schema) with
    (concat (["APIVersion"; "apiVersion"]
             :: (if existsb (fun d => is_resource (def_value d)) (definitions schema)
                 then [["Resource"]] else [])
             ++ map declared_names (definitions schema))); [exact Hs|].
  unfold schema_declarations. cbn [concat app]. do 2 f_equal.
  rewrite concat_app, flat_map_concat_map.
  now destruct (existsb _ (definitions schema)).
Qed.

(** The members of the module of a schema, with what they look up. *)
Lemma members_render (schema : APIGroupVersion) (resource : option Generator)
    (gens : list Generator) :
  resourceBase (definitions schema) = Ok resource ->
  mapM gen_definition (definitions schema) = Ok gens ->
  exists ls,
    Forall2 renderer_ok (apiVersion :: option_list resource ++ gens) ls
    /\ forall D, forallb (declared_in D) (concat ls)
                 = forallb (declared_in D) (schema_lookups schema).
Proof.
  intros Er Eg.
  exists ([] :: option_list (match resource with
                             | Some _ => Some (resource_lookups (definitions schema))
                             | None => None
                             end)
          ++ map definition_lookups (definitions schema)).
  split.
  - constructor; [apply apiVersion_renderer|].
    apply Forall2_app; [now apply resourceBase_renderer|].
    apply mapM_Ok_Forall2 in Eg. clear - Eg.
    induction Eg; constructor; auto using gen_definition_renderer.
  - intros D. unfold schema_lookups. cbn [concat app].
    rewrite concat_app, !forallb_app, flat_map_concat_map. f_equal.
    destruct resource as [r|]; cbn [option_list concat]; [now rewrite app_nil_r|].
    unfold resourceBase, resource_lookups in *.
    destruct (find _ (definitions schema)) as [resourceDef|]; [|reflexivity].
    destruct (def_value resourceDef); try reflexivity.
    destruct (find metadata_reference _) as [[pname req value meta]|]; [|reflexivity].
    destruct value; try reflexivity. discriminate Er.
Qed.

Lemma forallb_In_eq (A : Type) (p q : A -> bool) (l : list A) :
  (forall x, In x l -> p x = q x) -> forallb p l = forallb q l.
Proof.
  induction l as [|x l IH]; intros H; [reflexivity|]. simpl.
  rewrite (H x (or_introl eq_refl)), IH; [reflexivity|]. intros y Hy. apply H. now right.
Qed.

(** The names that the members look up for themselves are declared. *)
Lemma schema_lookups_references (schema : APIGroupVersion) :
  forallb (declared_in (schema_declarations schema)) (schema_lookups schema)
  = forallb (declared_in (schema_declarations schema)) (schema_references schema).
Proof.
  unfold schema_lookups, schema_references. rewrite !forallb_app. f_equal.
  - unfold resource_lookups.
    destruct (find _ (definitions schema)) as [resourceDef|]; [|reflexivity].
    destruct (def_value resourceDef); try reflexivity.
    destruct (find metadata_reference _) as [[pname req value meta]|]; [|reflexivity].
    destruct value; reflexivity.
  - rewrite !forallb_flat_map. apply forallb_In_eq. intros d Hd.
    unfold definition_references, definition_lookups.
    destruct (def_value d) eqn:Ev; try reflexivity.
    cbn [forallb].
    assert (Hres : declared_in (schema_declarations schema) "Resource" = true).
    { unfold schema_declarations.
      assert (He : existsb (fun d => is_resource (def_value d)) (definitions schema) = true).
      { apply existsb_exists. exists d. split; [assumption|]. now rewrite Ev. }
      rewrite He. reflexivity. }
    rewrite Hres. reflexivity.
Qed.

(** X17. The outcome of [emitVersion] for a schema whose generators can be
    built and whose members declare no name twice: it returns a module when
    every local name that the types of the schema refer to is declared by
    the schema, and otherwise it throws the message of [getDeclared], in
    which the name is [undefined]. Nothing else makes the render pass
    throw: every binding of a name or an import can be read, and the import
    block renders, whatever the order of the host. *)
Theorem emitVersion_outcome {host : Host} (schema : APIGroupVersion) (engine : Engine) :
  is_ok (resourceBase (definitions schema)) = true ->
  is_ok (mapM gen_definition (definitions schema)) = true ->
  first_duplicate [] (schema_declarations schema) = None ->
  if forallb (declared_in (schema_declarations schema)) (schema_references schema)
  then exists s, emitVersion schema engine = Ok s
  else emitVersion schema engine = Err "name undefined not declared in module".
Proof.
  intros Hr Hg Hdup.
  destruct (resourceBase (definitions schema)) as [resource|] eqn:Er; [|discriminate].
  destruct (mapM gen_definition (definitions schema)) as [gens|] eqn:Eg; [|discriminate].
  destruct (emitVersion_members schema engine resource gens Er Eg) as [p ->].
  unfold Module_render. cbn [generators state].
  set (st := {| path := p; names := Names_new; imports := Imports_new |}).
  set (log := map (fun t => (t, declaration)) (schema_declarations schema)).
  (* the first stage of the members *)
  pose proof (members_declare schema resource gens st Er Eg) as Hs.
  unfold stage_declares, declare_all in Hs. fold log in Hs. cbn [names st] in Hs.
  assert (Hlog : declarations_of log = schema_declarations schema)
    by apply declarations_of_declare.
  pose proof (Names_register_from log Names_new [] (fun t => eq_refl)) as Hreg.
  rewrite Hlog, Hdup in Hreg.
  destruct Hreg as [ns Hreg]. rewrite Hreg in Hs. destruct Hs as (m1 & rs & Ea & Hns).
  rewrite Ea. cbn [bind].
  pose proof (Names_register_new_inv _ _ Hreg) as Hinv. rewrite <- Hns in Hinv.
  destruct (members_render schema resource gens Er Eg) as (ls & Hls & Hlook).
  destruct (apply_each_renderers _ _ Hls _ _ _ Ea) as [Hgrow Hrender].
  assert (Hwf : Imports_wf (imports m1)).
  { destruct Hgrow as (_ & Hw & _). apply Hw. exact Imports_new_wf. }
  (* the import table and the spellings *)
  destruct (Imports_apply_spec (imports m1) log (names m1) Hinv) as (ns' & Ei & Hinv').
  rewrite Ei. cbn [bind].
  set (mf := {| path := path m1; names := Names_resolve ns'; imports := _ |}).
  assert (Hfin : finish_apply m1 = Ok mf).
  { unfold finish_apply. rewrite Ei. reflexivity. }
  set (ctx := Context_new schema mf engine).
  assert (Hcov : covers (module ctx) m1).
  { split.
    - intros k Hk. rewrite (inv_count _ _ Hinv) in Hk.
      destruct (nth_error (log ++ import_log (all_imports (modules (imports m1)))) k)
        as [[token u]|] eqn:Ek.
      + exists (spelled token
                  (rank (log ++ import_log (all_imports (modules (imports m1)))) k token u)).
        exact (Name_binding_resolved _ _ k token u _ _ Hinv' Ek).
      + apply nth_error_None in Ek. rewrite length_app in Ek.
        apply Nat.lt_nge in Hk. elim Hk.
        exact (Nat.le_trans _ _ _ (Nat.le_add_r _ _) Ek).
    - intros r Hr'. destruct (Imports_deref r (imports m1)) as [i|] eqn:Ed; [|congruence].
      destruct (Imports_deref_In _ _ _ Hwf Ed) as [Hin Hkey].
      apply In_nth_error in Hin. destruct Hin as [idx Hidx].
      destruct (Import_binding_resolved log m1 idx (fst r) i Hinv Hwf Hidx)
        as (m' & Hm' & Hb).
      rewrite Hfin in Hm'. injection Hm' as <-.
      rewrite <- Hkey in Hb. destruct r as [u k]. eexists. exact Hb. }
  assert (Hgets : gets (module ctx) (schema_declarations schema)).
  { intros t. rewrite (Module_get_resolved _ ns' t (module ctx) Hinv' eq_refl).
    now rewrite declarations_of_app, Hlog, declarations_of_imports, app_nil_r. }
  destruct (finish_apply_ready log m1 Hinv Hwf) as (m' & Hm' & _ & Hready).
  rewrite Hfin in Hm'. injection Hm' as <-.
  destruct (Imports_render_ready ctx (imports mf) Hready) as [block Eb].
  fold ctx. rewrite Eb. cbn [bind].
  specialize (Hrender ctx _ Hcov Hgets).
  rewrite Hlook, schema_lookups_references in Hrender.
  destruct (forallb _ (schema_references schema)); unfold outcome in Hrender.
  - destruct Hrender as [texts ->]. simpl. eauto.
  - now rewrite Hrender.
Qed.

Lemma emitVersion_outcome_witness :
  @emitVersion sample_host dangling_schema deno = Err "name undefined not declared in module".
Proof.
  apply (@emitVersion_outcome sample_host dangling_schema deno); reflexivity.
Defined.

(** ** The definitions that are accepted *)

(** X18. [gen.definition] builds a generator exactly for the buildable
    definitions: it throws for a resource without a [metadata] property or
    whose first [metadata] property is not a reference, and for every
    definition with a resource type inside its type; it accepts every
    other definition. *)
Theorem gen_definition_accepts (d : Definition_) :
  is_ok (gen_definition d) = buildable d.
Proof.
  unfold gen_definition, buildable.
  destruct (def_value d) as [enum| | | |values|values|properties inherit|values|value
                            |ref| |properties scope] eqn:Ev;
    try reflexivity;
    try (match goal with |- context [gen_type ?t true] =>
           pose proof (gen_type_outcome_all t true) as Ho;
           destruct (has_resource t);
           [rewrite Ho; reflexivity | destruct Ho as (g & -> & _); reflexivity]
         end).
  - (* object *)
    unfold gen_interface.
    pose proof (gen_type_outcome_all (TObject properties inherit) true) as Ho.
    destruct (has_resource (TObject properties inherit));
      [rewrite Ho; reflexivity | destruct Ho as (g & -> & _); reflexivity].
  - (* resource *)
    unfold gen_resource.
    destruct (find named_metadata properties) as [[pname req value meta]|]; [|reflexivity].
    cbn [prop_value].
    pose proof (gen_type_outcome_all (TObject (drop_found named_metadata properties) None)
                  false) as Ho.
    cbn [has_resource] in Ho.
    destruct value; try reflexivity. cbn [is_reference andb].
    change (gen_object (drop_found named_metadata properties) None false)
      with (gen_type (TObject (drop_found named_metadata properties) None) false).
    match type of Ho with (if ?b then _ else _) => destruct b end;
      [rewrite Ho; reflexivity | destruct Ho as (g & -> & _); reflexivity].
Qed.

(** ** The module written out *)

Lemma Imports_use_all_app (l1 l2 : list Use) (imps : Imports) :
  Imports_use_all (l1 ++ l2) imps = Imports_use_all l2 (Imports_use_all l1 imps).
Proof. unfold Imports_use_all. apply fold_left_app. Qed.

Lemma import_types_exact (l : list (ImportSource * string)) (m : Module) :
  path (import_types l m) = path m
  /\ names (import_types l m) = names m
  /\ imports (import_types l m) = Imports_use_all (type_uses l) (imports m).
Proof.
  revert m. induction l as [|c l IH]; intros m; [repeat split|].
  unfold import_types in *. cbn [fold_left type_uses map]. unfold Imports_use_all in *.
  cbn [fold_left fst snd].
  destruct (IH (fst (Module_import (fst c) (snd c) type_true m))) as (Hp & Hn & Hi).
  rewrite Hp, Hn, Hi. unfold Module_import.
  destruct (Imports_use (fst c) (snd c) type_true (imports m)) as [imps r]. repeat split.
Qed.

Lemma Module_import_exact (source : ImportSource) (name : string)
    (options : option ImportOptions) (m : Module) :
  Module_import source name options m
  = ({| path := path m; names := names m;
        imports := Imports_use_all [(source, name, options)] (imports m) |},
     Import_binding (Import_urn source, name)).
Proof.
  unfold Module_import, Imports_use_all. cbn [fold_left fst snd].
  pose proof (Imports_use_ref source name options (imports m)) as Hr.
  destruct (Imports_use source name options (imports m)) as [imps r]. simpl in Hr.
  now subst r.
Qed.

Lemma Module_name_exact (log : list Registration) (t : string) (m m' : Module)
    (b : Binding) :
  Names_inv log (names m) ->
  Module_name t declaration m = Ok (m', b) ->
  b = Name_binding (length log)
  /\ path m' = path m
  /\ imports m' = imports m
  /\ Names_inv (log ++ [(t, declaration)]) (names m').
Proof.
  intros Hinv H. unfold Module_name in H. bind_inv H. destruct a as [ns n].
  injection H as <- <-. cbn [path imports names].
  destruct (Names_add_inv _ _ _ _ _ _ Hinv Hstep) as [Hinv' ->].
  split; [reflexivity|]. split; [reflexivity|]. split; [reflexivity | exact Hinv'].
Qed.

Lemma resolves_at (mf : Module) (log rest : list Registration) (t : string) :
  resolves mf ((log ++ (t, declaration) :: rest)) ->
  Name_binding (length log) mf = Ok t.
Proof.
  intros H. apply H. rewrite nth_error_app2, Nat.sub_diag by lia. reflexivity.
Qed.

Lemma references_render (refs : list TypeReference) (m m' : Module) (rs : list Renderer) :
  apply_each (map gen_reference refs) m = Ok (m', rs) ->
  path m' = path m
  /\ names m' = names m
  /\ imports m' = Imports_use_all (type_uses (flat_map reference_import refs)) (imports m)
  /\ forall ctx, render_each rs ctx = mapM (fun ref => reference_text ref ctx) refs.
Proof.
  revert m m' rs. induction refs as [|ref refs IH]; intros m m' rs H; simpl in H.
  - injection H as <- <-. repeat split.
  - bind_inv H. destruct a as [m1 r]. bind_inv H. destruct a as [m2 rs'].
    injection H as <- <-.
    destruct (gen_type_outcome_all (TReference ref) false) as (g & Hg & Hc).
    injection Hg as <-. destruct (Hc m) as (r' & Hm' & Hr).
    rewrite Hstep in Hm'. injection Hm' as -> ->.
    destruct (import_types_exact (reference_import ref) m) as (Hp & Hn & Hi).
    cbn [type_imports] in *.
    destruct (IH _ _ _ Hstep0) as (Hp' & Hn' & Hi' & Hrs).
    rewrite Hp', Hn', Hi', Hp, Hn, Hi. cbn [flat_map]. unfold type_uses.
    rewrite map_app, Imports_use_all_app. repeat split.
    intros ctx. unfold render_each in *. cbn [mapM]. now rewrite Hr, Hrs.
Qed.

Lemma apiVersion_renders : renders_as apiVersion ["APIVersion"; "apiVersion"] [] api_version_text.
Proof.
  intros log m m' r Hinv H. unfold apiVersion in H.
  bind_inv H. destruct a as [m1 type]. bind_inv H. destruct a as [m2 value].
  injection H as <- <-.
  destruct (Module_name_exact _ _ _ _ _ Hinv Hstep) as (-> & Hp1 & Hi1 & Hinv1).
  destruct (Module_name_exact _ _ _ _ _ Hinv1 Hstep0) as (-> & Hp2 & Hi2 & Hinv2).
  split; [congruence|]. split; [unfold Imports_use_all; simpl; congruence|].
  intros ctx rest Hres. cbv zeta. unfold module_of.
  cbn [map app] in Hres. rewrite <- app_assoc in Hres. cbn [app] in Hres.
  rewrite (resolves_at _ _ _ _ Hres).
  assert (H1 : Name_binding (length (log ++ [("APIVersion", declaration)])) (module ctx)
               = Ok "apiVersion").
  { apply (resolves_at _ _ rest). rewrite <- app_assoc. exact Hres. }
  rewrite H1. reflexivity.
Qed.

Lemma resourceBase_renders (defs : list Definition_) (resource : option Generator) :
  resourceBase defs = Ok resource ->
  match resource, resource_metadata defs with
  | Some r, Some ref => renders_as r ["Resource"] (resource_uses ref) (resource_text ref)
  | None, None => True
  | _, _ => False
  end.
Proof.
  unfold resourceBase, resource_metadata. intros H.
  destruct (find _ defs) as [resourceDef|]; [|now injection H as <-].
  destruct (def_value resourceDef) as [| | | | | | | | | | |properties scope];
    try (simpl in H; discriminate H).
  destruct (find metadata_reference properties) as [[pname req value meta]|];
    [|discriminate H].
  destruct value; try discriminate H. injection H as <-. cbn [prop_value].
  intros log m m' r Hinv H.
  bind_inv H. destruct a as [m1 resource].
  destruct (Module_name_exact _ _ _ _ _ Hinv Hstep) as (-> & Hp1 & Hi1 & Hinv1).
  rewrite (Module_import_exact lib_schema "Resource" type_true m1) in H.
  cbv beta iota in H.
  match type of H with context [Module_import lib_schema "NameScope" type_true ?m] =>
    rewrite (Module_import_exact lib_schema "NameScope" type_true m) in H end.
  cbv beta iota in H. cbn [path names imports] in H.
  bind_inv H. destruct a as [m4 metadata]. injection H as <- <-.
  match type of Hstep0 with gen_reference ?ref0 ?m0 = _ =>
    destruct (gen_type_outcome_all (TReference ref0) false) as (g & Hg & Hc);
    injection Hg as <-;
    destruct (Hc m0) as (r' & Hm' & Hr);
    destruct (import_types_exact (reference_import ref0) m0) as (Hp4 & _ & Hi4)
  end.
  rewrite Hstep0 in Hm'. injection Hm' as -> ->.
  cbn [path imports] in Hp4, Hi4.
  split; [exact (eq_trans Hp4 Hp1)|]. split.
  { etransitivity; [exact Hi4|]. rewrite Hi1. reflexivity. }
  intros ctx rest Hres. cbv zeta. unfold module_of.
  cbn [map app] in Hres. rewrite <- app_assoc in Hres. cbn [app] in Hres.
  rewrite (resolves_at _ _ _ _ Hres). cbn [bind]. rewrite Hr. reflexivity.
Qed.

(** The first stage of the generator of a type, on a module. *)
Lemma gen_type_stage (t : Type_) (declaration : bool) (g : Generator) (m m' : Module)
    (r : Renderer) :
  gen_type t declaration = Ok g ->
  g m = Ok (m', r) ->
  path m' = path m
  /\ names m' = names m
  /\ imports m' = Imports_use_all (type_uses (type_imports t declaration)) (imports m)
  /\ forall ctx, r ctx = type_text ctx t declaration.
Proof.
  intros Hg Hm. pose proof (gen_type_outcome_all t declaration) as Ho.
  destruct (has_resource t) eqn:Hres; [congruence|].
  destruct Ho as (g' & Hg' & Hc). assert (g' = g) by congruence. subst g'.
  destruct (Hc m) as (r' & Hm' & Hr). rewrite Hm in Hm'. injection Hm' as -> ->.
  destruct (import_types_exact (type_imports t declaration) m) as (Hp & Hn & Hi).
  repeat split; auto.
Qed.

Lemma gen_definition_renders (d : Definition_) (g : Generator) :
  gen_definition d = Ok g ->
  renders_as g (declared_names d) (definition_uses d) (fun ctx => definition_text ctx d).
Proof.
  unfold gen_definition, declared_names, definition_uses, definition_text. intros H.
  destruct (def_value d) as [enum| | | |values|values|properties inherit|values|value
                            |ref| |properties scope] eqn:Ev;
    try (bind_inv H; injection H as <-;
         intros log m m' r Hinv H;
         bind_inv H; destruct a0 as [m1 name]; bind_inv H; destruct a0 as [m2 v];
         injection H as <- <-;
         destruct (Module_name_exact _ _ _ _ _ Hinv Hstep0) as (-> & Hp1 & Hi1 & Hinv1);
         destruct (gen_type_stage _ _ _ _ _ _ Hstep Hstep1) as (Hp2 & _ & Hi2 & Hv);
         split; [congruence|]; split; [congruence|];
         intros ctx rest Hres; cbv zeta; unfold module_of;
         cbn [map app] in Hres; rewrite <- app_assoc in Hres; cbn [app] in Hres;
         rewrite (resolves_at _ _ _ _ Hres), Hv; reflexivity).
  - (* object *)
    unfold gen_interface in H. bind_inv H. injection H as <-.
    intros log m m' r Hinv H.
    bind_inv H. destruct a0 as [m1 name]. bind_inv H. destruct a0 as [m2 object].
    bind_inv H. destruct a0 as [m3 parents]. injection H as <- <-.
    destruct (Module_name_exact _ _ _ _ _ Hinv Hstep0) as (-> & Hp1 & Hi1 & Hinv1).
    destruct (gen_type_stage _ _ _ _ _ _ Hstep Hstep1) as (Hp2 & _ & Hi2 & Ho).
    assert (Hparents :
      match inherit with
      | Some refs => if nonempty refs then map gen_reference refs else []
      | None => []
      end = map gen_reference (parents_of inherit)).
    { destruct inherit as [[|ref refs]|]; reflexivity. }
    rewrite Hparents in Hstep2.
    destruct (references_render _ _ _ _ Hstep2) as (Hp3 & _ & Hi3 & Hps).
    split; [congruence|]. split.
    { rewrite Hi3, Hi2, Hi1. now rewrite Imports_use_all_app. }
    intros ctx rest Hres. cbv zeta. unfold module_of.
    cbn [map app] in Hres. rewrite <- app_assoc in Hres. cbn [app] in Hres.
    rewrite (resolves_at _ _ _ _ Hres), Ho, Hps.
    assert (Hne : nonempty parents = nonempty (parents_of inherit)).
    { pose proof (apply_each_length _ _ _ _ Hstep2) as Hl. rewrite length_map in Hl.
      destruct parents, (parents_of inherit); try reflexivity; discriminate Hl. }
    rewrite Hne. reflexivity.
  - (* reference *)
    injection H as <-. intros log m m' r Hinv H.
    bind_inv H. destruct a as [m1 name]. bind_inv H. destruct a as [m2 ref'].
    injection H as <- <-.
    destruct (gen_type_stage (TReference ref) false _ _ _ _ eq_refl Hstep0)
      as (Hp2 & _ & Hi2 & Hr).
    cbn [type_imports type_text] in Hi2, Hr.
    destruct (String.eqb (def_name d) (target_name ref)) eqn:E; cbn [negb] in Hstep.
    + injection Hstep as <- <-. split; [assumption|]. split; [assumption|].
      intros ctx rest _. cbv zeta. cbn [bind]. now rewrite Hr.
    + bind_inv Hstep. destruct a as [m0 b]. injection Hstep as <- <-.
      destruct (Module_name_exact _ _ _ _ _ Hinv Hstep1) as (-> & Hp1 & Hi1 & Hinv1).
      split; [congruence|]. split; [congruence|].
      intros ctx rest Hres. cbv zeta. unfold module_of.
      cbn [map app] in Hres. rewrite <- app_assoc in Hres. cbn [app] in Hres.
      rewrite (resolves_at _ _ _ _ Hres), Hr. cbn [bind].
      destruct (reference_text ref ctx); reflexivity.
  - (* resource *)
    unfold gen_resource in H.
    destruct (find named_metadata properties) as [[pname req value meta]|]; [|discriminate].
    destruct value; try discriminate.
    bind_inv H. injection H as <-.
    change (gen_object (drop_found named_metadata properties) None false)
      with (gen_type (TObject (drop_found named_metadata properties) None) false) in Hstep.
    intros log m m' r Hinv H.
    rewrite (Module_import_exact lib_schema "factory" None m) in H. cbv beta iota in H.
    match type of H with context [Module_import lib_schema "ResourceList" type_true ?m0] =>
      rewrite (Module_import_exact lib_schema "ResourceList" type_true m0) in H end.
    cbv beta iota in H. cbn [path names imports] in H.
    bind_inv H. destruct a0 as [m3 name]. bind_inv H. destruct a0 as [m4 listName].
    bind_inv H. destruct a0 as [m5 object]. injection H as <- <-.
    pose proof (fun Hi => Module_name_exact log _ _ _ _ Hi Hstep0) as Hname.
    destruct (Hname Hinv) as (-> & Hp3 & Hi3 & Hinv3). clear Hname.
    destruct (Module_name_exact _ _ _ _ _ Hinv3 Hstep1) as (-> & Hp4 & Hi4 & Hinv4).
    destruct (gen_type_stage _ _ _ _ _ _ Hstep Hstep2) as (Hp5 & _ & Hi5 & Ho).
    cbn [path imports] in Hp3, Hi3.
    split; [congruence|]. split.
    { rewrite Hi5, Hi4, Hi3. reflexivity. }
    intros ctx rest Hres. cbv zeta. unfold module_of.
    cbn [map app] in Hres. rewrite <- app_assoc in Hres. cbn [app] in Hres.
    assert (H1 : Name_binding (length (log ++ [(def_name d, declaration)])) (module ctx)
                 = Ok (def_name d ++ "List")).
    { apply (resolves_at _ _ rest). rewrite <- app_assoc. exact Hres. }
    rewrite (resolves_at _ _ _ _ Hres), H1, Ho. cbn [bind]. unfold lib_binding.
    destruct (Module_get "Resource" (module ctx)); [|reflexivity]. cbn [bind].
    destruct (type_text ctx _ false); [|reflexivity]. cbn [bind].
    destruct (Module_get "apiVersion" (module ctx)); [|reflexivity]. cbn [bind].
    destruct (Import_binding (_, "factory") (module ctx)); [|reflexivity]. cbn [bind].
    destruct (Import_binding (_, "ResourceList") (module ctx)); reflexivity.
Qed.

Lemma declared_inv (g : Generator) (decls : list string) (log : list Registration)
    (m m' : Module) (r : Renderer) :
  declares g decls -> Names_inv log (names m) -> g m = Ok (m', r) ->
  Names_inv (log ++ map (fun t => (t, declaration)) decls) (names m').
Proof.
  intros Hd Hinv Hg. specialize (Hd m). unfold stage_declares, declare_all in Hd.
  destruct (Names_register _ (names m)) as [ns|msg] eqn:E; [|congruence].
  destruct Hd as (m'' & a & Hg' & <-). rewrite Hg in Hg'. injection Hg' as <- _.
  exact (Names_register_inv _ _ _ _ Hinv E).
Qed.

(** The members of a list, in order. *)
Lemma apply_each_renders (gs : list Generator) (specs : list MemberSpec) :
  Forall2 (fun g s => declares g (spec_names s)
                      /\ renders_as g (spec_names s) (spec_uses s) (spec_text s)) gs specs ->
  forall log m m' rs,
    Names_inv log (names m) ->
    apply_each gs m = Ok (m', rs) ->
    path m' = path m
    /\ imports m' = Imports_use_all (flat_map spec_uses specs) (imports m)
    /\ forall ctx rest,
         resolves (module ctx)
           ((log ++ map (fun t => (t, declaration)) (flat_map spec_names specs)) ++ rest) ->
         render_each rs ctx = mapM (fun s => spec_text s ctx) specs.
Proof.
  induction 1 as [|g s gs specs [Hd Hg] _ IH]; intros log m m' rs Hinv H; simpl in H.
  - injection H as <- <-. repeat split.
  - bind_inv H. destruct a as [m1 r]. bind_inv H. destruct a as [m2 rs'].
    injection H as <- <-.
    destruct (Hg _ _ _ _ Hinv Hstep) as (Hp1 & Hi1 & Hr).
    pose proof (declared_inv _ _ _ _ _ _ Hd Hinv Hstep) as Hinv1.
    destruct (IH _ _ _ _ Hinv1 Hstep0) as (Hp2 & Hi2 & Hrs).
    split; [congruence|]. split.
    { cbn [flat_map]. rewrite Imports_use_all_app, Hi2, Hi1. reflexivity. }
    intros ctx rest Hres. cbn [flat_map] in Hres. rewrite map_app, app_assoc in Hres.
    unfold render_each in *. cbn [mapM].
    rewrite (Hr ctx (map (fun t => (t, declaration)) (flat_map spec_names specs) ++ rest)%list).
    + now rewrite (Hrs ctx rest Hres).
    + now rewrite app_assoc.
Qed.

Lemma member_specs_render (schema : APIGroupVersion) (resource : option Generator)
    (gens : list Generator) :
  resourceBase (definitions schema) = Ok resource ->
  mapM gen_definition (definitions schema) = Ok gens ->
  Forall2 (fun g s => declares g (spec_names s)
                      /\ renders_as g (spec_names s) (spec_uses s) (spec_text s))
          (apiVersion :: option_list resource ++ gens) (member_specs schema).
Proof.
  intros Er Eg. unfold member_specs.
  constructor; [split; [apply apiVersion_declares_names | apply apiVersion_renders]|].
  apply Forall2_app.
  - pose proof (resourceBase_renders _ _ Er) as Hr.
    pose proof (resourceBase_declares _ _ Er) as Hd.
    destruct resource as [r|], (resource_metadata (definitions schema)) as [ref|];
      try contradiction; [|constructor].
    constructor; [|constructor]. split; [|exact Hr].
    cbn [option_list] in Hd. destruct (existsb _ _); inversion Hd; subst. assumption.
  - apply mapM_Ok_Forall2 in Eg. clear - Eg.
    induction Eg as [|d g defs gens Hd _ IH]; constructor; [|exact IH].
    split; [now apply gen_definition_declares | now apply gen_definition_renders].
Qed.

Lemma existsb_find (A : Type) (f : A -> bool) (l : list A) :
  existsb f l = match find f l with Some _ => true | None => false end.
Proof.
  induction l as [|x l IH]; [reflexivity|]. simpl. destruct (f x); [reflexivity | exact IH].
Qed.

Lemma member_specs_names (schema : APIGroupVersion) :
  is_ok (resourceBase (definitions schema)) = true ->
  flat_map spec_names (member_specs schema) = schema_declarations schema.
Proof.
  intros Hr. unfold member_specs, schema_declarations. cbn [flat_map spec_names fst app].
  do 2 f_equal. rewrite flat_map_app. f_equal.
  - unfold resourceBase, resource_metadata in *.
    rewrite existsb_find.
    destruct (find _ (definitions schema)) as [resourceDef|] eqn:Ef; [|reflexivity].
    apply find_some in Ef. destruct Ef as [_ Ef].
    destruct (def_value resourceDef); try discriminate Ef.
    destruct (find metadata_reference _) as [[pname req value meta]|]; [|discriminate Hr].
    destruct value; try discriminate Hr. reflexivity.
  - rewrite flat_map_concat_map, map_map, <- flat_map_concat_map. reflexivity.
Qed.

(** X16. [emitVersion] and the module written out agree on every schema
    whose generators can be built: the same text, or the same error. The
    text is the import block of the table that holds the imports of the
    members, in the order of the members, then the two lines of the API
    version, the resource helper when the schema has a resource, and the
    text of each definition, in the order of the schema, joined by blank
    lines; every declared name is written as it is declared. *)
Theorem emitVersion_is_module_text {host : Host} (schema : APIGroupVersion)
    (engine : Engine) :
  is_ok (resourceBase (definitions schema)) = true ->
  is_ok (mapM gen_definition (definitions schema)) = true ->
  emitVersion schema engine = module_text schema engine.
Proof.
  intros Hr Hg. unfold module_text. rewrite (member_specs_names schema Hr).
  destruct (resourceBase (definitions schema)) as [resource|] eqn:Er; [|discriminate].
  destruct (mapM gen_definition (definitions schema)) as [gens|] eqn:Eg; [|discriminate].
  assert (Hemit :
    emitVersion schema engine
    = Module_render (fun m => Context_new schema m engine)
        {| state := {| path := module_path schema; names := Names_new;
                       imports := Imports_new |};
           generators := apiVersion :: (option_list resource ++ gens)%list |}).
  { unfold emitVersion. rewrite Er, Eg. simpl. unfold Module_render.
    match goal with |- context [fold_left ?f gens ?mo] =>
      destruct (generators_fold_add gens mo) as [-> ->]
    end.
    destruct resource; reflexivity. }
  rewrite Hemit. unfold Module_render. cbn [generators state].
  set (st := {| path := module_path schema; names := Names_new; imports := Imports_new |}).
  pose proof (members_declare schema resource gens st Er Eg) as Hs.
  unfold stage_declares in Hs. cbn [names st] in Hs.
  destruct (declare_all (schema_declarations schema) Names_new) as [ns|msg] eqn:Ens;
    [|now rewrite Hs].
  destruct Hs as (m1 & rs & Ea & Hns). rewrite Ea. cbn [bind].
  pose proof (member_specs_render schema resource gens Er Eg) as Hspecs.
  destruct (apply_each_renders _ _ Hspecs [] st m1 rs Names_inv_new Ea) as (Hp & Hi & Hrs).
  cbn [path imports st] in Hp, Hi.
  assert (Hm1 : m1 = {| path := module_path schema; names := ns;
                        imports := Imports_use_all (flat_map spec_uses (member_specs schema))
                                                   Imports_new |}).
  { destruct m1 as [p1 n1 i1]. cbn [path names imports] in *. now subst. }
  rewrite <- Hm1. unfold finish_apply.
  pose proof (Names_register_new_inv _ _ Ens) as Hinv. rewrite <- Hns in Hinv.
  destruct (Imports_apply_spec (imports m1) _ (names m1) Hinv) as (ns' & Ei & Hinv').
  rewrite Ei. cbn [bind].
  match goal with |- context [Context_new schema ?m engine] => set (mf := m) end.
  set (ctx := Context_new schema mf engine).
  destruct (Imports_render ctx (imports mf)) as [block|msg]; [|reflexivity]. cbn [bind].
  rewrite (Hrs ctx (import_log (all_imports (modules (imports m1))))); [reflexivity|].
  rewrite (member_specs_names schema ltac:(now rewrite Er)). cbn [app].
  intros k token Hk.
  exact (Name_binding_resolved _ _ k token declaration _ _ Hinv' Hk).
Qed.

Lemma emitVersion_is_module_text_witness :
  @emitVersion sample_host clashing_schema deno = @module_text sample_host clashing_schema deno.
Proof.
  apply (@emitVersion_is_module_text sample_host clashing_schema deno); reflexivity.
Defined.
